(** * Gesture-to-pluck interaction engine: a shallow embedding

    The development follows the TypeScript sources of the string piano:
    - [constants.ts]            : [CONFIG], the scale and colour tables and
                                  [generateStringConfigs];
    - [services/visionService.ts] : [VisionService.detect];
    - [services/audioService.ts]  : [AudioService.loadInstrument];
    - [components/SkyStage.tsx]   : [tick], [triggerString] and the state
                                  mutation of [renderStringsAndEffects].

    JavaScript numbers are modelled as rationals [Q] with exact arithmetic,
    so every statement about decay factors and thresholds is a statement
    about the exact values; string ids, counters and list indices are [nat].
    JS objects used as maps ([stringPhysics], [lastTriggerTimes]) are
    [gmap nat _]. Canvas drawing and React state setters do not feed back
    into the engine state and are left out of it; a call of
    [triggerString] is recorded as an emitted [PluckEvent]. The note
    frequencies, [playNote], the feedback counters of a pluck and the
    particle and confetti loops are modelled on their own. *)

From Stdlib Require Import QArith Qabs Lqa ZArith Lia List String Ascii DecimalString Sorted.
From Stdlib Require DecimalNat.
From stdpp Require Import gmap list.
Import ListNotations.

Local Open Scope Q_scope.

(** ** JavaScript number comparisons on [Q] *)

(** [a < b] *)
Definition Qltb (a b : Q) : bool := negb (Qle_bool b a).
(** [a > b] *)
Definition Qgtb (a b : Q) : bool := Qltb b a.
(** [a >= b] *)
Definition Qgeb (a b : Q) : bool := Qle_bool b a.
(** [a !== b] on numbers *)
Definition Qneb (a b : Q) : bool := negb (Qeq_bool a b).

(** ** constants.ts *)

Module CONFIG.
Definition DEBOUNCE_MS : Q := 120.
Definition PARTICLE_COUNT_PER_HIT : nat := 15.
Definition STRING_THICKNESS_BASE : Q := 4.
Definition STRING_THICKNESS_ACTIVE : Q := 8.
Definition STRING_TENSION : Q := 2 # 10.
Definition STRING_DAMPING : Q := 9 # 10.
Definition CONFETTI_TRIGGER_COUNT : nat := 5.
Definition CONFETTI_PARTICLE_COUNT : nat := 50.
End CONFIG.

Definition STRING_COLORS : list string :=
  [ "#FF595E"; "#FF924C"; "#FFCA3A"; "#C5CA30"; "#8AC926";
    "#52A675"; "#1982C4"; "#4267AC"; "#6A4C93"; "#B5A6C9" ]%string.

Definition C_MAJOR_SCALE : list string :=
  [ "C"; "D"; "E"; "F"; "G"; "A"; "B" ]%string.

(** types.ts *)
Inductive PitchRange := LOW | MID | HIGH.

(** The field [id] of the source is [str_id] here ([id] is the identity
    function of the prelude). *)
Record StringConfig := mkStringConfig {
  str_id : nat;
  note : string;
  color : string;
  xPos : Q
}.

(** Template literal [`${n}`] of a non-negative integer. *)
Definition numberToString (n : nat) : string :=
  NilZero.string_of_uint (Nat.to_uint n).

Definition octaveStartOf (range : PitchRange) : nat :=
  match range with
  | LOW => 3%nat
  | MID => 4%nat
  | HIGH => 5%nat
  end.

(** The body of the [for] loop of [generateStringConfigs] at index [i]. *)
Definition stringConfigAt (count : nat) (octaveStart : nat) (i : nat) : StringConfig :=
  let scaleIndex := (i mod length C_MAJOR_SCALE)%nat in
  let octaveShift := (i / length C_MAJOR_SCALE)%nat in
  let note :=
    (nth scaleIndex C_MAJOR_SCALE "" ++ numberToString (octaveStart + octaveShift))%string in
  {| str_id := i;
     note := note;
     color := nth (i mod length STRING_COLORS)%nat STRING_COLORS ""%string;
     xPos := inject_Z (Z.of_nat (i + 1)) / inject_Z (Z.of_nat (count + 1)) |}.

(** [for (let i = 0; i < count; i++) configs.push(...)] *)
Definition generateStringConfigs (count : nat) (range : PitchRange) : list StringConfig :=
  map (stringConfigAt count (octaveStartOf range)) (seq 0 count).

(** ** services/visionService.ts *)

(** A normalized landmark of the detector (the [z] coordinate is never read). *)
Record Landmark := mkLandmark { lm_x : Q; lm_y : Q }.

(** One hand: the landmark array of the detector, indexed by joint. *)
Abbreviation Hand := (list Landmark).

Record HandLandmarkerResult := mkResult { landmarks : list Hand }.

(** How a call ends: with a value, or with an exception thrown. *)
Inductive Completion (A : Type) :=
| Normal (a : A)
| Throw.
Arguments Normal {A} a.
Arguments Throw {A}.

(** The part of [HTMLVideoElement] the code reads. *)
Record Video := mkVideo { currentTime : Q; readyState : nat }.

(** [handLandmarker] is [true] once the field is non-null. *)
Record VisionService := mkVision {
  handLandmarker : bool;
  lastVideoTime : Q
}.

Definition newVisionService : VisionService :=
  {| handLandmarker := false; lastVideoTime := -1 |}.

(** [initialize]: on success the landmarker is stored, on failure the
    error is rethrown and the field is left as it was. *)
Definition initialize (created : bool) (vs : VisionService) : Completion VisionService :=
  if created
  then Normal {| handLandmarker := true; lastVideoTime := lastVideoTime vs |}
  else Throw.

(** What one call of [detect] did. *)
Record DetectCall := mkDetectCall {
  vs_after : VisionService;
  detectorInvoked : bool;
  detectReturn : Completion (option HandLandmarkerResult)
}.

(** [detect(video)]. The underlying [detectForVideo] is external: its
    behaviour on this frame, were it called, is the argument [underlying]. *)
Definition detect (vs : VisionService) (video : Video)
    (underlying : Completion HandLandmarkerResult) : DetectCall :=
  if negb (handLandmarker vs) then
    {| vs_after := vs; detectorInvoked := false; detectReturn := Normal None |}
  else if Qneb (currentTime video) (lastVideoTime vs) then
    {| vs_after := {| handLandmarker := handLandmarker vs;
                      lastVideoTime := currentTime video |};
       detectorInvoked := true;
       detectReturn := match underlying with
                       | Normal r => Normal (Some r)
                       | Throw => Throw
                       end |}
  else
    {| vs_after := vs; detectorInvoked := false; detectReturn := Normal None |}.

(** ** services/audioService.ts *)

Inductive InstrumentName :=
| acoustic_grand_piano | acoustic_guitar_nylon | marimba | violin
| orchestral_harp | xylophone | music_box | celesta | glockenspiel.

#[global] Instance InstrumentName_eq_dec : EqDecision InstrumentName.
Proof. solve_decision. Defined.

(** A loaded soundfont player: the instrument it was loaded for and the
    number of the load that produced it. *)
Record Player := mkPlayer { playerFont : InstrumentName; playerLoad : nat }.

(** [ctx] is [true] when an [AudioContext] could be created. *)
Record AudioService := mkAudio {
  ctx : bool;
  instrument : option Player;
  currentInstrumentName : InstrumentName
}.

Definition newAudioService (hasContext : bool) : AudioService :=
  {| ctx := hasContext; instrument := None;
     currentInstrumentName := acoustic_grand_piano |}.

(** [loadInstrument] up to its [await]: either it returns at once, or it
    records the request and suspends with [loadingName] captured. *)
Inductive LoadStart :=
| Returned
| Awaiting (loadingName : InstrumentName).

Definition loadInstrument_call (name : InstrumentName) (a : AudioService)
    : AudioService * LoadStart :=
  if negb (ctx a) then (a, Returned)
  else if bool_decide (currentInstrumentName a = name) && bool_decide (is_Some (instrument a))
  then (a, Returned)
  else ({| ctx := ctx a; instrument := instrument a; currentInstrumentName := name |},
        Awaiting name).

(** [loadInstrument] after its [await]: the promise of
    [Soundfont.instrument] settled with a player or was rejected. *)
Definition loadInstrument_resume (loadingName : InstrumentName)
    (settled : option Player) (a : AudioService) : AudioService :=
  match settled with
  | Some newPlayer =>
      if decide (currentInstrumentName a = loadingName)
      then {| ctx := ctx a; instrument := Some newPlayer;
              currentInstrumentName := currentInstrumentName a |}
      else a
  | None => a
  end.

(** ** components/SkyStage.tsx: state of the logic loop *)

(** One entry of [stringPhysics]. *)
Record Physics := mkPhysics { vibration : Q; bend : Q }.

(** One entry of [fingerPositions] (fields [x], [y], [visible]). *)
Record FingerPosition := mkFinger { finger_x : Q; finger_y : Q; visible : bool }.

(** A call [triggerString(str, time, yPosNormalized)], as seen by the
    audio and particle consumers. *)
Record PluckEvent := mkPluck {
  stringId : nat;
  triggerTimeMs : Q;
  fingerYNormalized : Q
}.

(** The refs of the component that the logic loop reads and writes. *)
Record Engine := mkEngine {
  stringsRef : list StringConfig;
  lastLandmarksRef : option (list Hand);
  prevFingerX : list (option Q);
  prevFingerVisible : list bool;
  lastTriggerTimes : gmap nat Q;
  stringPhysics : gmap nat Physics;
  cameraActiveRef : bool;
  visionService : VisionService
}.

(** The refs as [useRef] creates them, with the strings of the first render. *)
Definition newEngine (strings : list StringConfig) : Engine :=
  {| stringsRef := strings;
     lastLandmarksRef := None;
     prevFingerX := [None; None];
     prevFingerVisible := [false; false];
     lastTriggerTimes := ∅;
     stringPhysics := ∅;
     cameraActiveRef := false;
     visionService := newVisionService |}.

(** The effect on [cameraActive]: the ref follows the state, and turning
    the camera off clears the cached landmarks and the finger memory. *)
Definition setCameraActive (cameraActive : bool) (e : Engine) : Engine :=
  {| stringsRef := stringsRef e;
     lastLandmarksRef := if cameraActive then lastLandmarksRef e else None;
     prevFingerX := if cameraActive then prevFingerX e else [None; None];
     prevFingerVisible := if cameraActive then prevFingerVisible e else [false; false];
     lastTriggerTimes := lastTriggerTimes e;
     stringPhysics := stringPhysics e;
     cameraActiveRef := cameraActive;
     visionService := visionService e |}.

(** A render with a new string count or pitch range: [stringsRef.current = strings]. *)
Definition setStrings (count : nat) (range : PitchRange) (e : Engine) : Engine :=
  {| stringsRef := generateStringConfigs count range;
     lastLandmarksRef := lastLandmarksRef e;
     prevFingerX := prevFingerX e;
     prevFingerVisible := prevFingerVisible e;
     lastTriggerTimes := lastTriggerTimes e;
     stringPhysics := stringPhysics e;
     cameraActiveRef := cameraActiveRef e;
     visionService := visionService e |}.

(** [visionService.initialize()] resolved. *)
Definition visionReady (e : Engine) : Engine :=
  {| stringsRef := stringsRef e;
     lastLandmarksRef := lastLandmarksRef e;
     prevFingerX := prevFingerX e;
     prevFingerVisible := prevFingerVisible e;
     lastTriggerTimes := lastTriggerTimes e;
     stringPhysics := stringPhysics e;
     cameraActiveRef := cameraActiveRef e;
     visionService := {| handLandmarker := true;
                         lastVideoTime := lastVideoTime (visionService e) |} |}.

(** [arr[i] = v] on a JS array: in range it overwrites; past the end it
    extends the array, the skipped slots reading as [hole]. *)
Definition arraySet {A : Type} (hole : A) (i : nat) (v : A) (l : list A) : list A :=
  if (i <? length l)%nat then <[i := v]> l
  else l ++ replicate (i - length l) hole ++ [v].

(** The elements of an array with their indices, as [forEach] passes them. *)
Definition indexed {A : Type} (l : list A) : list (nat * A) :=
  combine (seq 0 (length l)) l.

(** ** tick, step 3: finger positions *)

Definition reachThreshold : Q := 8 # 100.

Definition invisibleFinger : FingerPosition :=
  {| finger_x := -1; finger_y := -1; visible := false |}.

(** Body of [for (let i = 0; i < 2; i++)]. *)
Definition fingerAt (allHands : list Hand) (i : nat) : FingerPosition :=
  match allHands !! i with
  | Some hand =>
      match hand !! 8%nat with
      | Some tip => {| finger_x := 1 - lm_x tip; finger_y := lm_y tip; visible := true |}
      | None => invisibleFinger
      end
  | None => invisibleFinger
  end.

Definition fingerPositions (cache : option (list Hand)) : list FingerPosition :=
  match cache with
  | Some allHands =>
      if (0 <? length allHands)%nat then map (fingerAt allHands) [0%nat; 1%nat] else []
  | None => []
  end.

(** ** tick, step 3: bend of one string *)

Definition pullFactorOf (distToFingerX : Q) : Q :=
  1 - (Qabs distToFingerX / reachThreshold).

(** The candidate [bend] of one finger. *)
Definition bendOf (width distToFingerX : Q) : Q :=
  (distToFingerX * width) * pullFactorOf distToFingerX * (8 # 10).

(** [physics.vibration < 0.1]: the string is not in the middle of a pluck. *)
Definition bendEligible (physics : Physics) : bool :=
  Qltb (vibration physics) (1 # 10).

(** Body of the first [fingerPositions.forEach], threading [closestBend]. *)
Definition bendStep (width : Q) (str : StringConfig) (physics : Physics)
    (closestBend : Q) (finger : FingerPosition) : Q :=
  if negb (visible finger) then closestBend
  else
    let distToFingerX := finger_x finger - xPos str in
    let isWithinReach := Qltb (Qabs distToFingerX) reachThreshold in
    if isWithinReach && bendEligible physics then
      let bend := bendOf width distToFingerX in
      if Qgtb (Qabs bend) (Qabs closestBend) then bend else closestBend
    else closestBend.

Definition closestBendOf (width : Q) (str : StringConfig) (physics : Physics)
    (fingers : list FingerPosition) : Q :=
  fold_left (bendStep width str physics) fingers 0.

(** [if (closestBend !== 0) physics.bend = closestBend; else physics.bend *= 0.8] *)
Definition applyBend (closestBend : Q) (physics : Physics) : Physics :=
  if Qneb closestBend 0
  then {| vibration := vibration physics; bend := closestBend |}
  else {| vibration := vibration physics; bend := bend physics * (8 # 10) |}.

(** ** tick, step 3: crossing and trigger of one string *)

(** What the [stringsRef.current.forEach] loop mutates, and the calls of
    [triggerString] made so far in this frame. *)
Record LoopState := mkLoop {
  ls_physics : gmap nat Physics;
  ls_triggers : gmap nat Q;
  ls_events : list PluckEvent
}.

(** [triggerString]: the ledger entry is written, and the vibration of
    the string is set to 1.0 if its physics entry exists. *)
Definition triggerString (str : StringConfig) (time yPosNormalized : Q)
    (s : LoopState) : LoopState :=
  {| ls_physics :=
       alter (fun p => {| vibration := 1; bend := bend p |}) (str_id str) (ls_physics s);
     ls_triggers := <[str_id str := time]> (ls_triggers s);
     ls_events :=
       ls_events s ++ [ {| stringId := str_id str; triggerTimeMs := time;
                           fingerYNormalized := yPosNormalized |} ] |}.

(** [crossedRight || crossedLeft] *)
Definition crossed (prevX xPos x : Q) : bool :=
  (Qltb prevX xPos && Qgeb x xPos) || (Qgtb prevX xPos && Qle_bool x xPos).

(** [now - lastTime > CONFIG.DEBOUNCE_MS], with
    [lastTime = lastTriggerTimes.current[str.id] || 0]. *)
Definition debounceOpen (triggers : gmap nat Q) (i : nat) (now : Q) : bool :=
  let lastTime := default 0 (triggers !! i) in
  Qgtb (now - lastTime) CONFIG.DEBOUNCE_MS.

(** [physics.bend = 0], on the physics entry of [str]. *)
Definition snapBend (str : StringConfig) (s : LoopState) : LoopState :=
  {| ls_physics :=
       alter (fun p => {| vibration := vibration p; bend := 0 |}) (str_id str) (ls_physics s);
     ls_triggers := ls_triggers s;
     ls_events := ls_events s |}.

(** Body of the second [fingerPositions.forEach] (the trigger logic). *)
Definition triggerStep (prevX : list (option Q)) (prevVisible : list bool)
    (now : Q) (str : StringConfig) (s : LoopState)
    (fi : nat * FingerPosition) : LoopState :=
  let fingerIndex := fst fi in
  let finger := snd fi in
  if negb (visible finger) then s
  else
    let isInStringArea := Qle_bool (finger_y finger) (67 # 100) in
    let wasVisible := default false (prevVisible !! fingerIndex) in
    match prevX !! fingerIndex with
    | Some (Some prevX) =>
        if wasVisible && isInStringArea then
          if crossed prevX (xPos str) (finger_x finger) then
            if debounceOpen (ls_triggers s) (str_id str) now then
              snapBend str (triggerString str now (finger_y finger) s)
            else s
          else s
        else s
    | _ => s
    end.

(** Body of [stringsRef.current.forEach((str) => ...)]. *)
Definition processString (width now : Q) (fingers : list FingerPosition)
    (prevX : list (option Q)) (prevVisible : list bool)
    (s : LoopState) (str : StringConfig) : LoopState :=
  let initialised :=
    match ls_physics s !! str_id str with
    | Some _ => ls_physics s
    | None => <[str_id str := {| vibration := 0; bend := 0 |}]> (ls_physics s)
    end in
  let physics := default {| vibration := 0; bend := 0 |} (initialised !! str_id str) in
  let closestBend := closestBendOf width str physics fingers in
  let bent := <[str_id str := applyBend closestBend physics]> initialised in
  fold_left (triggerStep prevX prevVisible now str) (indexed fingers)
    {| ls_physics := bent; ls_triggers := ls_triggers s; ls_events := ls_events s |}.

(** [fingerPositions.forEach((finger, idx) => ...)]: the memory of the
    previous frame. *)
Definition updatePrev (mem : list (option Q) * list bool)
    (fi : nat * FingerPosition) : list (option Q) * list bool :=
  let idx := fst fi in
  let finger := snd fi in
  if visible finger
  then (arraySet None idx (Some (finger_x finger)) (fst mem),
        arraySet false idx true (snd mem))
  else (fst mem, arraySet false idx false (snd mem)).

(** ** renderStringsAndEffects: the decay of the vibration *)

Definition decayVibration (phys : Physics) : Physics :=
  if Qgtb (vibration phys) (1 # 100)
  then {| vibration := vibration phys * (92 # 100); bend := bend phys |}
  else phys.

(** Of the render loop over the strings only [phys.vibration *= 0.92]
    changes the state; a string without a physics entry is drawn from a
    temporary object. *)
Definition renderStringsAndEffects (strings : list StringConfig)
    (physics : gmap nat Physics) : gmap nat Physics :=
  fold_left (fun m str => alter decayVibration (str_id str) m) strings physics.

(** ** tick *)

(** What one animation frame finds: whether the canvas, the video element
    and the 2d context exist, the canvas width, the video element, the
    value of [performance.now()], and what the underlying detector does on
    this frame if it is called. *)
Record Frame := mkFrame {
  canvasReady : bool;
  width : Q;
  video : Video;
  now : Q;
  detectorOutcome : Completion HandLandmarkerResult
}.

(** How [tick] ends: by its early [return] (nothing rescheduled), at its
    end (the next frame is requested), or by an exception that leaves it
    (nothing rescheduled). *)
Inductive TickResult :=
| Skipped (e : Engine)
| Completed (e : Engine) (events : list PluckEvent)
| Thrown (e : Engine).

Definition withVision (vs : VisionService) (cache : option (list Hand)) (e : Engine) : Engine :=
  {| stringsRef := stringsRef e;
     lastLandmarksRef := cache;
     prevFingerX := prevFingerX e;
     prevFingerVisible := prevFingerVisible e;
     lastTriggerTimes := lastTriggerTimes e;
     stringPhysics := stringPhysics e;
     cameraActiveRef := cameraActiveRef e;
     visionService := vs |}.

(** [stringsRef.current.forEach((str) => ...)] *)
Definition stringLoop (f : Frame) (e : Engine) : LoopState :=
  fold_left
    (processString (width f) (now f) (fingerPositions (lastLandmarksRef e))
                   (prevFingerX e) (prevFingerVisible e))
    (stringsRef e)
    {| ls_physics := stringPhysics e;
       ls_triggers := lastTriggerTimes e;
       ls_events := [] |}.

(** [fingerPositions.forEach((finger, idx) => ...)] after the strings. *)
Definition prevLoop (e : Engine) : list (option Q) * list bool :=
  fold_left updatePrev (indexed (fingerPositions (lastLandmarksRef e)))
            (prevFingerX e, prevFingerVisible e).

(** Step 3 and 4 of [tick], from the finger positions on. *)
Definition interact (f : Frame) (e : Engine) : TickResult :=
  let s := stringLoop f e in
  let mem := prevLoop e in
  Completed
    {| stringsRef := stringsRef e;
       lastLandmarksRef := lastLandmarksRef e;
       prevFingerX := fst mem;
       prevFingerVisible := snd mem;
       lastTriggerTimes := ls_triggers s;
       stringPhysics := renderStringsAndEffects (stringsRef e) (ls_physics s);
       cameraActiveRef := cameraActiveRef e;
       visionService := visionService e |}
    (ls_events s).

(** The cache after [if (results && results.landmarks.length > 0)]. *)
Definition cacheAfter (results : option HandLandmarkerResult)
    (cache : option (list Hand)) : option (list Hand) :=
  match results with
  | Some r => if (0 <? length (landmarks r))%nat then Some (landmarks r) else cache
  | None => cache
  end.

(** The cursor drawing reads [allHands[0][8].x]: a first hand without a
    fingertip landmark raises a TypeError. *)
Definition cursorReadable (cache : option (list Hand)) : bool :=
  match cache with
  | Some (hand0 :: _) => bool_decide (is_Some (hand0 !! 8%nat))
  | _ => true
  end.

Definition tick (f : Frame) (e : Engine) : TickResult :=
  if negb (canvasReady f) then Skipped e
  else if cameraActiveRef e && (2 <=? readyState (video f))%nat then
    let d := detect (visionService e) (video f) (detectorOutcome f) in
    match detectReturn d with
    | Throw => Thrown (withVision (vs_after d) (lastLandmarksRef e) e)
    | Normal results =>
        let cache := cacheAfter results (lastLandmarksRef e) in
        let e' := withVision (vs_after d) cache e in
        if cursorReadable cache then interact f e' else Thrown e'
    end
  else interact f e.

(** The engine as [tick] left it, however it ended. *)
Definition engineOf (r : TickResult) : Engine :=
  match r with
  | Skipped e => e
  | Completed e _ => e
  | Thrown e => e
  end.

(** The frame loop: [requestAnimationFrame] calls [tick] again only when
    the previous [tick] reached its end. Returns the final state, all the
    events, and whether the loop is still scheduled. *)
Fixpoint runFrames (frames : list Frame) (e : Engine)
    : Engine * list PluckEvent * bool :=
  match frames with
  | [] => (e, [], true)
  | f :: rest =>
      match tick f e with
      | Completed e' evs =>
          let '(e'', evs', alive) := runFrames rest e' in
          (e'', evs ++ evs', alive)
      | Skipped e' => (e', [], false)
      | Thrown e' => (e', [], false)
      end
  end.

(** ** Scenario builders *)

(** A full hand of 21 landmarks whose index fingertip (landmark 8) is at
    raw image position [(rawX, y)]; the other joints sit at the centre. *)
Definition handWithTip (rawX y : Q) : Hand :=
  replicate 8 (mkLandmark (1 # 2) (1 # 2)) ++ [mkLandmark rawX y]
    ++ replicate 12 (mkLandmark (1 # 2) (1 # 2)).

(** A frame on which the detector, if called, reports [hands]. *)
Definition frameWith (w videoTime t : Q) (hands : list Hand) : Frame :=
  {| canvasReady := true; width := w;
     video := {| currentTime := videoTime; readyState := 4 |};
     now := t;
     detectorOutcome := Normal {| landmarks := hands |} |}.

(** A frame on which one finger is seen at stage position [(x, y)]
    (the raw image coordinate is mirrored). *)
Definition fingerFrame (w videoTime t x y : Q) : Frame :=
  frameWith w videoTime t [handWithTip (1 - x) y].

(** A frame on which two fingers are seen, at [(x0, y)] and [(x1, y)]. *)
Definition twoFingerFrame (w videoTime t x0 x1 y : Q) : Frame :=
  frameWith w videoTime t [handWithTip (1 - x0) y; handWithTip (1 - x1) y].

(** The events of a tick that ran to its end (none otherwise). *)
Definition eventsOfTick (r : TickResult) : list PluckEvent :=
  match r with
  | Completed _ evs => evs
  | _ => []
  end.

(** [n] further frames, numbered from [first], 16 ms apart, on each of
    which the finger is seen at the same place [(x, 0.3)]. *)
Definition restingFrames (first n : nat) (x : Q) : list Frame :=
  map (fun j => fingerFrame 1000 (inject_Z (Z.of_nat j) / 30)
                            (1000 + 16 * inject_Z (Z.of_nat j)) x (3 # 10))
      (seq first n).

(** One frame of a sweep: where the finger is seen, the identity of the
    video frame, and the value of [performance.now()]. *)
Record SweepStep := mkSweepStep { sw_x : Q; sw_videoTime : Q; sw_now : Q }.

Definition sweepFrame (w y : Q) (st : SweepStep) : Frame :=
  fingerFrame w (sw_videoTime st) (sw_now st) (sw_x st) y.

(** From a frame with the finger at [x] and video time [vt], the finger
    never moves left, every frame is a new video frame, and every frame
    time exceeds [DEBOUNCE_MS]. *)
Fixpoint steadySweep (x vt : Q) (steps : list SweepStep) : Prop :=
  match steps with
  | [] => True
  | st :: rest =>
      x <= sw_x st
      /\ ~ sw_videoTime st == vt
      /\ CONFIG.DEBOUNCE_MS < sw_now st
      /\ steadySweep (sw_x st) (sw_videoTime st) rest
  end.

(** Where the finger is at the end of the sweep. *)
Fixpoint sweepEnd (x : Q) (steps : list SweepStep) : Q :=
  match steps with
  | [] => x
  | st :: rest => sweepEnd (sw_x st) rest
  end.

(** The string lies in the half-open interval (a, b]. *)
Definition inInterval (a b : Q) (str : StringConfig) : bool :=
  Qltb a (xPos str) && Qle_bool (xPos str) b.

(** The engine in the middle of a sweep over the strings [strs]: the
    camera runs, the detector is ready and last saw video time [vt], the
    first finger is remembered at [x], and no string to the right of [x]
    has been triggered yet. *)
Definition sweeping (strs : list StringConfig) (x vt : Q) (e : Engine) : Prop :=
  stringsRef e = strs
  /\ cameraActiveRef e = true
  /\ handLandmarker (visionService e) = true
  /\ lastVideoTime (visionService e) == vt
  /\ (exists px, prevFingerX e !! 0%nat = Some (Some px) /\ px == x)
  /\ prevFingerVisible e !! 0%nat = Some true
  /\ (forall str, str ∈ strs -> x < xPos str ->
        lastTriggerTimes e !! str_id str = None).

(** The engine after the vision service is ready and the camera started. *)
Definition startedEngine (strings : list StringConfig) : Engine :=
  setCameraActive true (visionReady (newEngine strings)).

(** ** The audio service under interleaved calls

    [loadInstrument] is [async]: between its [await] and its resumption
    other calls may run. The service is driven by two kinds of event. *)
Inductive AudioEvent :=
| CallLoad (name : InstrumentName)
| Settle (k : nat) (loaded : bool).

(** The service together with the suspended calls of [loadInstrument]
    (each with the number of the call and its captured [loadingName]),
    the name of the most recent request, and the number of calls so far. *)
Record AudioSystem := mkAudioSystem {
  service : AudioService;
  inFlight : list (nat * InstrumentName);
  lastRequested : option InstrumentName;
  callsMade : nat
}.

Definition newAudioSystem (hasContext : bool) : AudioSystem :=
  {| service := newAudioService hasContext; inFlight := [];
     lastRequested := None; callsMade := 0 |}.

(** [CallLoad name] runs [loadInstrument(name)] up to its [await];
    [Settle k loaded] settles the promise of the [k]-th suspended call,
    with the player of its instrument or with a rejection, and runs the
    rest of that call. *)
Definition audioStep (sys : AudioSystem) (ev : AudioEvent) : AudioSystem :=
  match ev with
  | CallLoad name =>
      let r := loadInstrument_call name (service sys) in
      {| service := fst r;
         inFlight := match snd r with
                     | Awaiting loadingName => inFlight sys ++ [(callsMade sys, loadingName)]
                     | Returned => inFlight sys
                     end;
         lastRequested := Some name;
         callsMade := S (callsMade sys) |}
  | Settle k loaded =>
      match inFlight sys !! k with
      | Some (n, loadingName) =>
          let settled :=
            if loaded then Some {| playerFont := loadingName; playerLoad := n |} else None in
          {| service := loadInstrument_resume loadingName settled (service sys);
             inFlight := delete k (inFlight sys);
             lastRequested := lastRequested sys;
             callsMade := callsMade sys |}
      | None => sys
      end
  end.

Definition audioRun (evs : list AudioEvent) (sys : AudioSystem) : AudioSystem :=
  fold_left audioStep evs sys.

(** ** Summaries of the loops, used to state the properties *)

Definition zeroPhysics : Physics := {| vibration := 0; bend := 0 |}.

(** The finger passes every test of the trigger logic but the debounce:
    it is visible, was visible in the previous frame with a known
    position, is in the string area, and crossed the string. *)
Definition crossing (prevX : list (option Q)) (prevVisible : list bool)
    (str : StringConfig) (fi : nat * FingerPosition) : bool :=
  visible (snd fi)
  && match prevX !! fst fi with
     | Some (Some px) =>
         default false (prevVisible !! fst fi)
         && Qle_bool (finger_y (snd fi)) (67 # 100)
         && crossed px (xPos str) (finger_x (snd fi))
     | _ => false
     end.

(** The height of the finger that plucks [str] in this frame, if any,
    given the ledger entry [last] of the string when its turn comes. *)
Definition plucker (now : Q) (fingers : list FingerPosition)
    (prevX : list (option Q)) (prevVisible : list bool)
    (last : option Q) (str : StringConfig) : option Q :=
  if Qgtb (now - default 0 last) CONFIG.DEBOUNCE_MS
  then option_map (fun fi => finger_y (snd fi))
                  (find (crossing prevX prevVisible str) (indexed fingers))
  else None.

(** The physics entry of [str] after the bend update of a frame. *)
Definition bentPhysics (w : Q) (fingers : list FingerPosition)
    (physics : gmap nat Physics) (str : StringConfig) : Physics :=
  let p0 := default zeroPhysics (physics !! str_id str) in
  applyBend (closestBendOf w str p0 fingers) p0.

(** The events that the strings of a frame fire, each string judged by
    its entry in the ledger [t]. *)
Definition pluckEvents (now : Q) (fingers : list FingerPosition)
    (prevX : list (option Q)) (prevVisible : list bool)
    (t : gmap nat Q) (strs : list StringConfig) : list PluckEvent :=
  flat_map (fun str =>
              match plucker now fingers prevX prevVisible (t !! str_id str) str with
              | Some y => [mkPluck (str_id str) now y]
              | None => []
              end) strs.

(** The engine as the interaction step of [tick] finds it: the vision
    service and the landmark cache after the detection step. *)
Definition detected (f : Frame) (e : Engine) : Engine :=
  if cameraActiveRef e && (2 <=? readyState (video f))%nat then
    let d := detect (visionService e) (video f) (detectorOutcome f) in
    match detectReturn d with
    | Throw => withVision (vs_after d) (lastLandmarksRef e) e
    | Normal results =>
        withVision (vs_after d) (cacheAfter results (lastLandmarksRef e)) e
    end
  else e.

(** What can happen to the engine: a frame tick, the camera effect, a
    render with another string count or pitch range, the vision service
    becoming ready. *)
Inductive EngineOp :=
| OpTick (f : Frame)
| OpCamera (cameraActive : bool)
| OpStrings (count : nat) (range : PitchRange)
| OpVisionReady.

Definition applyOp (e : Engine) (op : EngineOp) : Engine :=
  match op with
  | OpTick f => engineOf (tick f e)
  | OpCamera cameraActive => setCameraActive cameraActive e
  | OpStrings count range => setStrings count range e
  | OpVisionReady => visionReady e
  end.

Definition runOps (ops : list EngineOp) (e : Engine) : Engine :=
  fold_left applyOp ops e.

(** [q] to the power [n]. *)
Fixpoint qpow (q : Q) (n : nat) : Q :=
  match n with
  | O => 1
  | S n => q * qpow q n
  end.

(** The vibration [k] rendered frames after a pluck: 0.92 to the power
    [k], until the decay stops at the 56th frame. *)
Definition decayed (k : nat) : Q := qpow (92 # 100) (Nat.min k 56).

(** The thresholds that the powers of 0.92 pass: 0.1 between the 27th
    and the 28th, 0.01 between the 55th and the 56th. *)
Definition thresholdsAt (m : nat) : bool :=
  (if (m <? 28)%nat then Qle_bool (1 # 10) (qpow (92 # 100) m)
   else Qltb (qpow (92 # 100) m) (1 # 10))
  && (if (m <? 56)%nat then Qltb (1 # 100) (qpow (92 # 100) m)
      else Qle_bool (qpow (92 # 100) m) (1 # 100)).

(** The memory of the previous frame agrees with the cached landmarks:
    every finger visible in the cache is remembered at its position. *)
Definition memorySynced (e : Engine) : Prop :=
  forall idx fg,
    (idx, fg) ∈ indexed (fingerPositions (lastLandmarksRef e)) ->
    visible fg = true ->
    prevFingerX e !! idx = Some (Some (finger_x fg)).

(** The events of a list, restricted to one string id. *)
Definition eventsOf (i : nat) (evs : list PluckEvent) : list PluckEvent :=
  filter (fun ev => stringId ev = i) evs.

(** Every vibration in the physics state lies in [0, 1]. *)
Definition vibrationBounded (physics : gmap nat Physics) : Prop :=
  forall i p, physics !! i = Some p -> 0 <= vibration p /\ vibration p <= 1.

(** The events of a finite run of the frame loop. *)
Definition eventsOfRun (frames : list Frame) (e : Engine) : list PluckEvent :=
  snd (fst (runFrames frames e)).

Definition engineAfter (frames : list Frame) (e : Engine) : Engine :=
  fst (fst (runFrames frames e)).

(** Suspended loads exist only after a request on a service with an audio
    context, and then the service's current name is the last request. *)
Definition audioInvariant (sys : AudioSystem) : Prop :=
  inFlight sys = []
  \/ (ctx (service sys) = true
      /\ lastRequested sys = Some (currentInstrumentName (service sys))).

(** ** services/audioService.ts: playing a note *)

Definition NOTE_NAMES : list string :=
  [ "C"; "C#"; "D"; "D#"; "E"; "F"; "F#"; "G"; "G#"; "A"; "A#"; "B" ]%string.

(** [s.slice(-1)]: the last character, or the empty string. *)
Definition sliceLast (s : string) : string :=
  match rev (list_ascii_of_string s) with
  | [] => EmptyString
  | c :: _ => String c EmptyString
  end.

(** [s.slice(0, -1)]: all but the last character. *)
Definition sliceInit (s : string) : string :=
  string_of_list_ascii (removelast (list_ascii_of_string s)).

(** The value of a decimal digit character. *)
Definition digitOf (c : ascii) : option nat :=
  let n := nat_of_ascii c in
  if (48 <=? n)%nat && (n <=? 57)%nat then Some (n - 48)%nat else None.

(** [parseInt] on a string of at most one character: a digit gives its
    value, anything else gives NaN ([None]). *)
Definition parseIntChar (s : string) : option nat :=
  match s with
  | String c EmptyString => digitOf c
  | _ => None
  end.

(** [notes.indexOf(noteName)], [None] for -1. *)
Fixpoint indexOf (x : string) (l : list string) : option nat :=
  match l with
  | [] => None
  | y :: rest => if String.eqb x y then Some 0%nat else option_map S (indexOf x rest)
  end.

(** The frequency [getFrequencyFromNote] returns, as the expression that
    computes it: the literal 440 of the early return, or
    [440 * Math.pow(2, (midi - 69) / 12)] for a MIDI number. As numbers
    [Hz440] and [FromMidi 69] are the same 440. *)
Inductive Frequency :=
| Hz440
| FromMidi (midi : nat).

(** [parseInt(note.slice(-1)) || 4]: NaN and 0 both give 4. *)
Definition octaveOfNote (note : string) : nat :=
  match parseIntChar (sliceLast note) with
  | Some (S d) => S d
  | _ => 4%nat
  end.

Definition getFrequencyFromNote (note : string) : Frequency :=
  let octave := octaveOfNote note in
  let noteName := sliceInit note in
  match indexOf noteName NOTE_NAMES with
  | None => Hz440
  | Some semitone => FromMidi ((octave + 1) * 12 + semitone)
  end.

(** What a call of [playNote] makes audible. *)
Inductive Sound :=
| Silent
| SamplePlayed (player : Player) (note : string)
| FallbackTone (freq : Frequency).

(** [playNote(note)]; [playThrows] tells whether [instrument.play] throws. *)
Definition playNote (a : AudioService) (note : string) (playThrows : bool) : Sound :=
  if negb (ctx a) then Silent
  else
    match instrument a with
    | Some player =>
        if playThrows then FallbackTone (getFrequencyFromNote note)
        else SamplePlayed player note
    | None => FallbackTone (getFrequencyFromNote note)
    end.

(** ** components/SkyStage.tsx: the feedback of a pluck *)

(** The note counters and the mascot state that [triggerString] and the
    500 ms interval update; [confettiBursts] counts the calls of
    [triggerConfetti] that found the canvas. *)
Record Feedback := mkFeedback {
  activeNote : option string;
  noteCountRef : nat;
  lastNoteTime : Q;
  mascotExcitement : Q;
  notesPlayedRecently : nat;
  confettiBursts : nat
}.

Definition newFeedback : Feedback :=
  {| activeNote := None; noteCountRef := 0; lastNoteTime := 0;
     mascotExcitement := 0; notesPlayedRecently := 0; confettiBursts := 0 |}.

(** [Math.min] and [Math.max] of two numbers. *)
Definition mathMin (a b : Q) : Q := if Qle_bool a b then a else b.
Definition mathMax (a b : Q) : Q := if Qle_bool a b then b else a.

(** The first half of [triggerString(str, time, _)], up to the confetti. *)
Definition triggerFeedback (strNote : string) (time : Q) (canvas : bool)
    (fb : Feedback) : Feedback :=
  let noteCount := S (noteCountRef fb) in
  let timeSinceLastNote := time - lastNoteTime fb in
  let gain := if Qltb timeSinceLastNote 500 then 2 # 10 else 1 # 10 in
  {| activeNote := Some strNote;
     noteCountRef := noteCount;
     lastNoteTime := time;
     mascotExcitement := mathMin 1 (mascotExcitement fb + gain);
     notesPlayedRecently := S (notesPlayedRecently fb);
     confettiBursts :=
       if (noteCount mod 20 =? 0)%nat && canvas
       then S (confettiBursts fb) else confettiBursts fb |}.

(** The callback of [setInterval(..., 500)]. *)
Definition decayFeedback (fb : Feedback) : Feedback :=
  {| activeNote := activeNote fb;
     noteCountRef := noteCountRef fb;
     lastNoteTime := lastNoteTime fb;
     mascotExcitement := mathMax 0 (mascotExcitement fb - (5 # 100));
     notesPlayedRecently := Nat.pred (notesPlayedRecently fb);
     confettiBursts := confettiBursts fb |}.

Inductive FeedbackOp :=
| FbPluck (strNote : string) (time : Q)
| FbInterval.

(** Plucks happen inside [tick], where the canvas exists. *)
Definition feedbackStep (fb : Feedback) (op : FeedbackOp) : Feedback :=
  match op with
  | FbPluck strNote time => triggerFeedback strNote time true fb
  | FbInterval => decayFeedback fb
  end.

Definition feedbackRun (ops : list FeedbackOp) (fb : Feedback) : Feedback :=
  fold_left feedbackStep ops fb.

Definition plucksIn (ops : list FeedbackOp) : nat :=
  length (List.filter (fun op => match op with FbPluck _ _ => true | FbInterval => false end) ops).

(** ** components/SkyStage.tsx: particles *)

Inductive ParticleShape := circle | star | heart | noteShape | sparkle.

Record Particle := mkParticle {
  p_x : Q; p_y : Q; p_vx : Q; p_vy : Q; p_life : Q;
  p_color : string; p_size : Q; p_shape : ParticleShape;
  p_rotation : Q; p_rotationSpeed : Q
}.

(** The mutation of one particle in the render loop. The decrement of
    the life is the exact decimal 0.025, where the code subtracts the
    nearest double. *)
Definition moveParticle (p : Particle) : Particle :=
  {| p_x := p_x p + p_vx p;
     p_y := p_y p + p_vy p;
     p_vx := p_vx p;
     p_vy := p_vy p + (15 # 100);
     p_life := p_life p - (25 # 1000);
     p_color := p_color p; p_size := p_size p; p_shape := p_shape p;
     p_rotation := p_rotation p + p_rotationSpeed p;
     p_rotationSpeed := p_rotationSpeed p |}.

(** [for (let i = particles.length - 1; i >= 0; i--)]: from the last
    particle to the first, move it and splice it out when its life is
    used up. *)
Definition updateParticles (particles : list Particle) : list Particle :=
  fold_right (fun p kept =>
                let p' := moveParticle p in
                if Qle_bool (p_life p') 0 then kept else p' :: kept)
             [] particles.

Record ConfettiParticle := mkConfetti {
  c_x : Q; c_y : Q; c_vx : Q; c_vy : Q; c_life : Q;
  c_color : string; c_size : Q; c_rotation : Q; c_rotationSpeed : Q
}.

Definition moveConfetti (c : ConfettiParticle) : ConfettiParticle :=
  {| c_x := c_x c + c_vx c;
     c_y := c_y c + c_vy c;
     c_vx := c_vx c * (99 # 100);
     c_vy := c_vy c + (3 # 10);
     c_life := c_life c - (1 # 100);
     c_color := c_color c; c_size := c_size c;
     c_rotation := c_rotation c + c_rotationSpeed c;
     c_rotationSpeed := c_rotationSpeed c |}.

(** The confetti loop: a piece is spliced out when its life is used up or
    it has fallen below the canvas. *)
Definition updateConfetti (height : Q) (confetti : list ConfettiParticle)
    : list ConfettiParticle :=
  fold_right (fun c kept =>
                let c' := moveConfetti c in
                if Qle_bool (c_life c') 0 || Qgtb (c_y c') height then kept
                else c' :: kept)
             [] confetti.

(** [n] frames of a loop body. *)
Fixpoint iterate {A : Type} (n : nat) (f : A -> A) (a : A) : A :=
  match n with
  | O => a
  | S n => iterate n f (f a)
  end.

(** ** The crossing test, spelled out *)

(** Finger [idx], seen at [fg] in this frame, crosses [str] as the trigger
    logic of [tick] tests it against the memory of engine [e]: the finger
    is visible, was visible in the previous frame, is in the upper 67
    percent of the frame, and its remembered position and its position
    lie on either side of the string. *)
Definition fingerCrosses (e : Engine) (str : StringConfig) (idx : nat)
    (fg : FingerPosition) : Prop :=
  visible fg = true
  /\ prevFingerVisible e !! idx = Some true
  /\ finger_y fg <= 67 # 100
  /\ exists px, prevFingerX e !! idx = Some (Some px)
               /\ ((px < xPos str /\ xPos str <= finger_x fg)
                   \/ (xPos str < px /\ finger_x fg <= xPos str)).

(** * Properties *)

(** ** Comparisons *)

Lemma Qltb_lt (a b : Q) : Qltb a b = true <-> a < b.
Proof.
  unfold Qltb. rewrite negb_true_iff. split.
  - intros H. apply Qnot_le_lt. intros Hle.
    apply Qle_bool_iff in Hle. congruence.
  - intros H. destruct (Qle_bool b a) eqn:E; [|reflexivity].
    apply Qle_bool_iff in E. exfalso. apply (Qlt_not_le _ _ H E).
Qed.

Lemma Qltb_ge (a b : Q) : Qltb a b = false <-> b <= a.
Proof.
  unfold Qltb. rewrite negb_false_iff. apply Qle_bool_iff.
Qed.

Lemma Qgtb_gt (a b : Q) : Qgtb a b = true <-> b < a.
Proof. apply Qltb_lt. Qed.

Lemma Qgtb_le (a b : Q) : Qgtb a b = false <-> a <= b.
Proof. apply Qltb_ge. Qed.

Lemma Qgeb_ge (a b : Q) : Qgeb a b = true <-> b <= a.
Proof. apply Qle_bool_iff. Qed.

Lemma Qneb_neq (a b : Q) : Qneb a b = true <-> ~ a == b.
Proof.
  unfold Qneb. rewrite negb_true_iff. split.
  - intros H E. apply Qeq_bool_iff in E. congruence.
  - intros H. destruct (Qeq_bool a b) eqn:E; [|reflexivity].
    apply Qeq_bool_iff in E. contradiction.
Qed.

Lemma Qneb_eq (a b : Q) : Qneb a b = false <-> a == b.
Proof.
  unfold Qneb. rewrite negb_false_iff. apply Qeq_bool_iff.
Qed.

(** ** The string layout *)

Section Layout.

Variable count : nat.
Variable range : PitchRange.

Lemma generateStringConfigs_length :
  length (generateStringConfigs count range) = count.
Proof.
  unfold generateStringConfigs. rewrite length_map. apply length_seq.
Qed.

Lemma generateStringConfigs_lookup (i : nat) :
  (i < count)%nat ->
  generateStringConfigs count range !! i
  = Some (stringConfigAt count (octaveStartOf range) i).
Proof.
  intros Hi. unfold generateStringConfigs.
  rewrite list_lookup_fmap, lookup_seq_lt by exact Hi. reflexivity.
Qed.

Lemma generateStringConfigs_lookup_inv (i : nat) (c : StringConfig) :
  generateStringConfigs count range !! i = Some c ->
  (i < count)%nat /\ c = stringConfigAt count (octaveStartOf range) i.
Proof.
  intros H. assert (Hi : (i < count)%nat).
  { apply lookup_lt_Some in H. rewrite generateStringConfigs_length in H. exact H. }
  split; [exact Hi|]. rewrite generateStringConfigs_lookup in H by exact Hi.
  congruence.
Qed.

Lemma generateStringConfigs_ids :
  map str_id (generateStringConfigs count range) = seq 0 count.
Proof.
  unfold generateStringConfigs. rewrite map_map. simpl. apply map_id.
Qed.

End Layout.

Lemma inject_nat_pos (n : nat) : 0 < inject_Z (Z.of_nat (n + 1)).
Proof.
  replace 0 with (inject_Z 0) by reflexivity. rewrite <- Zlt_Qlt. lia.
Qed.

Lemma xPos_at (count o i : nat) :
  xPos (stringConfigAt count o i)
  = inject_Z (Z.of_nat (i + 1)) / inject_Z (Z.of_nat (count + 1)).
Proof. reflexivity. Qed.

Lemma xPos_positive (count o i : nat) : 0 < xPos (stringConfigAt count o i).
Proof.
  rewrite xPos_at. apply Qlt_shift_div_l; [apply inject_nat_pos|].
  rewrite Qmult_0_l. apply inject_nat_pos.
Qed.

Lemma xPos_below_one (count o i : nat) :
  (i < count)%nat -> xPos (stringConfigAt count o i) < 1.
Proof.
  intros Hi. rewrite xPos_at. apply Qlt_shift_div_r; [apply inject_nat_pos|].
  rewrite Qmult_1_l. rewrite <- Zlt_Qlt. lia.
Qed.

Lemma xPos_increasing (count o i j : nat) :
  (i < j)%nat ->
  xPos (stringConfigAt count o i) < xPos (stringConfigAt count o j).
Proof.
  intros Hij. rewrite !xPos_at. unfold Qdiv.
  apply Qmult_lt_compat_r.
  - apply Qinv_lt_0_compat, inject_nat_pos.
  - rewrite <- Zlt_Qlt. lia.
Qed.

(** C6. For every string count N and pitch range, [generateStringConfigs]
    returns exactly N descriptors; the i-th has id i and sits at
    (i+1)/(N+1), strictly inside (0,1); positions increase strictly in id
    order; and equal inputs give equal output. *)
Theorem generateStringConfigs_layout (N : nat) (range : PitchRange) :
  length (generateStringConfigs N range) = N
  /\ (forall i, (i < N)%nat ->
        exists c, generateStringConfigs N range !! i = Some c
                  /\ str_id c = i
                  /\ xPos c == inject_Z (Z.of_nat i + 1) / inject_Z (Z.of_nat N + 1)
                  /\ 0 < xPos c /\ xPos c < 1)
  /\ (forall i j ci cj,
        generateStringConfigs N range !! i = Some ci ->
        generateStringConfigs N range !! j = Some cj ->
        (str_id ci < str_id cj)%nat -> xPos ci < xPos cj)
  /\ (forall N' range', N' = N -> range' = range ->
        generateStringConfigs N' range' = generateStringConfigs N range).
Proof.
  split; [apply generateStringConfigs_length|].
  split; [|split].
  - intros i Hi. eexists. split; [apply generateStringConfigs_lookup, Hi|].
    split; [reflexivity|]. split; [|split].
    + rewrite xPos_at. rewrite !Nat2Z.inj_add. reflexivity.
    + apply xPos_positive.
    + apply xPos_below_one, Hi.
  - intros i j ci cj Hci Hcj Hlt.
    apply generateStringConfigs_lookup_inv in Hci as [_ ->].
    apply generateStringConfigs_lookup_inv in Hcj as [_ ->].
    apply xPos_increasing. exact Hlt.
  - intros N' range' -> ->. reflexivity.
Qed.

(** ** The hand-tracking adapter *)

Lemma detect_uninitialized (vs : VisionService) (v : Video)
    (o : Completion HandLandmarkerResult) :
  handLandmarker vs = false ->
  detect vs v o
  = {| vs_after := vs; detectorInvoked := false; detectReturn := Normal None |}.
Proof. intros H. unfold detect. rewrite H. reflexivity. Qed.

Lemma detect_keeps_landmarker (vs : VisionService) (v : Video)
    (o : Completion HandLandmarkerResult) :
  handLandmarker (vs_after (detect vs v o)) = handLandmarker vs.
Proof.
  destruct vs as [ready t]. unfold detect. simpl.
  destruct ready; simpl; [|reflexivity].
  destruct (Qneb _ _); reflexivity.
Qed.

(** After a call on an initialized service, the recorded frame identity
    is that of the call. *)
Lemma detect_records_identity (vs : VisionService) (v : Video)
    (o : Completion HandLandmarkerResult) :
  handLandmarker vs = true ->
  lastVideoTime (vs_after (detect vs v o)) == currentTime v.
Proof.
  intros H. unfold detect. rewrite H. simpl.
  destruct (Qneb (currentTime v) (lastVideoTime vs)) eqn:E; simpl.
  - reflexivity.
  - apply Qneb_eq in E. symmetry. exact E.
Qed.

(** C7, as stated, fails on a service whose detector is not initialized.
    A call with a frame identity different from that of the previous call
    returns none and does not invoke the detector; and since such a call
    does not record the identity, the first call after the initialization
    invokes the detector even when its identity equals that of the
    previous call. *)
Lemma detect_uninitialized_counterexample :
  let first := detect newVisionService (mkVideo 0 4) (Normal (mkResult [])) in
  let second := detect (vs_after first) (mkVideo 1 4)
                       (Normal (mkResult [handWithTip (1 # 2) (3 # 10)])) in
  let third := detect {| handLandmarker := true;
                         lastVideoTime := lastVideoTime (vs_after second) |}
                      (mkVideo 1 4)
                      (Normal (mkResult [handWithTip (1 # 2) (3 # 10)])) in
  (~ currentTime (mkVideo 1 4) == currentTime (mkVideo 0 4)
   /\ detectorInvoked second = false
   /\ detectReturn second = Normal None)
  /\ (initialize true (vs_after second)
      = Normal {| handLandmarker := true;
                  lastVideoTime := lastVideoTime (vs_after second) |}
      /\ currentTime (mkVideo 1 4) == currentTime (mkVideo 1 4)
      /\ detectorInvoked third = true
      /\ detectReturn third
         = Normal (Some (mkResult [handWithTip (1 # 2) (3 # 10)]))).
Proof.
  cbv zeta. split.
  - split; [|split; reflexivity]. intros H. discriminate H.
  - split; [reflexivity|]. split; [reflexivity|]. split; reflexivity.
Qed.

(** C7, amended. When the detector was already initialized at the previous
    call, a call whose frame identity equals that of the previous call
    returns none without invoking the detector, and a call whose identity
    differs invokes the detector and returns what it returns (or throws
    what it throws). While the detector is not initialized, a call returns
    none, does not invoke the detector and leaves the adapter as it was:
    the frame identity is not recorded, so the first call after the
    initialization is compared with the identity recorded before, not
    with that of the uninitialized call. *)
Theorem detect_dedup (vs : VisionService) (v1 v2 : Video)
    (o1 o2 : Completion HandLandmarkerResult) :
  let previous := detect vs v1 o1 in
  let this := detect (vs_after previous) v2 o2 in
  (handLandmarker vs = true ->
     (currentTime v2 == currentTime v1 ->
        detectorInvoked this = false /\ detectReturn this = Normal None)
     /\ (~ currentTime v2 == currentTime v1 ->
        detectorInvoked this = true
        /\ detectReturn this = match o2 with
                               | Normal r => Normal (Some r)
                               | Throw => Throw
                               end))
  /\ (handLandmarker vs = false ->
        detectorInvoked previous = false
        /\ detectReturn previous = Normal None
        /\ vs_after previous = vs
        /\ (detectorInvoked this = false /\ detectReturn this = Normal None)
        /\ forall ready,
             initialize true (vs_after previous) = Normal ready ->
             ~ currentTime v2 == lastVideoTime vs ->
             detectorInvoked (detect ready v2 o2) = true
             /\ detectReturn (detect ready v2 o2)
                = match o2 with
                  | Normal r => Normal (Some r)
                  | Throw => Throw
                  end).
Proof.
  intros previous this. split.
  - intros Hready.
    pose proof (detect_records_identity vs v1 o1 Hready) as Hrec.
    pose proof (detect_keeps_landmarker vs v1 o1) as Hkeep.
    fold previous in Hrec, Hkeep. rewrite Hready in Hkeep.
    subst this. split.
    + intros Hsame.
      assert (E : Qneb (currentTime v2) (lastVideoTime (vs_after previous)) = false).
      { apply Qneb_eq. rewrite Hrec. exact Hsame. }
      unfold detect. rewrite Hkeep, E. simpl. split; reflexivity.
    + intros Hdiff.
      assert (E : Qneb (currentTime v2) (lastVideoTime (vs_after previous)) = true).
      { apply Qneb_neq. rewrite Hrec. exact Hdiff. }
      unfold detect. rewrite Hkeep, E. simpl. split; reflexivity.
  - intros Hnot.
    assert (Hprev : previous
                    = {| vs_after := vs; detectorInvoked := false;
                         detectReturn := Normal None |})
      by (apply detect_uninitialized; exact Hnot).
    assert (Hthis : this
                    = {| vs_after := vs; detectorInvoked := false;
                         detectReturn := Normal None |}).
    { subst this. rewrite Hprev. cbn [vs_after].
      apply detect_uninitialized. exact Hnot. }
    rewrite Hprev, Hthis. cbn [vs_after detectorInvoked detectReturn].
    split; [reflexivity|]. split; [reflexivity|]. split; [reflexivity|].
    split; [split; reflexivity|].
    intros ready Hinit Hdiff.
    cbn [initialize] in Hinit. injection Hinit as <-.
    unfold detect. cbn [handLandmarker lastVideoTime negb].
    rewrite (proj2 (Qneb_neq _ _) Hdiff). split; reflexivity.
Qed.

(** The same frame twice on an initialized adapter; and a frame seen
    before the initialization, then again after it. *)
Lemma detect_dedup_witness :
  (let vs := {| handLandmarker := true; lastVideoTime := -1 |} in
   let previous := detect vs (mkVideo 0 4) (Normal (mkResult [])) in
   let this := detect (vs_after previous) (mkVideo 0 4) (Normal (mkResult [])) in
   detectorInvoked this = false /\ detectReturn this = Normal None)
  /\ (let previous := detect newVisionService (mkVideo 0 4) (Normal (mkResult [])) in
      let ready := {| handLandmarker := true; lastVideoTime := -1 |} in
      vs_after previous = newVisionService
      /\ detectorInvoked (detect ready (mkVideo 0 4) (Normal (mkResult []))) = true).
Proof.
  split.
  - intros vs previous this.
    destruct (detect_dedup vs (mkVideo 0 4) (mkVideo 0 4)
                (Normal (mkResult [])) (Normal (mkResult []))) as [Hinit _].
    destruct (Hinit eq_refl) as [Hsame _].
    apply Hsame. reflexivity.
  - intros previous ready.
    destruct (detect_dedup newVisionService (mkVideo 0 4) (mkVideo 0 4)
                (Normal (mkResult [])) (Normal (mkResult []))) as [_ Hnot].
    destruct (Hnot eq_refl) as (_ & _ & Hkept & _ & Hafter).
    split; [exact Hkept|].
    apply (Hafter ready).
    + reflexivity.
    + intros H. discriminate H.
Defined.

(** ** Detection failures and the frame tick *)

Lemma interact_completes (f : Frame) (e : Engine) :
  exists e' evs, interact f e = Completed e' evs
                 /\ lastLandmarksRef e' = lastLandmarksRef e
                 /\ stringsRef e' = stringsRef e.
Proof. unfold interact. eexists. eexists. split; [reflexivity|]. split; reflexivity. Qed.

(** C8, as stated, fails: with the detector initialized and the camera
    running, a frame on which the underlying detector throws makes [tick]
    end by that exception, and the frame loop is no longer scheduled. *)
Lemma tick_detector_throws_counterexample :
  let e := startedEngine (generateStringConfigs 12 MID) in
  let f := {| canvasReady := true; width := 1000; video := mkVideo 0 4;
              now := 1000; detectorOutcome := Throw |} in
  (exists e', tick f e = Thrown e')
  /\ snd (runFrames [f; fingerFrame 1000 (1 # 30) 1016 (1 # 2) (3 # 10)] e) = false.
Proof.
  split.
  - eexists. vm_compute. reflexivity.
  - vm_compute. reflexivity.
Qed.

(** C8, amended. When the detector is not initialized, [detect] returns
    none and the tick runs to its end with the cached landmarks unchanged
    (given that the cached first hand, if any, has its fingertip
    landmark). When the initialized detector is invoked and throws, the
    exception is caught neither by [detect] nor by [tick]: the tick ends
    by it and no further frame runs. *)
Theorem tick_detection_unavailable (f : Frame) (e : Engine) :
  canvasReady f = true ->
  (handLandmarker (visionService e) = false ->
   cursorReadable (lastLandmarksRef e) = true ->
   exists e' evs, tick f e = Completed e' evs
                  /\ lastLandmarksRef e' = lastLandmarksRef e)
  /\ (handLandmarker (visionService e) = true ->
      cameraActiveRef e = true ->
      (2 <= readyState (video f))%nat ->
      ~ currentTime (video f) == lastVideoTime (visionService e) ->
      detectorOutcome f = Throw ->
      exists e', tick f e = Thrown e'
                 /\ forall rest, runFrames (f :: rest) e = (e', [], false)).
Proof.
  intros Hcanvas. split.
  - intros Hnull Hcursor. unfold tick. rewrite Hcanvas. cbn [negb].
    destruct (cameraActiveRef e && (2 <=? readyState (video f))%nat).
    + rewrite detect_uninitialized by exact Hnull.
      cbn [detectReturn vs_after cacheAfter]. rewrite Hcursor.
      destruct (interact_completes f (withVision (visionService e) (lastLandmarksRef e) e))
        as (e' & evs & -> & Hc & _).
      exists e', evs. split; [reflexivity|exact Hc].
    + destruct (interact_completes f e) as (e' & evs & -> & Hc & _).
      exists e', evs. split; [reflexivity|exact Hc].
  - intros Hready Hcam Hrs Hnew Hthrow.
    assert (Ht : exists e', tick f e = Thrown e').
    { unfold tick. rewrite Hcanvas, Hcam. cbn [negb andb].
      apply Nat.leb_le in Hrs. rewrite Hrs.
      unfold detect. rewrite Hready. cbn [negb].
      apply Qneb_neq in Hnew. rewrite Hnew, Hthrow.
      cbn [detectReturn]. eexists. reflexivity. }
    destruct Ht as [e' Ht]. exists e'. split; [exact Ht|].
    intros rest. simpl. rewrite Ht. reflexivity.
Qed.

Lemma tick_detection_unavailable_witness :
  let e := setCameraActive true (newEngine (generateStringConfigs 12 MID)) in
  let f := fingerFrame 1000 0 1000 (1 # 2) (3 # 10) in
  exists e' evs, tick f e = Completed e' evs
                 /\ lastLandmarksRef e' = lastLandmarksRef e.
Proof.
  intros e f.
  apply (tick_detection_unavailable f e); reflexivity.
Defined.

(** ** Loading instruments *)


Lemma audioInvariant_init (hasContext : bool) :
  audioInvariant (newAudioSystem hasContext).
Proof. left. reflexivity. Qed.

Lemma loadInstrument_call_name (name : InstrumentName) (a : AudioService) :
  ctx a = true ->
  ctx (fst (loadInstrument_call name a)) = true
  /\ currentInstrumentName (fst (loadInstrument_call name a)) = name.
Proof.
  intros Hctx. unfold loadInstrument_call. rewrite Hctx. simpl.
  destruct (bool_decide (currentInstrumentName a = name)) eqn:E; simpl.
  - apply bool_decide_eq_true in E.
    destruct (bool_decide (is_Some (instrument a))); simpl; auto.
  - auto.
Qed.

Lemma loadInstrument_call_no_context (name : InstrumentName) (a : AudioService) :
  ctx a = false -> loadInstrument_call name a = (a, Returned).
Proof. intros H. unfold loadInstrument_call. rewrite H. reflexivity. Qed.

Lemma loadInstrument_resume_keeps (loadingName : InstrumentName)
    (settled : option Player) (a : AudioService) :
  ctx (loadInstrument_resume loadingName settled a) = ctx a
  /\ currentInstrumentName (loadInstrument_resume loadingName settled a)
     = currentInstrumentName a.
Proof.
  unfold loadInstrument_resume. destruct settled; [|auto].
  destruct (decide _); auto.
Qed.

Lemma audioInvariant_step (sys : AudioSystem) (ev : AudioEvent) :
  audioInvariant sys -> audioInvariant (audioStep sys ev).
Proof.
  intros Hinv. destruct ev as [name | k loaded]; simpl.
  - destruct (ctx (service sys)) eqn:Hctx.
    + right. simpl.
      destruct (loadInstrument_call_name name (service sys) Hctx) as [H1 H2].
      rewrite H1, H2. auto.
    + destruct Hinv as [Hnil | [Hc _]]; [|congruence].
      left. simpl. rewrite loadInstrument_call_no_context by exact Hctx.
      exact Hnil.
  - destruct (inFlight sys !! k) as [[n loadingName]|] eqn:Hk; [|exact Hinv].
    destruct Hinv as [Hnil | [Hc Hlast]].
    + rewrite Hnil in Hk. discriminate Hk.
    + right. simpl.
      destruct (loadInstrument_resume_keeps loadingName
                  (if loaded then Some {| playerFont := loadingName; playerLoad := n |}
                   else None) (service sys)) as [H1 H2].
      rewrite H1, H2. auto.
Qed.

Lemma audioInvariant_run (evs : list AudioEvent) (sys : AudioSystem) :
  audioInvariant sys -> audioInvariant (audioRun evs sys).
Proof.
  revert sys. induction evs as [|ev evs IH]; intros sys Hinv; [exact Hinv|].
  simpl. apply IH, audioInvariant_step, Hinv.
Qed.

(** A call of [loadInstrument] leaves the active player and the loads
    already suspended as they are, and records the request. *)
Lemma audioStep_CallLoad (sys : AudioSystem) (name : InstrumentName)
    (k n : nat) (loadingName : InstrumentName) :
  inFlight sys !! k = Some (n, loadingName) ->
  instrument (service (audioStep sys (CallLoad name))) = instrument (service sys)
  /\ inFlight (audioStep sys (CallLoad name)) !! k = Some (n, loadingName)
  /\ lastRequested (audioStep sys (CallLoad name)) = Some name.
Proof.
  intros Hk. cbn [audioStep service inFlight lastRequested].
  unfold loadInstrument_call.
  destruct (negb (ctx (service sys))); cbn [fst snd]; [auto|].
  destruct (_ && _); cbn [fst snd instrument]; [auto|].
  split; [reflexivity|]. split; [|reflexivity].
  apply lookup_app_l_Some. exact Hk.
Qed.

(** What the settling of a suspended load does to the active player, in
    a state reached by a run of the service. *)
Lemma settle_reachable (hasContext : bool) (evs : list AudioEvent)
    (k n : nat) (loadingName : InstrumentName) (loaded : bool) :
  let sys := audioRun evs (newAudioSystem hasContext) in
  inFlight sys !! k = Some (n, loadingName) ->
  instrument (service (audioStep sys (Settle k loaded)))
  = if loaded && bool_decide (lastRequested sys = Some loadingName)
    then Some {| playerFont := loadingName; playerLoad := n |}
    else instrument (service sys).
Proof.
  intros sys Hk.
  assert (Hinv : audioInvariant sys) by apply audioInvariant_run, audioInvariant_init.
  cbn [audioStep]. rewrite Hk. cbn [service].
  destruct Hinv as [Hnil | [_ Hlast]].
  - rewrite Hnil in Hk. discriminate Hk.
  - unfold loadInstrument_resume. destruct loaded; cbn [andb]; [|reflexivity].
    rewrite Hlast.
    destruct (decide (currentInstrumentName (service sys) = loadingName)) as [E|E].
    + rewrite bool_decide_eq_true_2 by congruence. reflexivity.
    + rewrite bool_decide_eq_false_2 by congruence. reflexivity.
Qed.

(** C9, as stated, fails: [loadInstrument(marimba)], then
    [loadInstrument(violin)] before the first load completes, then
    [loadInstrument(marimba)] again. The first load, superseded by the
    request for the violin, is still suspended; when it completes, its
    player is installed. *)
Lemma superseded_load_installed_counterexample :
  let requested := audioRun [CallLoad marimba; CallLoad violin] (newAudioSystem true) in
  let sys := audioStep requested (CallLoad marimba) in
  inFlight requested !! 0%nat = Some (0%nat, marimba)
  /\ lastRequested requested = Some violin
  /\ inFlight sys !! 0%nat = Some (0%nat, marimba)
  /\ instrument (service sys) = None
  /\ instrument (service (audioStep sys (Settle 0 true)))
     = Some {| playerFont := marimba; playerLoad := 0 |}.
Proof. repeat split. Qed.

(** C9, amended. In every run of the audio service, what the completion
    of a suspended load does is decided by the name of the most recent
    request alone. When the name of the load is not the most recently
    requested one, the completion is discarded: the active player is left
    as it was; in particular a load of [a] that completes right after a
    request for another instrument [b] is discarded. When the name of the
    load is the most recently requested one, also by a later request for
    the same instrument, a successful completion installs its player. *)
Theorem superseded_load_discarded (hasContext : bool) (evs : list AudioEvent)
    (k n : nat) (loadingName : InstrumentName) :
  let sys := audioRun evs (newAudioSystem hasContext) in
  inFlight sys !! k = Some (n, loadingName) ->
  (forall loaded,
      lastRequested sys <> Some loadingName ->
      instrument (service (audioStep sys (Settle k loaded))) = instrument (service sys))
  /\ (forall b loaded,
        b <> loadingName ->
        instrument (service (audioStep (audioStep sys (CallLoad b)) (Settle k loaded)))
        = instrument (service sys))
  /\ (lastRequested sys = Some loadingName ->
      instrument (service (audioStep sys (Settle k true)))
      = Some {| playerFont := loadingName; playerLoad := n |}).
Proof.
  intros sys Hk. split; [|split].
  - intros loaded Hsuperseded.
    unfold sys. rewrite (settle_reachable hasContext evs k n loadingName loaded Hk).
    fold sys. rewrite bool_decide_eq_false_2 by exact Hsuperseded.
    rewrite andb_false_r. reflexivity.
  - intros b loaded Hb.
    destruct (audioStep_CallLoad sys b k n loadingName Hk) as (Hsame & Hk' & Hlast).
    change (audioStep sys (CallLoad b))
      with (audioRun [CallLoad b] sys) in Hsame, Hk', Hlast |- *.
    unfold sys in Hsame, Hk', Hlast |- *. unfold audioRun in Hsame, Hk', Hlast |- *.
    rewrite <- fold_left_app in Hsame, Hk', Hlast |- *.
    fold (audioRun (evs ++ [CallLoad b]) (newAudioSystem hasContext))
      in Hsame, Hk', Hlast |- *.
    rewrite (settle_reachable hasContext (evs ++ [CallLoad b]) k n loadingName loaded Hk').
    rewrite Hlast, bool_decide_eq_false_2 by congruence.
    rewrite andb_false_r. exact Hsame.
  - intros Hlast.
    unfold sys. rewrite (settle_reachable hasContext evs k n loadingName true Hk).
    fold sys. rewrite bool_decide_eq_true_2 by exact Hlast. reflexivity.
Qed.

(** [loadInstrument(marimba)], then [loadInstrument(violin)] before the
    first load completes, then the first load completes. *)
Lemma superseded_load_discarded_witness :
  let sys := audioRun [CallLoad marimba; CallLoad violin] (newAudioSystem true) in
  instrument (service (audioStep sys (Settle 0 true))) = instrument (service sys)
  /\ instrument (service (audioStep (audioStep sys (CallLoad celesta)) (Settle 0 true)))
     = instrument (service sys).
Proof.
  intros sys.
  destruct (superseded_load_discarded true [CallLoad marimba; CallLoad violin]
              0 0 marimba eq_refl) as (Hdiscard & Hswitch & _).
  split.
  - apply Hdiscard. discriminate.
  - apply Hswitch. discriminate.
Defined.

(** ** The bend of a string *)

Lemma pullFactorOf_abs (d : Q) : pullFactorOf d == 1 - Qabs d * (100 # 8).
Proof. unfold pullFactorOf, reachThreshold. field. Qed.

#[global] Instance pullFactorOf_wd : Proper (Qeq ==> Qeq) pullFactorOf.
Proof. intros d d' E. rewrite !pullFactorOf_abs, E. reflexivity. Qed.

#[global] Instance bendOf_wd : Proper (Qeq ==> Qeq ==> Qeq) bendOf.
Proof. intros w w' Ew d d' Ed. unfold bendOf. rewrite Ew, Ed. reflexivity. Qed.

Lemma Qsquare_nonneg (x : Q) : 0 <= x * x.
Proof.
  destruct (Qlt_le_dec x 0) as [Hneg|Hpos].
  - assert (E : x * x == (- x) * (- x)) by ring. rewrite E.
    apply Qmult_le_0_compat; lra.
  - apply Qmult_le_0_compat; exact Hpos.
Qed.

Lemma bendOf_zero (w d : Q) : d == 0 -> bendOf w d == 0.
Proof. intros E. rewrite E. unfold bendOf. ring. Qed.

Lemma bendOf_half_reach (w : Q) : bendOf w (4 # 100) == (16 # 1000) * w.
Proof.
  unfold bendOf. rewrite pullFactorOf_abs.
  rewrite (Qabs_pos (4 # 100)) by (unfold Qle; simpl; lia). field.
Qed.

(** Within reach the candidate bend is at most the one at half the reach. *)
Lemma bendOf_bounded (w d : Q) :
  0 <= w -> Qabs d < reachThreshold -> Qabs (bendOf w d) <= bendOf w (4 # 100).
Proof.
  intros Hw Hd. rewrite bendOf_half_reach.
  unfold bendOf. rewrite !Qabs_Qmult, pullFactorOf_abs.
  pose proof (Qabs_nonneg d) as Ha. unfold reachThreshold in Hd.
  set (a := Qabs d) in *. clearbody a.
  rewrite (Qabs_pos w) by exact Hw.
  rewrite (Qabs_pos (8 # 10)) by (unfold Qle; simpl; lia).
  rewrite (Qabs_pos (1 - a * (100 # 8))) by lra.
  assert (Hsq : 0 <= w * ((a - (4 # 100)) * (a - (4 # 100)))).
  { apply Qmult_le_0_compat; [exact Hw|apply Qsquare_nonneg]. }
  apply Qle_minus_iff.
  assert (E : (16 # 1000) * w + - (a * w * (1 - a * (100 # 8)) * (8 # 10))
              == 10 * (w * ((a - (4 # 100)) * (a - (4 # 100))))) by ring.
  rewrite E.
  apply Qmult_le_0_compat; [unfold Qle; simpl; lia|exact Hsq].
Qed.

Lemma bendStep_no_change_when_zero (w : Q) (str : StringConfig) (physics : Physics)
    (closest : Q) (finger : FingerPosition) :
  finger_x finger - xPos str == 0 ->
  bendStep w str physics closest finger = closest.
Proof.
  intros Hd. unfold bendStep.
  destruct (visible finger); [|reflexivity]. cbn [negb].
  destruct (_ && _); [|reflexivity].
  assert (E : Qgtb (Qabs (bendOf w (finger_x finger - xPos str))) (Qabs closest) = false).
  { apply Qgtb_le. rewrite (bendOf_zero w _ Hd). apply Qabs_nonneg. }
  rewrite E. reflexivity.
Qed.

Lemma bendStep_out_of_reach (w : Q) (str : StringConfig) (physics : Physics)
    (closest : Q) (finger : FingerPosition) :
  reachThreshold <= Qabs (finger_x finger - xPos str) ->
  bendStep w str physics closest finger = closest.
Proof.
  intros Hd. unfold bendStep.
  destruct (visible finger); [|reflexivity]. cbn [negb].
  apply Qltb_ge in Hd. rewrite Hd. reflexivity.
Qed.

(** C4, as stated, fails: for a string at rest at x = 1/2 on a canvas 1000
    wide, a finger exactly on the string has pull factor 1 but bends the
    string by 0, while a finger 0.04 beside it bends it by 16. *)
Lemma bend_at_string_counterexample :
  let str := stringConfigAt 1 4 0 in
  let physics := {| vibration := 0; bend := 0 |} in
  let onString := {| finger_x := 1 # 2; finger_y := 3 # 10; visible := true |} in
  let beside := {| finger_x := 54 # 100; finger_y := 3 # 10; visible := true |} in
  finger_x onString - xPos str == 0
  /\ pullFactorOf (finger_x onString - xPos str) == 1
  /\ closestBendOf 1000 str physics [onString] == 0
  /\ closestBendOf 1000 str physics [beside] == 16
  /\ Qabs (closestBendOf 1000 str physics [onString])
     < Qabs (closestBendOf 1000 str physics [beside]).
Proof. vm_compute. repeat split; reflexivity. Qed.

(** C4, amended. A finger exactly on the string has pull factor 1, but
    its candidate bend is 0 and it leaves the closest bend as it was; a
    finger at distance at least [reachThreshold] leaves it as it was too;
    and within reach the candidate bend has magnitude at most 0.016 times
    the width, the value at distance 0.04 (half the reach). *)
Theorem bend_contribution (w : Q) (str : StringConfig) (physics : Physics)
    (closest : Q) (finger : FingerPosition) :
  let d := finger_x finger - xPos str in
  (d == 0 ->
     pullFactorOf d == 1 /\ bendOf w d == 0
     /\ bendStep w str physics closest finger = closest)
  /\ (reachThreshold <= Qabs d ->
        bendStep w str physics closest finger = closest)
  /\ (0 <= w -> Qabs d < reachThreshold ->
        Qabs (bendOf w d) <= bendOf w (4 # 100)
        /\ bendOf w (4 # 100) == (16 # 1000) * w).
Proof.
  intros d. split; [|split].
  - intros Hd. split; [|split].
    + rewrite Hd. reflexivity.
    + apply bendOf_zero, Hd.
    + apply bendStep_no_change_when_zero, Hd.
  - apply bendStep_out_of_reach.
  - intros Hw Hd. split; [apply bendOf_bounded; assumption|apply bendOf_half_reach].
Qed.

(** ** One string in one frame *)

Lemma debounceOpen_lookup (t t' : gmap nat Q) (i : nat) (now : Q) :
  t !! i = t' !! i -> debounceOpen t i now = debounceOpen t' i now.
Proof. intros E. unfold debounceOpen. rewrite E. reflexivity. Qed.

Lemma debounceOpen_just_triggered (t : gmap nat Q) (i : nat) (now : Q) :
  debounceOpen (<[i := now]> t) i now = false.
Proof.
  unfold debounceOpen. rewrite lookup_insert_eq. simpl.
  apply Qgtb_le. unfold CONFIG.DEBOUNCE_MS. lra.
Qed.

(** A string within its debounce window: the time since its last trigger
    is at most [DEBOUNCE_MS]. *)
Lemma debounceOpen_false (t : gmap nat Q) (i : nat) (now : Q) :
  debounceOpen t i now = false
  <-> now - default 0 (t !! i) <= CONFIG.DEBOUNCE_MS.
Proof. unfold debounceOpen. apply Qgtb_le. Qed.

Section StringLoop.

Variables (w now : Q) (fingers : list FingerPosition).
Variables (prevX : list (option Q)) (prevVisible : list bool).

Lemma triggerStep_eq (str : StringConfig) (s : LoopState) (fi : nat * FingerPosition) :
  triggerStep prevX prevVisible now str s fi
  = if crossing prevX prevVisible str fi
       && debounceOpen (ls_triggers s) (str_id str) now
    then snapBend str (triggerString str now (finger_y (snd fi)) s)
    else s.
Proof.
  unfold triggerStep, crossing. destruct fi as [idx fg]. cbn [fst snd].
  destruct (visible fg); cbn [negb andb]; [|reflexivity].
  destruct (prevX !! idx) as [[px|]|]; try reflexivity.
  destruct (default false (prevVisible !! idx) && Qle_bool (finger_y fg) (67 # 100));
    cbn [andb]; [|reflexivity].
  destruct (crossed px (xPos str) (finger_x fg)); reflexivity.
Qed.

(** Once a finger has plucked the string, no later finger of the same
    frame plucks it again; so the loop over the fingers plucks at most
    once, by the first finger that crosses. *)
Lemma triggerFold_eq (str : StringConfig) (fis : list (nat * FingerPosition))
    (s : LoopState) :
  fold_left (triggerStep prevX prevVisible now str) fis s
  = if debounceOpen (ls_triggers s) (str_id str) now then
      match find (crossing prevX prevVisible str) fis with
      | Some fi => snapBend str (triggerString str now (finger_y (snd fi)) s)
      | None => s
      end
    else s.
Proof.
  revert s. induction fis as [|fi fis IH]; intros s.
  - simpl. destruct (debounceOpen _ _ _); reflexivity.
  - cbn [fold_left find]. rewrite triggerStep_eq, IH.
    destruct (crossing prevX prevVisible str fi); cbn [andb].
    + destruct (debounceOpen (ls_triggers s) (str_id str) now) eqn:Hopen.
      * cbn [snapBend triggerString ls_triggers].
        rewrite debounceOpen_just_triggered. reflexivity.
      * rewrite Hopen. reflexivity.
    + reflexivity.
Qed.

Lemma processString_eq (s : LoopState) (str : StringConfig) :
  processString w now fingers prevX prevVisible s str
  = match plucker now fingers prevX prevVisible (ls_triggers s !! str_id str) str with
    | Some y =>
        {| ls_physics := <[str_id str := {| vibration := 1; bend := 0 |}]> (ls_physics s);
           ls_triggers := <[str_id str := now]> (ls_triggers s);
           ls_events := ls_events s ++ [mkPluck (str_id str) now y] |}
    | None =>
        {| ls_physics :=
             <[str_id str := bentPhysics w fingers (ls_physics s) str]> (ls_physics s);
           ls_triggers := ls_triggers s;
           ls_events := ls_events s |}
    end.
Proof.
  unfold processString. rewrite triggerFold_eq. cbn [ls_triggers].
  unfold plucker, bentPhysics. fold (debounceOpen (ls_triggers s) (str_id str) now).
  set (i := str_id str).
  assert (Hinit : forall p,
    <[i := p]> (match ls_physics s !! i with
                | Some _ => ls_physics s
                | None => <[i := {| vibration := 0; bend := 0 |}]> (ls_physics s)
                end) = <[i := p]> (ls_physics s)).
  { intros p. destruct (ls_physics s !! i); [reflexivity|apply insert_insert_eq]. }
  assert (Hp0 : default {| vibration := 0; bend := 0 |}
                  (match ls_physics s !! i with
                   | Some _ => ls_physics s
                   | None => <[i := {| vibration := 0; bend := 0 |}]> (ls_physics s)
                   end !! i)
                = default zeroPhysics (ls_physics s !! i)).
  { destruct (ls_physics s !! i) eqn:E; [rewrite E; reflexivity|].
    rewrite lookup_insert_eq. reflexivity. }
  rewrite Hp0, Hinit.
  destruct (debounceOpen (ls_triggers s) i now); [|reflexivity].
  destruct (find (crossing prevX prevVisible str) (indexed fingers)) as [fi|];
    [|reflexivity].
  cbn [option_map]. unfold snapBend, triggerString. cbn [ls_physics ls_triggers ls_events].
  fold i. rewrite !alter_insert_eq. reflexivity.
Qed.

End StringLoop.

(** ** All the strings in one frame *)

Section FrameLoop.

Variables (w now : Q) (fingers : list FingerPosition).
Variables (prevX : list (option Q)) (prevVisible : list bool).

Let step := processString w now fingers prevX prevVisible.

Lemma processString_other (s : LoopState) (str : StringConfig) (j : nat) :
  j <> str_id str ->
  ls_physics (step s str) !! j = ls_physics s !! j
  /\ ls_triggers (step s str) !! j = ls_triggers s !! j.
Proof.
  intros Hj. unfold step. rewrite processString_eq.
  destruct (plucker _ _ _ _ _ _); cbn [ls_physics ls_triggers];
    rewrite ?lookup_insert_ne by congruence; split; reflexivity.
Qed.

Lemma stringLoop_outside (strs : list StringConfig) (s : LoopState) (j : nat) :
  j ∉ map str_id strs ->
  ls_physics (fold_left step strs s) !! j = ls_physics s !! j
  /\ ls_triggers (fold_left step strs s) !! j = ls_triggers s !! j.
Proof.
  revert s. induction strs as [|str strs IH]; intros s Hj; [split; reflexivity|].
  cbn [fold_left]. cbn [map] in Hj. apply not_elem_of_cons in Hj as [Hne Hj].
  destruct (IH (step s str) Hj) as [H1 H2].
  destruct (processString_other s str j Hne) as [H3 H4].
  rewrite H1, H2, H3, H4. split; reflexivity.
Qed.

Lemma pluckEvents_ext (t t' : gmap nat Q) (strs : list StringConfig) :
  (forall i, i ∈ map str_id strs -> t !! i = t' !! i) ->
  pluckEvents now fingers prevX prevVisible t strs
  = pluckEvents now fingers prevX prevVisible t' strs.
Proof.
  induction strs as [|str strs IH]; intros Hext; [reflexivity|].
  unfold pluckEvents in *. cbn [flat_map].
  rewrite (Hext (str_id str)) by (cbn [map]; apply elem_of_cons; auto).
  f_equal. apply IH. intros i Hi. apply Hext. cbn [map]. apply elem_of_cons. auto.
Qed.

(** With distinct string ids, every string is judged by the ledger as it
    was when the frame began. *)
Lemma stringLoop_events (strs : list StringConfig) (s : LoopState) :
  NoDup (map str_id strs) ->
  ls_events (fold_left step strs s)
  = ls_events s ++ pluckEvents now fingers prevX prevVisible (ls_triggers s) strs.
Proof.
  revert s. induction strs as [|str strs IH]; intros s Hnd.
  - simpl. rewrite app_nil_r. reflexivity.
  - cbn [fold_left map] in *. apply NoDup_cons in Hnd as [Hnotin Hnd].
    rewrite IH by exact Hnd.
    rewrite (pluckEvents_ext (ls_triggers (step s str)) (ls_triggers s)).
    + unfold step. rewrite processString_eq. unfold pluckEvents. cbn [flat_map].
      destruct (plucker _ _ _ _ _ _); cbn [ls_events].
      * rewrite <- app_assoc. reflexivity.
      * reflexivity.
    + intros i Hi. apply processString_other. intros ->. contradiction.
Qed.

Lemma stringLoop_inside (strs : list StringConfig) (s : LoopState) (str : StringConfig) :
  NoDup (map str_id strs) -> str ∈ strs ->
  let fired := plucker now fingers prevX prevVisible (ls_triggers s !! str_id str) str in
  ls_physics (fold_left step strs s) !! str_id str
  = Some (match fired with
          | Some _ => {| vibration := 1; bend := 0 |}
          | None => bentPhysics w fingers (ls_physics s) str
          end)
  /\ ls_triggers (fold_left step strs s) !! str_id str
     = match fired with
       | Some _ => Some now
       | None => ls_triggers s !! str_id str
       end.
Proof.
  revert s. induction strs as [|str0 strs IH]; intros s Hnd Hin.
  - apply elem_of_nil in Hin. contradiction.
  - cbn [fold_left map] in *. apply NoDup_cons in Hnd as [Hnotin Hnd].
    apply elem_of_cons in Hin as [-> | Hin].
    + destruct (stringLoop_outside strs (step s str0) (str_id str0) Hnotin) as [H1 H2].
      cbn zeta. rewrite H1, H2. unfold step. rewrite processString_eq.
      destruct (plucker _ _ _ _ _ _); cbn [ls_physics ls_triggers];
        rewrite !lookup_insert_eq; split; reflexivity.
    + assert (Hne : str_id str <> str_id str0).
      { intros E. apply Hnotin. rewrite <- E.
        apply list_elem_of_fmap. exists str. auto. }
      destruct (processString_other s str0 (str_id str) Hne) as [H3 H4].
      specialize (IH (step s str0) Hnd Hin). cbn zeta in IH.
      rewrite H4 in IH. unfold bentPhysics in *. rewrite H3 in IH. exact IH.
Qed.

(** A string within its debounce window fires no event, whatever the
    fingers do and whatever the other strings are. *)
Lemma stringLoop_debounced (strs : list StringConfig) (s : LoopState) (i : nat) :
  debounceOpen (ls_triggers s) i now = false ->
  eventsOf i (ls_events (fold_left step strs s)) = eventsOf i (ls_events s).
Proof.
  revert s. induction strs as [|str strs IH]; intros s Hclosed; [reflexivity|].
  cbn [fold_left]. unfold step at 2. rewrite processString_eq.
  destruct (decide (str_id str = i)) as [E|E].
  - unfold plucker. fold (debounceOpen (ls_triggers s) (str_id str) now).
    rewrite E, Hclosed. rewrite IH by exact Hclosed. reflexivity.
  - destruct (plucker _ _ _ _ _ _) as [y|].
    + rewrite IH.
      * cbn [ls_events]. unfold eventsOf. rewrite filter_app, filter_cons_False.
        -- rewrite filter_nil, app_nil_r. reflexivity.
        -- exact E.
      * cbn [ls_triggers]. rewrite <- Hclosed. apply debounceOpen_lookup.
        apply lookup_insert_ne. exact E.
    + rewrite IH by exact Hclosed. reflexivity.
Qed.

End FrameLoop.

(** ** The tick as a whole *)

Lemma tick_completed (f : Frame) (e e' : Engine) (evs : list PluckEvent) :
  tick f e = Completed e' evs -> interact f (detected f e) = Completed e' evs.
Proof.
  unfold tick, detected. destruct (negb (canvasReady f)); [discriminate|].
  destruct (cameraActiveRef e && (2 <=? readyState (video f))%nat); [|auto].
  destruct (detectReturn _) as [results|]; [|discriminate].
  destruct (cursorReadable _); [auto|discriminate].
Qed.

Lemma detected_fields (f : Frame) (e : Engine) :
  stringsRef (detected f e) = stringsRef e
  /\ prevFingerX (detected f e) = prevFingerX e
  /\ prevFingerVisible (detected f e) = prevFingerVisible e
  /\ lastTriggerTimes (detected f e) = lastTriggerTimes e
  /\ stringPhysics (detected f e) = stringPhysics e
  /\ cameraActiveRef (detected f e) = cameraActiveRef e.
Proof.
  unfold detected. destruct (_ && _); [|repeat split].
  destruct (detectReturn _); repeat split.
Qed.

Lemma tick_events (f : Frame) (e e' : Engine) (evs : list PluckEvent) :
  tick f e = Completed e' evs -> evs = ls_events (stringLoop f (detected f e)).
Proof. intros H. apply tick_completed in H. unfold interact in H. congruence. Qed.

Lemma tick_state (f : Frame) (e e' : Engine) (evs : list PluckEvent) :
  tick f e = Completed e' evs ->
  let e1 := detected f e in
  stringsRef e' = stringsRef e
  /\ lastLandmarksRef e' = lastLandmarksRef e1
  /\ lastTriggerTimes e' = ls_triggers (stringLoop f e1)
  /\ stringPhysics e'
     = renderStringsAndEffects (stringsRef e) (ls_physics (stringLoop f e1))
  /\ (prevFingerX e', prevFingerVisible e') = prevLoop e1
  /\ cameraActiveRef e' = cameraActiveRef e
  /\ visionService e' = visionService e1.
Proof.
  intros H e1. apply tick_completed in H. unfold interact in H.
  destruct (detected_fields f e) as (Hs & _ & _ & _ & _ & Hc).
  fold e1 in H, Hs, Hc. injection H as <- _. cbn.
  rewrite Hs, Hc. destruct (prevLoop e1). repeat split.
Qed.

(** The events of one string among the events of a frame. *)
Lemma eventsOf_pluckEvents (now : Q) (fingers : list FingerPosition)
    (prevX : list (option Q)) (prevVisible : list bool) (t : gmap nat Q)
    (strs : list StringConfig) (i : nat) :
  NoDup (map str_id strs) ->
  (i ∉ map str_id strs ->
     eventsOf i (pluckEvents now fingers prevX prevVisible t strs) = [])
  /\ (forall str, str ∈ strs -> str_id str = i ->
        eventsOf i (pluckEvents now fingers prevX prevVisible t strs)
        = match plucker now fingers prevX prevVisible (t !! i) str with
          | Some y => [mkPluck i now y]
          | None => []
          end).
Proof.
  induction strs as [|str0 strs IH]; intros Hnd.
  - split; [reflexivity|]. intros str Hin. apply elem_of_nil in Hin. contradiction.
  - cbn [map] in Hnd. apply NoDup_cons in Hnd as [Hnotin Hnd].
    destruct (IH Hnd) as [IHout IHin].
    assert (Hhead : forall l,
      eventsOf i (match plucker now fingers prevX prevVisible (t !! str_id str0) str0 with
                  | Some y => [mkPluck (str_id str0) now y]
                  | None => []
                  end ++ l)
      = (if decide (str_id str0 = i)
         then match plucker now fingers prevX prevVisible (t !! str_id str0) str0 with
              | Some y => [mkPluck (str_id str0) now y]
              | None => []
              end
         else []) ++ eventsOf i l).
    { intros l. unfold eventsOf.
      destruct (plucker _ _ _ _ _ _) as [y|]; cbn [app].
      - destruct (decide (str_id str0 = i)) as [E|E].
        + rewrite filter_cons_True by exact E. reflexivity.
        + rewrite filter_cons_False by exact E. reflexivity.
      - destruct (decide _); reflexivity. }
    unfold pluckEvents in *. cbn [flat_map]. split.
    + intros Hi. cbn [map] in Hi. apply not_elem_of_cons in Hi as [Hne Hi].
      rewrite Hhead, (IHout Hi). destruct (decide _); [congruence|reflexivity].
    + intros str Hin Hid. rewrite Hhead.
      apply elem_of_cons in Hin as [-> | Hin].
      * rewrite decide_True by exact Hid. rewrite IHout.
        -- rewrite app_nil_r, Hid. reflexivity.
        -- rewrite <- Hid. exact Hnotin.
      * rewrite decide_False.
        -- apply IHin; assumption.
        -- intros E. apply Hnotin. rewrite E, <- Hid.
           apply list_elem_of_fmap. exists str. auto.
Qed.

(** ** Debounce *)

Lemma eventsOf_app (i : nat) (l l' : list PluckEvent) :
  eventsOf i (l ++ l') = eventsOf i l ++ eventsOf i l'.
Proof. unfold eventsOf. apply filter_app. Qed.

(** The loop over the strings and the ledger entry of one id: the entry
    is left as it was when the loop adds no event for the id, and is the
    frame time when it adds one. *)
Lemma stringLoop_fired (w now : Q) (fingers : list FingerPosition)
    (prevX : list (option Q)) (prevVisible : list bool)
    (strs : list StringConfig) (s : LoopState) (i : nat) :
  let s' := fold_left (processString w now fingers prevX prevVisible) strs s in
  exists extra,
    eventsOf i (ls_events s') = eventsOf i (ls_events s) ++ extra
    /\ match extra with
       | [] => ls_triggers s' !! i = ls_triggers s !! i
       | _ :: _ => ls_triggers s' !! i = Some now
       end.
Proof.
  revert s. induction strs as [|str strs IH]; intros s; cbn [fold_left].
  - exists []. rewrite app_nil_r. auto.
  - rewrite processString_eq.
    destruct (plucker now fingers prevX prevVisible (ls_triggers s !! str_id str) str)
      as [y|];
      match goal with
      | |- context [fold_left _ strs ?s1] => destruct (IH s1) as (extra & Hev & Hled)
      end;
      cbn [ls_events ls_triggers] in Hev, Hled.
    + rewrite eventsOf_app in Hev.
      destruct (decide (str_id str = i)) as [E|E].
      * exists (mkPluck (str_id str) now y :: extra). split.
        -- rewrite Hev. unfold eventsOf at 2.
           rewrite filter_cons_True by exact E.
           rewrite filter_nil, <- app_assoc. reflexivity.
        -- destruct extra; [|exact Hled].
           rewrite Hled, E. apply lookup_insert_eq.
      * exists extra. split.
        -- rewrite Hev. unfold eventsOf at 2.
           rewrite filter_cons_False by exact E.
           rewrite filter_nil, app_nil_r. reflexivity.
        -- destruct extra; [|exact Hled].
           rewrite Hled. apply lookup_insert_ne. exact E.
    + exists extra. auto.
Qed.

(** The ledger entry of an id across a completed tick. *)
Lemma tick_ledger (f : Frame) (e e' : Engine) (evs : list PluckEvent) (i : nat) :
  tick f e = Completed e' evs ->
  match eventsOf i evs with
  | [] => lastTriggerTimes e' !! i = lastTriggerTimes e !! i
  | _ :: _ => lastTriggerTimes e' !! i = Some (now f)
  end.
Proof.
  intros Htick.
  destruct (tick_state _ _ _ _ Htick) as (_ & _ & Htrig & _).
  pose proof (tick_events _ _ _ _ Htick) as Hevs.
  destruct (detected_fields f e) as (_ & _ & _ & Ht & _).
  unfold stringLoop in Htrig, Hevs.
  destruct (stringLoop_fired (width f) (now f)
              (fingerPositions (lastLandmarksRef (detected f e)))
              (prevFingerX (detected f e)) (prevFingerVisible (detected f e))
              (stringsRef (detected f e))
              {| ls_physics := stringPhysics (detected f e);
                 ls_triggers := lastTriggerTimes (detected f e);
                 ls_events := [] |} i) as (extra & Hev & Hled).
  cbn [ls_triggers ls_events] in Hev, Hled.
  rewrite <- Htrig, Ht in Hled. rewrite <- Hevs in Hev.
  change (eventsOf i []) with (@nil PluckEvent) in Hev. cbn [app] in Hev.
  rewrite Hev. exact Hled.
Qed.

(** A string id within its debounce window fires nothing in the tick. *)
Lemma tick_debounced (f : Frame) (e e' : Engine) (evs : list PluckEvent) (i : nat) :
  tick f e = Completed e' evs ->
  now f - default 0 (lastTriggerTimes e !! i) <= CONFIG.DEBOUNCE_MS ->
  eventsOf i evs = [].
Proof.
  intros Htick Hclosed.
  pose proof (tick_events _ _ _ _ Htick) as Hevs.
  destruct (detected_fields f e) as (Hs & Hpx & Hpv & Ht & _ & _).
  unfold stringLoop in Hevs. rewrite Hs, Hpx, Hpv, Ht in Hevs.
  rewrite Hevs, stringLoop_debounced; [reflexivity|].
  apply debounceOpen_false. exact Hclosed.
Qed.

Lemma eventsOfRun_cons (f : Frame) (fs : list Frame) (e : Engine) :
  eventsOfRun (f :: fs) e
  = match tick f e with
    | Completed e' evs => evs ++ eventsOfRun fs e'
    | _ => []
    end.
Proof.
  unfold eventsOfRun. cbn [runFrames].
  destruct (tick f e) as [e'|e' evs|e']; try reflexivity.
  destruct (runFrames fs e') as [[e'' evs'] alive]. reflexivity.
Qed.

(** As long as the frames stay within the debounce window of the time in
    the ledger, the string stays silent and the ledger entry stays. *)
Lemma runFrames_debounced (fs : list Frame) (e : Engine) (t : Q) (i : nat) :
  lastTriggerTimes e !! i = Some t ->
  (forall f', f' ∈ fs -> now f' - t <= CONFIG.DEBOUNCE_MS) ->
  eventsOf i (eventsOfRun fs e) = [].
Proof.
  revert e. induction fs as [|f fs IH]; intros e Hled Hall; [reflexivity|].
  rewrite eventsOfRun_cons.
  destruct (tick f e) as [e'|e' evs|e'] eqn:Htick; try reflexivity.
  assert (Hnone : eventsOf i evs = []).
  { apply (tick_debounced f e e' evs i Htick).
    rewrite Hled. cbn [default]. apply Hall, list_elem_of_here. }
  pose proof (tick_ledger f e e' evs i Htick) as Hkept.
  rewrite Hnone in Hkept.
  rewrite eventsOf_app, Hnone. cbn [app].
  apply IH.
  - rewrite Hkept. exact Hled.
  - intros f' Hin. apply Hall, list_elem_of_further, Hin.
Qed.

(** C1, as stated, fails: two hands that cross the same string in the
    same frame produce no event when the string is within its debounce
    window. The two fingers swap sides of the single string at x = 1/2 at
    time 1016 (one event), and swap back at time 1032: both cross the
    string, and nothing fires. *)
Lemma two_hands_in_window_counterexample :
  let str := stringConfigAt 1 4 0 in
  let e0 := startedEngine (generateStringConfigs 1 MID) in
  let e1 := engineOf (tick (twoFingerFrame 1000 0 1000 (4 # 10) (6 # 10) (3 # 10)) e0) in
  let f1 := twoFingerFrame 1000 (1 # 30) 1016 (6 # 10) (4 # 10) (3 # 10) in
  let e2 := engineOf (tick f1 e1) in
  let f2 := twoFingerFrame 1000 (2 # 30) 1032 (4 # 10) (6 # 10) (3 # 10) in
  let fa := {| finger_x := 1 - (1 - (4 # 10)); finger_y := 3 # 10; visible := true |} in
  let fb := {| finger_x := 1 - (1 - (6 # 10)); finger_y := 3 # 10; visible := true |} in
  stringsRef e2 = [str]
  /\ eventsOfTick (tick f1 e1) = [mkPluck 0 1016 (3 # 10)]
  /\ fingerPositions (lastLandmarksRef (engineOf (tick f2 e2))) = [fa; fb]
  /\ crossing (prevFingerX e2) (prevFingerVisible e2) str (0%nat, fa) = true
  /\ crossing (prevFingerX e2) (prevFingerVisible e2) str (1%nat, fb) = true
  /\ tick f2 e2 = Completed (engineOf (tick f2 e2)) [].
Proof.
  cbv zeta. repeat split; vm_compute; reflexivity.
Qed.

(** C1, amended. After a frame in which a string fired, the string fires
    nothing in any later frame whose time is at most [DEBOUNCE_MS] after
    that frame, whichever finger crosses it; more generally a string
    fires nothing in a frame whose time is at most [DEBOUNCE_MS] after
    its ledger entry (0 for a string that never fired). The ledger has
    one entry per string id, shared by the fingers: with distinct string
    ids a string fires at most one event per frame, and when both fingers
    cross a string in the same frame, exactly one event fires (that of
    the first finger) if the string is outside its debounce window, and
    none if it is within. *)
Theorem debounce_per_string (f : Frame) (e e' : Engine) (evs : list PluckEvent) :
  tick f e = Completed e' evs ->
  (forall i later,
      eventsOf i evs <> [] ->
      (forall f', f' ∈ later -> now f' - now f <= CONFIG.DEBOUNCE_MS) ->
      eventsOf i (eventsOfRun later e') = [])
  /\ (forall i,
      now f - default 0 (lastTriggerTimes e !! i) <= CONFIG.DEBOUNCE_MS ->
      eventsOf i evs = [])
  /\ (NoDup (map str_id (stringsRef e)) ->
      (forall i, (length (eventsOf i evs) <= 1)%nat)
      /\ (forall str f0 f1,
             str ∈ stringsRef e ->
             fingerPositions (lastLandmarksRef e') = [f0; f1] ->
             crossing (prevFingerX e) (prevFingerVisible e) str (0%nat, f0) = true ->
             crossing (prevFingerX e) (prevFingerVisible e) str (1%nat, f1) = true ->
             (CONFIG.DEBOUNCE_MS < now f - default 0 (lastTriggerTimes e !! str_id str) ->
              eventsOf (str_id str) evs
              = [mkPluck (str_id str) (now f) (finger_y f0)])
             /\ (now f - default 0 (lastTriggerTimes e !! str_id str) <= CONFIG.DEBOUNCE_MS ->
                 eventsOf (str_id str) evs = []))).
Proof.
  intros Htick. split; [|split].
  - intros i later Hfired Hwindow.
    pose proof (tick_ledger f e e' evs i Htick) as Hled.
    destruct (eventsOf i evs) as [|ev rest]; [congruence|].
    apply (runFrames_debounced later e' (now f) i Hled Hwindow).
  - intros i Hclosed. apply (tick_debounced f e e' evs i Htick Hclosed).
  - pose proof (tick_events _ _ _ _ Htick) as Hevs.
    destruct (tick_state _ _ _ _ Htick) as (_ & Hcache & _).
    destruct (detected_fields f e) as (Hs & Hpx & Hpv & Ht & _ & _).
    unfold stringLoop in Hevs. rewrite Hs, Hpx, Hpv, Ht in Hevs.
    intros Hnd. rewrite stringLoop_events in Hevs by exact Hnd.
    cbn [ls_events ls_triggers app] in Hevs.
    split.
    + intros i. rewrite Hevs.
      destruct (eventsOf_pluckEvents (now f) (fingerPositions (lastLandmarksRef (detected f e)))
                  (prevFingerX e) (prevFingerVisible e) (lastTriggerTimes e)
                  (stringsRef e) i Hnd) as [Hout Hin].
      destruct (decide (i ∈ map str_id (stringsRef e))) as [Hi|Hi].
      * apply list_elem_of_fmap in Hi as (str & -> & Hstr).
        rewrite (Hin str Hstr eq_refl). destruct (plucker _ _ _ _ _ _); simpl; lia.
      * rewrite (Hout Hi). simpl. lia.
    + intros str f0 f1 Hstr Hfingers Hc0 Hc1. split.
      * intros Hopen. rewrite Hevs.
        destruct (eventsOf_pluckEvents (now f)
                    (fingerPositions (lastLandmarksRef (detected f e)))
                    (prevFingerX e) (prevFingerVisible e) (lastTriggerTimes e)
                    (stringsRef e) (str_id str) Hnd) as [_ Hin].
        rewrite (Hin str Hstr eq_refl). rewrite <- Hcache, Hfingers.
        unfold plucker. apply Qgtb_gt in Hopen. rewrite Hopen.
        unfold indexed. cbn [length seq combine find]. rewrite Hc0. reflexivity.
      * intros Hclosed. apply (tick_debounced f e e' evs (str_id str) Htick Hclosed).
Qed.

(** Two fingers swap sides of the single string at x = 1/2 at time 1016;
    they swap back at time 1032 and once more at time 1136, the last
    instant of the debounce window. *)
Lemma debounce_per_string_witness :
  let e := engineOf (tick (twoFingerFrame 1000 0 1000 (4 # 10) (6 # 10) (3 # 10))
                          (startedEngine (generateStringConfigs 1 MID))) in
  let f := twoFingerFrame 1000 (1 # 30) 1016 (6 # 10) (4 # 10) (3 # 10) in
  let later := [twoFingerFrame 1000 (2 # 30) 1032 (4 # 10) (6 # 10) (3 # 10);
                twoFingerFrame 1000 (3 # 30) 1136 (6 # 10) (4 # 10) (3 # 10)] in
  eventsOf 0 (eventsOfTick (tick f e)) = [mkPluck 0 1016 (3 # 10)]
  /\ eventsOf 0 (eventsOfRun later (engineOf (tick f e))) = [].
Proof.
  intros e f later.
  assert (Htick : tick f e = Completed (engineOf (tick f e)) (eventsOfTick (tick f e)))
    by (vm_compute; reflexivity).
  destruct (debounce_per_string f e _ _ Htick) as (Hlater & _ & Hshared).
  split.
  - destruct Hshared as [_ Hboth].
    + vm_compute. apply NoDup_singleton.
    + apply (Hboth (stringConfigAt 1 4 0)
                   {| finger_x := 1 - (1 - (6 # 10)); finger_y := 3 # 10; visible := true |}
                   {| finger_x := 1 - (1 - (4 # 10)); finger_y := 3 # 10; visible := true |}).
      * vm_compute. apply list_elem_of_here.
      * vm_compute. reflexivity.
      * vm_compute. reflexivity.
      * vm_compute. reflexivity.
      * vm_compute. reflexivity.
  - apply Hlater.
    + vm_compute. discriminate.
    + intros f' Hin. apply elem_of_cons in Hin as [-> | Hin].
      * vm_compute. discriminate.
      * apply list_elem_of_singleton in Hin. subst f'. vm_compute. discriminate.
Defined.

(** ** The vibration stays in [0, 1] *)

Lemma decayVibration_bounded (p : Physics) :
  0 <= vibration p /\ vibration p <= 1 ->
  0 <= vibration (decayVibration p) /\ vibration (decayVibration p) <= 1.
Proof.
  intros [H0 H1]. unfold decayVibration.
  destruct (Qgtb (vibration p) (1 # 100)); cbn [vibration]; [|auto].
  split; lra.
Qed.

Lemma applyBend_vibration (closest : Q) (p : Physics) :
  vibration (applyBend closest p) = vibration p.
Proof. unfold applyBend. destruct (Qneb closest 0); reflexivity. Qed.

Lemma bentPhysics_vibration (w : Q) (fingers : list FingerPosition)
    (m : gmap nat Physics) (str : StringConfig) :
  vibration (bentPhysics w fingers m str)
  = vibration (default zeroPhysics (m !! str_id str)).
Proof. unfold bentPhysics. apply applyBend_vibration. Qed.

Lemma vibrationBounded_insert (m : gmap nat Physics) (i : nat) (p : Physics) :
  vibrationBounded m -> 0 <= vibration p /\ vibration p <= 1 ->
  vibrationBounded (<[i := p]> m).
Proof.
  intros Hm Hp j q Hj. destruct (decide (i = j)) as [->|Hne].
  - rewrite lookup_insert_eq in Hj. injection Hj as <-. exact Hp.
  - rewrite lookup_insert_ne in Hj by exact Hne. apply (Hm j q Hj).
Qed.

Lemma vibrationBounded_default (m : gmap nat Physics) (i : nat) :
  vibrationBounded m ->
  0 <= vibration (default zeroPhysics (m !! i))
  /\ vibration (default zeroPhysics (m !! i)) <= 1.
Proof.
  intros Hm. destruct (m !! i) as [p|] eqn:E; cbn [default].
  - apply (Hm i p E).
  - cbn. split; lra.
Qed.

Lemma processString_bounded (w now : Q) (fingers : list FingerPosition)
    (prevX : list (option Q)) (prevVisible : list bool)
    (s : LoopState) (str : StringConfig) :
  vibrationBounded (ls_physics s) ->
  vibrationBounded (ls_physics (processString w now fingers prevX prevVisible s str)).
Proof.
  intros Hs. rewrite processString_eq.
  destruct (plucker _ _ _ _ _ _); cbn [ls_physics];
    apply vibrationBounded_insert; try exact Hs.
  - cbn. split; lra.
  - rewrite bentPhysics_vibration. apply vibrationBounded_default, Hs.
Qed.

Lemma stringLoop_bounded (f : Frame) (e : Engine) :
  vibrationBounded (stringPhysics e) ->
  vibrationBounded (ls_physics (stringLoop f e)).
Proof.
  intros He. unfold stringLoop.
  set (s0 := {| ls_physics := stringPhysics e; ls_triggers := lastTriggerTimes e;
                ls_events := [] |}).
  assert (Hs0 : vibrationBounded (ls_physics s0)) by exact He.
  clearbody s0. revert s0 Hs0.
  induction (stringsRef e) as [|str strs IH]; intros s0 Hs0; [exact Hs0|].
  cbn [fold_left]. apply IH, processString_bounded, Hs0.
Qed.

Lemma renderStringsAndEffects_bounded (strs : list StringConfig) (m : gmap nat Physics) :
  vibrationBounded m -> vibrationBounded (renderStringsAndEffects strs m).
Proof.
  unfold renderStringsAndEffects. revert m.
  induction strs as [|str strs IH]; intros m Hm; [exact Hm|].
  cbn [fold_left]. apply IH. intros j q Hj.
  destruct (decide (str_id str = j)) as [E|E].
  - rewrite E, lookup_alter_eq in Hj.
    destruct (m !! j) as [p|] eqn:Ep; [|discriminate].
    injection Hj as <-. apply decayVibration_bounded, (Hm j p Ep).
  - rewrite lookup_alter_ne in Hj by exact E. apply (Hm j q Hj).
Qed.

Lemma tick_bounded (f : Frame) (e : Engine) :
  vibrationBounded (stringPhysics e) ->
  vibrationBounded (stringPhysics (engineOf (tick f e))).
Proof.
  intros He.
  assert (Hint : forall e1, stringPhysics e1 = stringPhysics e ->
            vibrationBounded (stringPhysics (engineOf (interact f e1)))).
  { intros e1 E. unfold interact. cbn [engineOf stringPhysics].
    apply renderStringsAndEffects_bounded, stringLoop_bounded. rewrite E. exact He. }
  unfold tick. destruct (negb (canvasReady f)); [exact He|].
  destruct (cameraActiveRef e && (2 <=? readyState (video f))%nat);
    [|apply Hint; reflexivity].
  destruct (detectReturn _) as [results|]; [|exact He].
  destruct (cursorReadable _); [apply Hint; reflexivity|exact He].
Qed.

Lemma applyOp_bounded (e : Engine) (op : EngineOp) :
  vibrationBounded (stringPhysics e) ->
  vibrationBounded (stringPhysics (applyOp e op)).
Proof.
  intros He. destruct op as [f | b | n r | ]; cbn [applyOp].
  - apply tick_bounded, He.
  - exact He.
  - exact He.
  - exact He.
Qed.

Lemma runOps_bounded (ops : list EngineOp) (e : Engine) :
  vibrationBounded (stringPhysics e) ->
  vibrationBounded (stringPhysics (runOps ops e)).
Proof.
  revert e. induction ops as [|op ops IH]; intros e He; [exact He|].
  cbn [runOps fold_left]. apply IH, applyOp_bounded, He.
Qed.

(** C10. After every sequence of engine operations from the initial
    state, every string id present in the physics state has its vibration
    in [0, 1]. *)
Theorem vibration_in_unit_interval (strings : list StringConfig)
    (ops : list EngineOp) (i : nat) (p : Physics) :
  stringPhysics (runOps ops (newEngine strings)) !! i = Some p ->
  0 <= vibration p /\ vibration p <= 1.
Proof.
  intros Hp.
  assert (H : vibrationBounded (stringPhysics (runOps ops (newEngine strings)))).
  { apply runOps_bounded. intros j q Hj. cbn in Hj.
    rewrite lookup_empty in Hj. discriminate Hj. }
  apply (H i p Hp).
Qed.

Lemma vibration_in_unit_interval_witness :
  let ops := [OpVisionReady; OpCamera true;
              OpTick (fingerFrame 1000 0 1000 (4 # 10) (3 # 10));
              OpTick (fingerFrame 1000 (1 # 30) 1016 (6 # 10) (3 # 10));
              OpTick (fingerFrame 1000 (2 # 30) 1032 (6 # 10) (3 # 10))] in
  let e := runOps ops (newEngine (generateStringConfigs 1 MID)) in
  let p := default zeroPhysics (stringPhysics e !! 0%nat) in
  vibration p == 8464 # 10000 /\ 0 <= vibration p /\ vibration p <= 1.
Proof.
  intros ops e p. split; [vm_compute; reflexivity|].
  apply (vibration_in_unit_interval (generateStringConfigs 1 MID) ops 0 p).
  vm_compute. reflexivity.
Defined.

(** ** The decay of the vibration *)

Lemma thresholds_table (m : nat) : (m <= 56)%nat -> thresholdsAt m = true.
Proof.
  intros Hm.
  assert (Hall : forallb thresholdsAt (seq 0 57) = true) by (vm_compute; reflexivity).
  rewrite forallb_forall in Hall. apply Hall. apply in_seq. lia.
Qed.

Lemma qpow_above_hundredth (m : nat) : (m < 56)%nat -> 1 # 100 < qpow (92 # 100) m.
Proof.
  intros Hm. pose proof (thresholds_table m ltac:(lia)) as H.
  unfold thresholdsAt in H. apply andb_prop in H as [_ H].
  apply Nat.ltb_lt in Hm. rewrite Hm in H. apply Qltb_lt, H.
Qed.

Lemma qpow_56_below_hundredth : qpow (92 # 100) 56 <= 1 # 100.
Proof.
  pose proof (thresholds_table 56 ltac:(lia)) as H.
  unfold thresholdsAt in H. apply andb_prop in H as [_ H].
  change (56 <? 56)%nat with false in H. apply Qle_bool_iff, H.
Qed.

Lemma decayed_eligible (k : nat) :
  Qltb (decayed k) (1 # 10) = true <-> (28 <= k)%nat.
Proof.
  unfold decayed. pose proof (thresholds_table (Nat.min k 56) ltac:(lia)) as H.
  unfold thresholdsAt in H. apply andb_prop in H as [H _].
  destruct (Nat.min k 56 <? 28)%nat eqn:E.
  - apply Nat.ltb_lt in E. split; [|lia].
    intros Hlt. apply Qltb_lt in Hlt. apply Qle_bool_iff in H.
    exfalso. apply (Qlt_not_le _ _ Hlt H).
  - apply Nat.ltb_ge in E. split; [lia|]. intros _. exact H.
Qed.

Lemma decayVibration_step (k : nat) (p : Physics) :
  vibration p == decayed k -> vibration (decayVibration p) == decayed (S k).
Proof.
  intros Hp. unfold decayVibration, decayed in *.
  destruct (Nat.lt_ge_cases k 56) as [Hk|Hk].
  - rewrite Nat.min_l in Hp by lia. rewrite Nat.min_l by lia.
    assert (E : Qgtb (vibration p) (1 # 100) = true).
    { apply Qgtb_gt. rewrite Hp. apply qpow_above_hundredth, Hk. }
    rewrite E. cbn [vibration qpow]. rewrite Hp. ring.
  - rewrite Nat.min_r in Hp by lia. rewrite Nat.min_r by lia.
    assert (E : Qgtb (vibration p) (1 # 100) = false).
    { apply Qgtb_le. rewrite Hp. apply qpow_56_below_hundredth. }
    rewrite E. exact Hp.
Qed.

Lemma renderStringsAndEffects_lookup (strs : list StringConfig)
    (m : gmap nat Physics) (i : nat) :
  NoDup (map str_id strs) ->
  renderStringsAndEffects strs m !! i
  = if decide (i ∈ map str_id strs) then decayVibration <$> m !! i else m !! i.
Proof.
  unfold renderStringsAndEffects. revert m.
  induction strs as [|str strs IH]; intros m Hnd.
  - cbn [fold_left map]. rewrite decide_False by apply not_elem_of_nil. reflexivity.
  - cbn [fold_left map] in *. apply NoDup_cons in Hnd as [Hnotin Hnd].
    rewrite IH by exact Hnd.
    destruct (decide (i = str_id str)) as [->|Hne].
    + rewrite decide_False by exact Hnotin.
      rewrite decide_True by apply list_elem_of_here.
      apply lookup_alter_eq.
    + rewrite lookup_alter_ne by congruence.
      destruct (decide (i ∈ map str_id strs)) as [Hi|Hi].
      * rewrite decide_True by (apply list_elem_of_further; exact Hi). reflexivity.
      * rewrite decide_False; [reflexivity|].
        intros Hin. apply elem_of_cons in Hin as [E|Hin]; contradiction.
Qed.

(** What one completed tick does to one string, when the ids are distinct. *)
Lemma tick_string (f : Frame) (e e' : Engine) (evs : list PluckEvent)
    (str : StringConfig) :
  tick f e = Completed e' evs ->
  NoDup (map str_id (stringsRef e)) ->
  str ∈ stringsRef e ->
  let fingers := fingerPositions (lastLandmarksRef e') in
  let fired := plucker (now f) fingers (prevFingerX e) (prevFingerVisible e)
                       (lastTriggerTimes e !! str_id str) str in
  eventsOf (str_id str) evs
  = match fired with
    | Some y => [mkPluck (str_id str) (now f) y]
    | None => []
    end
  /\ stringPhysics e' !! str_id str
     = Some (decayVibration
               match fired with
               | Some _ => {| vibration := 1; bend := 0 |}
               | None => bentPhysics (width f) fingers (stringPhysics e) str
               end)
  /\ lastTriggerTimes e' !! str_id str
     = match fired with
       | Some _ => Some (now f)
       | None => lastTriggerTimes e !! str_id str
       end.
Proof.
  intros Htick Hnd Hstr fingers fired.
  pose proof (tick_events _ _ _ _ Htick) as Hevs.
  destruct (tick_state _ _ _ _ Htick) as (_ & Hcache & Htrig & Hphys & _).
  destruct (detected_fields f e) as (Hs & Hpx & Hpv & Ht & Hp & _).
  unfold stringLoop in Hevs, Htrig, Hphys.
  rewrite Hs, Hpx, Hpv, Ht, Hp, <- Hcache in Hevs, Htrig, Hphys.
  fold fingers in Hevs, Htrig, Hphys.
  split; [|split].
  - rewrite Hevs, stringLoop_events by exact Hnd. cbn [ls_events ls_triggers app].
    destruct (eventsOf_pluckEvents (now f) fingers (prevFingerX e) (prevFingerVisible e)
                (lastTriggerTimes e) (stringsRef e) (str_id str) Hnd) as [_ Hin].
    apply (Hin str Hstr eq_refl).
  - rewrite Hphys, renderStringsAndEffects_lookup by exact Hnd.
    rewrite decide_True by (apply list_elem_of_fmap; exists str; auto).
    destruct (stringLoop_inside (width f) (now f) fingers (prevFingerX e)
                (prevFingerVisible e) (stringsRef e)
                {| ls_physics := stringPhysics e; ls_triggers := lastTriggerTimes e;
                   ls_events := [] |} str Hnd Hstr) as [H1 _].
    cbn [ls_physics ls_triggers] in H1. rewrite H1. reflexivity.
  - rewrite Htrig.
    destruct (stringLoop_inside (width f) (now f) fingers (prevFingerX e)
                (prevFingerVisible e) (stringsRef e)
                {| ls_physics := stringPhysics e; ls_triggers := lastTriggerTimes e;
                   ls_events := [] |} str Hnd Hstr) as [_ H2].
    cbn [ls_physics ls_triggers] in H2. rewrite H2. reflexivity.
Qed.

(** A string that no event retriggers decays once per completed frame. *)
Lemma runFrames_decay (fs : list Frame) (str : StringConfig) :
  forall (e e' : Engine) (evs : list PluckEvent) (k : nat) (p : Physics),
    NoDup (map str_id (stringsRef e)) ->
    str ∈ stringsRef e ->
    stringPhysics e !! str_id str = Some p ->
    vibration p == decayed k ->
    runFrames fs e = (e', evs, true) ->
    eventsOf (str_id str) evs = [] ->
    exists p', stringPhysics e' !! str_id str = Some p'
               /\ vibration p' == decayed (k + length fs).
Proof.
  induction fs as [|f fs IH]; intros e e' evs k p Hnd Hstr Hp Hv Hrun Hquiet.
  - cbn in Hrun. injection Hrun as <- <-. exists p. rewrite Nat.add_0_r. auto.
  - cbn [runFrames] in Hrun.
    destruct (tick f e) as [e1 | e1 evs1 | e1] eqn:Htick; try discriminate.
    destruct (runFrames fs e1) as [[e2 evs2] alive] eqn:Hrest.
    injection Hrun as <- <- ->.
    rewrite eventsOf_app in Hquiet. apply app_eq_nil in Hquiet as [Hq1 Hq2].
    destruct (tick_string f e e1 evs1 str Htick Hnd Hstr) as (Hev & Hphys & _).
    destruct (tick_state _ _ _ _ Htick) as (Hstrings & _).
    destruct (plucker _ _ _ _ _ _) as [y|]; [rewrite Hq1 in Hev; discriminate|].
    replace (k + length (f :: fs))%nat with (S k + length fs)%nat
      by (cbn [length]; lia).
    eapply (IH e1 e2 evs2 (S k)).
    + rewrite Hstrings. exact Hnd.
    + rewrite Hstrings. exact Hstr.
    + exact Hphys.
    + apply decayVibration_step. rewrite bentPhysics_vibration, Hp. exact Hv.
    + exact Hrest.
    + exact Hq2.
Qed.

(** C3, as stated, fails. One string at x = 1/2; the finger crosses it in
    the second frame and then rests at x = 0.55, within reach. After 29
    rendered frames the vibration is 0.92^29, still above 0.01, and the
    string is already bent by the finger (bend 15): bend-eligibility came
    back below 0.1, not at 0.01. After 61 rendered frames the vibration
    is 0.92^56, not 0.92^61: the decay stopped at the 56th frame. *)
Lemma bend_threshold_counterexample :
  let e := startedEngine (generateStringConfigs 1 MID) in
  let sweep := [fingerFrame 1000 0 1000 (4 # 10) (3 # 10);
                fingerFrame 1000 (1 # 30) 1016 (55 # 100) (3 # 10)] in
  let p := default zeroPhysics
             (stringPhysics (engineAfter (sweep ++ restingFrames 2 28 (55 # 100)) e) !! 0%nat) in
  let q := default zeroPhysics
             (stringPhysics (engineAfter (sweep ++ restingFrames 2 60 (55 # 100)) e) !! 0%nat) in
  map stringId (eventsOfRun (sweep ++ restingFrames 2 60 (55 # 100)) e) = [0%nat]
  /\ vibration p == qpow (92 # 100) 29
  /\ 1 # 100 < vibration p
  /\ bend p == 15
  /\ vibration q == qpow (92 # 100) 56
  /\ ~ vibration q == qpow (92 # 100) 61.
Proof.
  vm_compute. repeat split; try reflexivity. intros H. discriminate H.
Qed.

(** C3, amended. When a frame plucks a string and the following frames
    do not retrigger it, its vibration after k rendered frames (the frame
    of the pluck included) is 0.92^k for k up to 56 and stays 0.92^56,
    the first power not above 0.01, from then on; and the string passes
    the bend test [vibration < 0.1] exactly from the 28th frame on. *)
Theorem vibration_after_pluck (f : Frame) (fs : list Frame) (e e1 e2 : Engine)
    (evs evs' : list PluckEvent) (str : StringConfig) :
  NoDup (map str_id (stringsRef e)) ->
  str ∈ stringsRef e ->
  tick f e = Completed e1 evs ->
  eventsOf (str_id str) evs <> [] ->
  runFrames fs e1 = (e2, evs', true) ->
  eventsOf (str_id str) evs' = [] ->
  let k := S (length fs) in
  exists p, stringPhysics e2 !! str_id str = Some p
            /\ vibration p == qpow (92 # 100) (Nat.min k 56)
            /\ (bendEligible p = true <-> (28 <= k)%nat)
            /\ (vibration p <= 1 # 100 <-> (56 <= k)%nat).
Proof.
  intros Hnd Hstr Htick Hfired Hrun Hquiet k.
  destruct (tick_string f e e1 evs str Htick Hnd Hstr) as (Hev & Hphys & _).
  destruct (tick_state _ _ _ _ Htick) as (Hstrings & _).
  destruct (plucker _ _ _ _ _ _) as [y|]; [|contradiction].
  assert (Hone : vibration (decayVibration {| vibration := 1; bend := 0 |}) == decayed 1).
  { apply (decayVibration_step 0). reflexivity. }
  destruct (runFrames_decay fs str e1 e2 evs' 1 _
              ltac:(rewrite Hstrings; exact Hnd) ltac:(rewrite Hstrings; exact Hstr)
              Hphys Hone Hrun Hquiet) as (p & Hp & Hv).
  change (1 + length fs)%nat with k in Hv.
  exists p. split; [exact Hp|]. split; [exact Hv|]. split.
  - rewrite <- decayed_eligible. unfold bendEligible.
    split; intros H; apply Qltb_lt; apply Qltb_lt in H.
    + rewrite <- Hv. exact H.
    + rewrite Hv. exact H.
  - rewrite Hv. unfold decayed. split.
    + intros Hle. destruct (Nat.lt_ge_cases k 56) as [Hk|Hk]; [|exact Hk].
      rewrite Nat.min_l in Hle by lia.
      exfalso. apply (Qlt_not_le _ _ (qpow_above_hundredth k Hk) Hle).
    + intros Hk. rewrite Nat.min_r by lia. apply qpow_56_below_hundredth.
Qed.

Lemma vibration_after_pluck_witness :
  let e := engineOf (tick (fingerFrame 1000 0 1000 (4 # 10) (3 # 10))
                          (startedEngine (generateStringConfigs 1 MID))) in
  let f := fingerFrame 1000 (1 # 30) 1016 (55 # 100) (3 # 10) in
  let fs := restingFrames 2 3 (55 # 100) in
  exists p, stringPhysics (engineAfter fs (engineOf (tick f e))) !! 0%nat = Some p
            /\ vibration p == qpow (92 # 100) (Nat.min 4 56)
            /\ (bendEligible p = true <-> (28 <= 4)%nat)
            /\ (vibration p <= 1 # 100 <-> (56 <= 4)%nat).
Proof.
  intros e f fs.
  apply (vibration_after_pluck f fs e (engineOf (tick f e))
           (engineAfter fs (engineOf (tick f e)))
           (eventsOfTick (tick f e)) (eventsOfRun fs (engineOf (tick f e)))
           (stringConfigAt 1 4 0)).
  - vm_compute. apply NoDup_singleton.
  - vm_compute. apply list_elem_of_here.
  - vm_compute. reflexivity.
  - vm_compute. discriminate.
  - vm_compute. reflexivity.
  - vm_compute. reflexivity.
Defined.

(** ** Frames without hands *)

Lemma arraySet_lookup_eq {A : Type} (hole : A) (i : nat) (v : A) (l : list A) :
  arraySet hole i v l !! i = Some v.
Proof.
  unfold arraySet. destruct (i <? length l)%nat eqn:E.
  - apply Nat.ltb_lt in E. apply list_lookup_insert_eq. exact E.
  - apply Nat.ltb_ge in E. rewrite app_assoc. apply list_lookup_middle.
    rewrite length_app, length_replicate. lia.
Qed.

Lemma arraySet_lookup_ne {A : Type} (hole : A) (i j : nat) (v : A) (l : list A) :
  (j < length l)%nat -> i <> j -> arraySet hole i v l !! j = l !! j.
Proof.
  intros Hj Hne. unfold arraySet. destruct (i <? length l)%nat.
  - apply list_lookup_insert_ne. exact Hne.
  - apply lookup_app_l. exact Hj.
Qed.

Lemma fingerPositions_shape (cache : option (list Hand)) :
  fingerPositions cache = []
  \/ exists a b, fingerPositions cache = [a; b].
Proof.
  unfold fingerPositions. destruct cache as [allHands|]; [|auto].
  destruct (0 <? length allHands)%nat; [|auto].
  right. eexists. eexists. reflexivity.
Qed.

(** After the memory update of a frame, the memory agrees with the cache. *)
Lemma prevLoop_synced (e : Engine) (idx : nat) (fg : FingerPosition) :
  (idx, fg) ∈ indexed (fingerPositions (lastLandmarksRef e)) ->
  visible fg = true ->
  fst (prevLoop e) !! idx = Some (Some (finger_x fg)).
Proof.
  unfold prevLoop.
  destruct (fingerPositions_shape (lastLandmarksRef e)) as [-> | (a & b & ->)].
  - intros Hin. apply elem_of_nil in Hin. contradiction.
  - unfold indexed. cbn [length seq combine fold_left].
    intros Hin Hvis.
    apply elem_of_cons in Hin as [Hin | Hin].
    + injection Hin as -> ->. unfold updatePrev at 2. cbn [fst snd].
      rewrite Hvis. unfold updatePrev. cbn [fst snd].
      destruct (visible b); cbn [fst].
      * rewrite arraySet_lookup_ne; [apply arraySet_lookup_eq| |lia].
        apply lookup_lt_is_Some. rewrite arraySet_lookup_eq. eauto.
      * apply arraySet_lookup_eq.
    + apply list_elem_of_singleton in Hin. injection Hin as -> ->.
      unfold updatePrev at 1. cbn [fst snd]. rewrite Hvis. cbn [fst].
      apply arraySet_lookup_eq.
Qed.

Lemma tick_synced (f : Frame) (e e' : Engine) (evs : list PluckEvent) :
  tick f e = Completed e' evs -> memorySynced e'.
Proof.
  intros Htick idx fg Hin Hvis.
  destruct (tick_state _ _ _ _ Htick) as (_ & Hcache & _ & _ & Hmem & _).
  rewrite Hcache in Hin.
  pose proof (prevLoop_synced (detected f e) idx fg Hin Hvis) as H.
  rewrite <- Hmem in H. exact H.
Qed.

Lemma memorySynced_no_cache (e : Engine) :
  lastLandmarksRef e = None -> memorySynced e.
Proof.
  intros Hnone idx fg Hin. rewrite Hnone in Hin.
  apply elem_of_nil in Hin. contradiction.
Qed.

Lemma crossed_in_place (x p : Q) : crossed x p x = false.
Proof.
  unfold crossed.
  destruct (Qltb x p) eqn:E1; destruct (Qgeb x p) eqn:E2;
    destruct (Qgtb x p) eqn:E3; destruct (Qle_bool x p) eqn:E4; try reflexivity;
    exfalso;
    try apply Qltb_lt in E1; try apply Qgeb_ge in E2;
    try apply Qgtb_gt in E3; try apply Qle_bool_iff in E4; lra.
Qed.

(** A finger remembered where it is seen crosses no string. *)
Lemma crossing_in_place (prevX : list (option Q)) (prevVisible : list bool)
    (str : StringConfig) (idx : nat) (fg : FingerPosition) :
  (visible fg = true -> prevX !! idx = Some (Some (finger_x fg))) ->
  crossing prevX prevVisible str (idx, fg) = false.
Proof.
  intros Hmem. unfold crossing. cbn [fst snd].
  destruct (visible fg); [|reflexivity]. rewrite (Hmem eq_refl).
  rewrite crossed_in_place, andb_false_r. reflexivity.
Qed.

Lemma find_all_false {A : Type} (P : A -> bool) (l : list A) :
  (forall x, x ∈ l -> P x = false) -> find P l = None.
Proof.
  induction l as [|a l IH]; intros H; [reflexivity|].
  cbn [find]. rewrite (H a) by apply list_elem_of_here.
  apply IH. intros x Hx. apply H, list_elem_of_further, Hx.
Qed.

Lemma plucker_in_place (now : Q) (fingers : list FingerPosition)
    (prevX : list (option Q)) (prevVisible : list bool)
    (last : option Q) (str : StringConfig) :
  (forall idx fg, (idx, fg) ∈ indexed fingers -> visible fg = true ->
                  prevX !! idx = Some (Some (finger_x fg))) ->
  plucker now fingers prevX prevVisible last str = None.
Proof.
  intros Hmem. unfold plucker. rewrite find_all_false.
  - destruct (Qgtb _ _); reflexivity.
  - intros [idx fg] Hin. apply crossing_in_place. apply Hmem, Hin.
Qed.

Lemma stringLoop_in_place (f : Frame) (e : Engine) :
  memorySynced e -> ls_events (stringLoop f e) = [].
Proof.
  intros Hsync. unfold stringLoop.
  set (s0 := {| ls_physics := stringPhysics e; ls_triggers := lastTriggerTimes e;
                ls_events := [] |}).
  assert (Hs0 : ls_events s0 = []) by reflexivity.
  clearbody s0. revert s0 Hs0.
  induction (stringsRef e) as [|str strs IH]; intros s0 Hs0; [exact Hs0|].
  cbn [fold_left]. apply IH. rewrite processString_eq.
  rewrite plucker_in_place by exact Hsync. exact Hs0.
Qed.

(** A frame on which the detector reports no hands leaves the cache alone. *)
Lemma detected_no_hands (f : Frame) (e : Engine) :
  detectorOutcome f = Normal (mkResult []) ->
  lastLandmarksRef (detected f e) = lastLandmarksRef e
  /\ prevFingerX (detected f e) = prevFingerX e.
Proof.
  intros Hout. unfold detected.
  destruct (cameraActiveRef e && (2 <=? readyState (video f))%nat); [|auto].
  unfold detect. rewrite Hout.
  destruct (negb (handLandmarker (visionService e))); cbn; [auto|].
  destruct (Qneb _ _); cbn; auto.
Qed.

Lemma bend_decayVibration (p : Physics) : bend (decayVibration p) = bend p.
Proof. unfold decayVibration. destruct (Qgtb _ _); reflexivity. Qed.

(** C5, as stated, fails. One string at x = 1/2 on a canvas 1000 wide; a
    finger is seen at x = 0.52, then the detector reports no hands on two
    further frames. The cached landmarks are not cleared, and the bend of
    the string stays at 12 instead of decaying. *)
Lemma no_hands_counterexample :
  let e0 := startedEngine (generateStringConfigs 1 MID) in
  let seen := fingerFrame 1000 0 1000 (52 # 100) (3 # 10) in
  let lost1 := frameWith 1000 (1 # 30) 1016 [] in
  let lost2 := frameWith 1000 (2 # 30) 1032 [] in
  let bendAfter frames :=
    bend (default zeroPhysics (stringPhysics (engineAfter frames e0) !! 0%nat)) in
  lastLandmarksRef (engineAfter [seen; lost1; lost2] e0)
  = Some [handWithTip (1 - (52 # 100)) (3 # 10)]
  /\ bendAfter [seen] == 12
  /\ bendAfter [seen; lost1] == 12
  /\ bendAfter [seen; lost1; lost2] == 12
  /\ snd (runFrames [seen; lost1; lost2] e0) = true.
Proof. vm_compute. repeat split; reflexivity. Qed.

(** C5, amended. On a frame that follows a completed frame and on which
    the detector reports no hands, the cached landmarks are kept as they
    are (they are cleared only when the camera is turned off), and no
    event fires. With distinct string ids, the bend of a string becomes
    the closest bend computed from the cached fingers when that is not 0,
    and is multiplied by 0.8 otherwise; in particular it is multiplied
    by 0.8 when the cache holds no hands. *)
Theorem no_hands_frame (f0 f : Frame) (e0 e e' : Engine) (evs0 evs : list PluckEvent) :
  tick f0 e0 = Completed e evs0 ->
  detectorOutcome f = Normal (mkResult []) ->
  tick f e = Completed e' evs ->
  lastLandmarksRef e' = lastLandmarksRef e
  /\ evs = []
  /\ (NoDup (map str_id (stringsRef e)) ->
      forall str, str ∈ stringsRef e ->
        let p0 := default zeroPhysics (stringPhysics e !! str_id str) in
        let closest :=
          closestBendOf (width f) str p0 (fingerPositions (lastLandmarksRef e)) in
        exists p', stringPhysics e' !! str_id str = Some p'
                   /\ bend p' = (if Qneb closest 0 then closest else bend p0 * (8 # 10))
                   /\ (lastLandmarksRef e = None -> bend p' = bend p0 * (8 # 10))).
Proof.
  intros Hprev Hlost Htick.
  pose proof (tick_synced _ _ _ _ Hprev) as Hsync.
  destruct (detected_no_hands f e Hlost) as [Hcache Hpx].
  destruct (tick_state _ _ _ _ Htick) as (_ & Hcache' & _).
  assert (Hsame : lastLandmarksRef e' = lastLandmarksRef e) by congruence.
  assert (Hsync1 : memorySynced (detected f e)).
  { intros idx fg Hin Hvis. rewrite Hcache in Hin. rewrite Hpx.
    apply (Hsync idx fg Hin Hvis). }
  split; [exact Hsame|]. split.
  - rewrite (tick_events _ _ _ _ Htick). apply stringLoop_in_place, Hsync1.
  - intros Hnd str Hstr p0 closest.
    destruct (tick_string f e e' evs str Htick Hnd Hstr) as (_ & Hphys & _).
    rewrite plucker_in_place in Hphys.
    + rewrite Hsame in Hphys. eexists. split; [exact Hphys|].
      rewrite bend_decayVibration. unfold bentPhysics, applyBend.
      fold p0. fold closest. split.
      * destruct (Qneb closest 0); reflexivity.
      * intros Hnone. subst closest. rewrite Hnone. reflexivity.
    + intros idx fg Hin Hvis. rewrite Hsame in Hin. apply (Hsync idx fg Hin Hvis).
Qed.

Lemma no_hands_frame_witness :
  let e0 := startedEngine (generateStringConfigs 1 MID) in
  let f0 := fingerFrame 1000 0 1000 (52 # 100) (3 # 10) in
  let f := frameWith 1000 (1 # 30) 1016 [] in
  let e := engineOf (tick f0 e0) in
  lastLandmarksRef (engineOf (tick f e)) = lastLandmarksRef e
  /\ eventsOfTick (tick f e) = [].
Proof.
  intros e0 f0 f e.
  destruct (no_hands_frame f0 f e0 e (engineOf (tick f e))
              (eventsOfTick (tick f0 e0)) (eventsOfTick (tick f e)))
    as (H1 & H2 & _).
  - vm_compute. reflexivity.
  - reflexivity.
  - vm_compute. reflexivity.
  - split; [exact H1|exact H2].
Defined.

(** ** A sweep across the strings *)

#[global] Instance Qltb_wd : Proper (Qeq ==> Qeq ==> eq) Qltb.
Proof. intros a a' Ea b b' Eb. unfold Qltb. rewrite Ea, Eb. reflexivity. Qed.

#[global] Instance crossed_wd : Proper (Qeq ==> Qeq ==> Qeq ==> eq) crossed.
Proof.
  intros a a' Ea b b' Eb c c' Ec. unfold crossed, Qgtb, Qgeb.
  rewrite Ea, Eb, Ec. reflexivity.
Qed.

#[global] Instance inInterval_wd : Proper (Qeq ==> Qeq ==> eq ==> eq) inInterval.
Proof.
  intros a a' Ea b b' Eb str str' <-. unfold inInterval.
  rewrite Ea, Eb. reflexivity.
Qed.

(** A finger that does not move left crosses exactly the strings in
    (from, to]. *)
Lemma crossed_rightwards (x p x' : Q) :
  x <= x' -> crossed x p x' = Qltb x p && Qle_bool p x'.
Proof.
  intros Hmono. unfold crossed, Qgeb.
  destruct (Qgtb x p && Qle_bool x' p) eqn:E; [|apply orb_false_r].
  apply andb_prop in E as [E1 E2].
  apply Qgtb_gt in E1. apply Qle_bool_iff in E2. exfalso. lra.
Qed.

Lemma filter_nothing {A : Type} (l : list A) : List.filter (fun _ => false) l = [].
Proof. induction l as [|a l IH]; [reflexivity|exact IH]. Qed.

(** Splitting an interval splits the strings of a sorted layout. *)
Lemma filter_interval_split (strs : list StringConfig) (a b c : Q) :
  StronglySorted (fun s1 s2 => xPos s1 < xPos s2) strs ->
  a <= b -> b <= c ->
  List.filter (inInterval a b) strs ++ List.filter (inInterval b c) strs
  = List.filter (inInterval a c) strs.
Proof.
  intros Hsorted Hab Hbc.
  induction Hsorted as [|str strs Hsorted IH Hall]; [reflexivity|].
  cbn [List.filter]. destruct (Qle_bool (xPos str) b) eqn:Hb.
  - apply Qle_bool_iff in Hb.
    assert (E1 : inInterval b c str = false).
    { unfold inInterval. apply andb_false_iff. left. apply Qltb_ge. exact Hb. }
    assert (E2 : inInterval a c str = inInterval a b str).
    { unfold inInterval. f_equal.
      transitivity true; [|symmetry]; apply Qle_bool_iff; lra. }
    rewrite E1, E2. destruct (inInterval a b str); cbn [app]; rewrite IH; reflexivity.
  - assert (Hlt : b < xPos str).
    { apply Qnot_le_lt. intros H. apply Qle_bool_iff in H. congruence. }
    assert (Hnone : forall s, In s (str :: strs) -> inInterval a b s = false).
    { intros s Hs. unfold inInterval. apply andb_false_iff. right.
      apply not_true_is_false. intros H. apply Qle_bool_iff in H.
      destruct Hs as [<- | Hs]; [lra|].
      rewrite List.Forall_forall in Hall. specialize (Hall s Hs). cbn in Hall. lra. }
    assert (Hsame : forall s, In s (str :: strs) -> inInterval b c s = inInterval a c s).
    { intros s Hs. unfold inInterval. f_equal.
      assert (b < xPos s).
      { destruct Hs as [<- | Hs]; [exact Hlt|].
        rewrite List.Forall_forall in Hall. specialize (Hall s Hs). cbn in Hall. lra. }
      transitivity true; [|symmetry]; apply Qltb_lt; lra. }
    change (List.filter (inInterval a b) (str :: strs)
            ++ List.filter (inInterval b c) (str :: strs)
            = List.filter (inInterval a c) (str :: strs)).
    rewrite (filter_ext_in _ (fun _ => false) _ Hnone).
    rewrite (filter_ext_in _ _ _ Hsame).
    rewrite filter_nothing. reflexivity.
Qed.

Lemma prevLoop_visible (e : Engine) (idx : nat) (fg : FingerPosition) :
  (idx, fg) ∈ indexed (fingerPositions (lastLandmarksRef e)) ->
  visible fg = true ->
  snd (prevLoop e) !! idx = Some true.
Proof.
  unfold prevLoop.
  destruct (fingerPositions_shape (lastLandmarksRef e)) as [-> | (a & b & ->)].
  - intros Hin. apply elem_of_nil in Hin. contradiction.
  - unfold indexed. cbn [length seq combine fold_left].
    intros Hin Hvis.
    apply elem_of_cons in Hin as [Hin | Hin].
    + injection Hin as -> ->. unfold updatePrev at 2. cbn [fst snd].
      rewrite Hvis. unfold updatePrev. cbn [fst snd].
      destruct (visible b); cbn [snd];
        (rewrite arraySet_lookup_ne; [apply arraySet_lookup_eq| |lia]);
        apply lookup_lt_is_Some; rewrite arraySet_lookup_eq; eauto.
    + apply list_elem_of_singleton in Hin. injection Hin as -> ->.
      unfold updatePrev at 1. cbn [fst snd]. rewrite Hvis. cbn [snd].
      apply arraySet_lookup_eq.
Qed.

Lemma handWithTip_tip (rawX y : Q) :
  handWithTip rawX y !! 8%nat = Some (mkLandmark rawX y).
Proof. reflexivity. Qed.

Lemma fingerPositions_one_hand (rawX y : Q) :
  fingerPositions (Some [handWithTip rawX y])
  = [ {| finger_x := 1 - rawX; finger_y := y; visible := true |}; invisibleFinger ].
Proof. reflexivity. Qed.

(** A finger frame on a running engine whose detector has not seen this
    video frame: the detector runs, its hand replaces the cache, and the
    tick reaches the interaction step. *)
Lemma tick_fingerFrame (w vt t x y : Q) (e : Engine) :
  cameraActiveRef e = true ->
  handLandmarker (visionService e) = true ->
  ~ vt == lastVideoTime (visionService e) ->
  tick (fingerFrame w vt t x y) e
  = interact (fingerFrame w vt t x y)
      (withVision {| handLandmarker := true; lastVideoTime := vt |}
                  (Some [handWithTip (1 - x) y]) e).
Proof.
  intros Hcam Hready Hnew. set (f := fingerFrame w vt t x y).
  assert (Hc : canvasReady f = true) by reflexivity.
  assert (Hv : video f = mkVideo vt 4) by reflexivity.
  assert (Ho : detectorOutcome f = Normal (mkResult [handWithTip (1 - x) y]))
    by reflexivity.
  clearbody f. unfold tick. rewrite Hc, Hv, Ho, Hcam.
  cbn [negb readyState andb Nat.leb].
  unfold detect. rewrite Hready. cbn [negb currentTime].
  apply Qneb_neq in Hnew. rewrite Hnew.
  cbn [detectReturn vs_after cacheAfter landmarks length Nat.ltb Nat.leb].
  unfold cursorReadable. rewrite handWithTip_tip.
  rewrite bool_decide_eq_true_2 by eauto. reflexivity.
Qed.

Lemma pluckEvents_ids (now : Q) (fingers : list FingerPosition)
    (prevX : list (option Q)) (prevVisible : list bool) (t : gmap nat Q)
    (sel : StringConfig -> bool) (strs : list StringConfig) :
  (forall str, str ∈ strs ->
     match plucker now fingers prevX prevVisible (t !! str_id str) str with
     | Some _ => true
     | None => false
     end = sel str) ->
  map stringId (pluckEvents now fingers prevX prevVisible t strs)
  = map str_id (List.filter sel strs).
Proof.
  induction strs as [|str strs IH]; intros Hsel; [reflexivity|].
  unfold pluckEvents in *. cbn [flat_map List.filter].
  rewrite map_app, IH by (intros s Hs; apply Hsel, list_elem_of_further, Hs).
  rewrite <- (Hsel str) by apply list_elem_of_here.
  destruct (plucker _ _ _ _ _ _); reflexivity.
Qed.

Section Sweep.

Variable strs : list StringConfig.
Hypothesis strs_distinct : NoDup (map str_id strs).
Hypothesis strs_sorted : StronglySorted (fun s1 s2 => xPos s1 < xPos s2) strs.

Variables w y : Q.
Hypothesis y_playable : y <= 67 # 100.

(** In a sweep, a string is plucked exactly when the finger passes it. *)
Lemma plucker_sweep (now x x' px : Q) (prevX : list (option Q))
    (prevVisible : list bool) (last : option Q) (str : StringConfig) :
  prevX !! 0%nat = Some (Some px) -> px == x ->
  prevVisible !! 0%nat = Some true ->
  x <= x' -> CONFIG.DEBOUNCE_MS < now ->
  (x < xPos str -> last = None) ->
  match plucker now (fingerPositions (Some [handWithTip (1 - x') y]))
                prevX prevVisible last str with
  | Some _ => true
  | None => false
  end = inInterval x x' str.
Proof.
  intros Hpx Epx Hpv Hmono Hnow Hlast.
  rewrite fingerPositions_one_hand. unfold plucker, indexed.
  cbn [length seq combine find].
  assert (Hc0 : crossing prevX prevVisible str
                  (0%nat, {| finger_x := 1 - (1 - x'); finger_y := y; visible := true |})
                = inInterval x x' str).
  { unfold crossing. cbn [fst snd visible finger_x finger_y andb].
    rewrite Hpx, Hpv. cbn [default].
    apply Qle_bool_iff in y_playable. rewrite y_playable. cbn [andb].
    assert (E : 1 - (1 - x') == x') by ring.
    rewrite E, Epx. apply crossed_rightwards, Hmono. }
  assert (Hc1 : crossing prevX prevVisible str (1%nat, invisibleFinger) = false)
    by reflexivity.
  rewrite Hc0, Hc1.
  destruct (inInterval x x' str) eqn:Hin.
  - unfold inInterval in Hin. apply andb_prop in Hin as [Hlt _].
    apply Qltb_lt in Hlt. rewrite (Hlast Hlt). cbn [default].
    assert (E : Qgtb (now - 0) CONFIG.DEBOUNCE_MS = true).
    { apply Qgtb_gt. lra. }
    rewrite E. reflexivity.
  - destruct (Qgtb _ _); reflexivity.
Qed.

(** One frame of the sweep: the strings between the old and the new
    position of the finger fire, in the order of the layout. *)
Lemma sweep_step (x vt : Q) (e : Engine) (st : SweepStep) :
  sweeping strs x vt e ->
  x <= sw_x st -> ~ sw_videoTime st == vt -> CONFIG.DEBOUNCE_MS < sw_now st ->
  exists e' evs,
    tick (sweepFrame w y st) e = Completed e' evs
    /\ sweeping strs (sw_x st) (sw_videoTime st) e'
    /\ map stringId evs = map str_id (List.filter (inInterval x (sw_x st)) strs).
Proof.
  intros (Hs & Hcam & Hready & Hvt & (px & Hpx & Epx) & Hpv & Hledger) Hmono Hnew Hnow.
  assert (Hnew' : ~ sw_videoTime st == lastVideoTime (visionService e)).
  { rewrite Hvt. exact Hnew. }
  pose proof (tick_fingerFrame w (sw_videoTime st) (sw_now st) (sw_x st) y e
                Hcam Hready Hnew') as Htick.
  fold (sweepFrame w y st) in Htick.
  set (f := sweepFrame w y st) in *.
  set (e1 := withVision {| handLandmarker := true; lastVideoTime := sw_videoTime st |}
                        (Some [handWithTip (1 - sw_x st) y]) e) in *.
  unfold interact in Htick.
  set (e' := mkEngine _ _ _ _ _ _ _ _) in Htick.
  set (evs := ls_events (stringLoop f e1)) in Htick.
  assert (Hcache : lastLandmarksRef e' = Some [handWithTip (1 - sw_x st) y])
    by reflexivity.
  assert (Hsel : forall str, str ∈ strs ->
            match plucker (sw_now st) (fingerPositions (lastLandmarksRef e'))
                          (prevFingerX e) (prevFingerVisible e)
                          (lastTriggerTimes e !! str_id str) str with
            | Some _ => true
            | None => false
            end = inInterval x (sw_x st) str).
  { intros str Hstr. rewrite Hcache.
    apply (plucker_sweep (sw_now st) x (sw_x st) px); try assumption.
    intros Hlt. apply (Hledger str Hstr Hlt). }
  exists e', evs. split; [exact Htick|]. split.
  - assert (Hfg : (0%nat, {| finger_x := 1 - (1 - sw_x st); finger_y := y;
                              visible := true |})
                  ∈ indexed (fingerPositions (lastLandmarksRef e1))).
    { cbn [e1 withVision lastLandmarksRef]. rewrite fingerPositions_one_hand.
      apply list_elem_of_here. }
    split; [exact Hs|]. split; [exact Hcam|]. split; [reflexivity|].
    split; [reflexivity|]. split; [|split].
    + eexists. split.
      * apply (prevLoop_synced e1 _ _ Hfg). reflexivity.
      * cbn [finger_x]. ring.
    + apply (prevLoop_visible e1 _ _ Hfg). reflexivity.
    + intros str Hstr Hright.
      destruct (tick_string f e e' evs str Htick
                  ltac:(rewrite Hs; exact strs_distinct)
                  ltac:(rewrite Hs; exact Hstr)) as (_ & _ & Hl).
      change (now f) with (sw_now st) in Hl.
      specialize (Hsel str Hstr).
      destruct (plucker _ _ _ _ _ _) as [y0|].
      * symmetry in Hsel. unfold inInterval in Hsel.
        apply andb_prop in Hsel as [_ Hle]. apply Qle_bool_iff in Hle.
        exfalso. lra.
      * rewrite Hl. apply (Hledger str Hstr). lra.
  - subst evs. unfold stringLoop.
    rewrite stringLoop_events
      by (cbn [e1 withVision stringsRef]; rewrite Hs; exact strs_distinct).
    cbn [ls_events ls_triggers app e1 withVision stringsRef lastTriggerTimes
         prevFingerX prevFingerVisible lastLandmarksRef].
    rewrite Hs. apply pluckEvents_ids. exact Hsel.
Qed.

End Sweep.

Lemma filter_empty_interval (x : Q) (strs : list StringConfig) :
  List.filter (inInterval x x) strs = [].
Proof.
  rewrite (filter_ext (inInterval x x) (fun _ => false)); [apply filter_nothing|].
  intros str. unfold inInterval.
  destruct (Qltb x (xPos str)) eqn:E1; [|reflexivity].
  destruct (Qle_bool (xPos str) x) eqn:E2; [|reflexivity].
  apply Qltb_lt in E1. apply Qle_bool_iff in E2. exfalso. lra.
Qed.

Lemma steadySweep_end (steps : list SweepStep) :
  forall x vt, steadySweep x vt steps -> x <= sweepEnd x steps.
Proof.
  induction steps as [|st steps IH]; intros x vt Hsteady; cbn [sweepEnd].
  - lra.
  - destruct Hsteady as (Hmono & _ & _ & Hrest).
    specialize (IH _ _ Hrest). lra.
Qed.

Section SweepRun.

Variable strs : list StringConfig.
Hypothesis strs_distinct : NoDup (map str_id strs).
Hypothesis strs_sorted : StronglySorted (fun s1 s2 => xPos s1 < xPos s2) strs.

Variables w y : Q.
Hypothesis y_playable : y <= 67 # 100.

(** The frames of a sweep all complete, and their events are those of
    the strings between the first and the last position of the finger,
    in the order of the layout. *)
Lemma sweep_run (steps : list SweepStep) :
  forall x vt e,
    sweeping strs x vt e -> steadySweep x vt steps ->
    exists e' evs,
      runFrames (map (sweepFrame w y) steps) e = (e', evs, true)
      /\ map stringId evs
         = map str_id (List.filter (inInterval x (sweepEnd x steps)) strs).
Proof.
  induction steps as [|st steps IH]; intros x vt e Hsweep Hsteady.
  - exists e, []. split; [reflexivity|].
    cbn [sweepEnd]. rewrite filter_empty_interval. reflexivity.
  - destruct Hsteady as (Hmono & Hnew & Hnow & Hrest).
    destruct (sweep_step strs strs_distinct w y y_playable x vt e st
                Hsweep Hmono Hnew Hnow) as (e1 & evs1 & Htick & Hsweep1 & Hids1).
    destruct (IH _ _ e1 Hsweep1 Hrest) as (e2 & evs2 & Hrun & Hids2).
    exists e2, (evs1 ++ evs2). split.
    + cbn [map runFrames]. rewrite Htick, Hrun. reflexivity.
    + rewrite map_app, Hids1, Hids2, <- map_app. cbn [sweepEnd].
      rewrite filter_interval_split; [reflexivity|exact strs_sorted|exact Hmono|].
      apply (steadySweep_end steps _ _ Hrest).
Qed.

(** The first frame of the sweep fires nothing and arms the memory. *)
Lemma sweep_first (st : SweepStep) :
  ~ sw_videoTime st == -1 ->
  exists e1,
    tick (sweepFrame w y st) (startedEngine strs) = Completed e1 []
    /\ sweeping strs (sw_x st) (sw_videoTime st) e1.
Proof.
  intros Hnew. set (e := startedEngine strs).
  pose proof (tick_fingerFrame w (sw_videoTime st) (sw_now st) (sw_x st) y e
                eq_refl eq_refl Hnew) as Htick.
  fold (sweepFrame w y st) in Htick.
  set (f := sweepFrame w y st) in *.
  set (e1 := withVision {| handLandmarker := true; lastVideoTime := sw_videoTime st |}
                        (Some [handWithTip (1 - sw_x st) y]) e) in *.
  unfold interact in Htick.
  set (e' := mkEngine _ _ _ _ _ _ _ _) in Htick.
  set (evs := ls_events (stringLoop f e1)) in Htick.
  assert (Hnone : forall last str,
            plucker (sw_now st) (fingerPositions (Some [handWithTip (1 - sw_x st) y]))
                    [None; None] [false; false] last str = None).
  { intros last str. rewrite fingerPositions_one_hand. unfold plucker, indexed.
    cbn [length seq combine find]. 
    change (crossing [None; None] [false; false] str _) with false.
    cbn [find].
    change (crossing [None; None] [false; false] str _) with false.
    destruct (Qgtb _ _); reflexivity. }
  assert (Hevs : evs = []).
  { apply (map_eq_nil stringId). subst evs. unfold stringLoop.
    rewrite stringLoop_events by exact strs_distinct.
    cbn [ls_events ls_triggers app].
    rewrite (pluckEvents_ids _ _ _ _ _ (fun _ => false)).
    - rewrite filter_nothing. reflexivity.
    - intros str _. 
      change (fingerPositions (lastLandmarksRef e1))
        with (fingerPositions (Some [handWithTip (1 - sw_x st) y])).
      change (prevFingerX e1) with [@None Q; None].
      change (prevFingerVisible e1) with [false; false].
      rewrite Hnone. reflexivity. }
  rewrite Hevs in Htick. exists e'. split; [exact Htick|].
  assert (Hfg : (0%nat, {| finger_x := 1 - (1 - sw_x st); finger_y := y;
                            visible := true |})
                ∈ indexed (fingerPositions (lastLandmarksRef e1))).
  { cbn [e1 withVision lastLandmarksRef]. rewrite fingerPositions_one_hand.
    apply list_elem_of_here. }
  split; [reflexivity|]. split; [reflexivity|]. split; [reflexivity|].
  split; [reflexivity|]. split; [|split].
  - eexists. split.
    + apply (prevLoop_synced e1 _ _ Hfg). reflexivity.
    + cbn [finger_x]. ring.
  - apply (prevLoop_visible e1 _ _ Hfg). reflexivity.
  - intros str Hstr _.
    destruct (tick_string f e e' [] str Htick strs_distinct Hstr) as (_ & _ & Hl).
    change (fingerPositions (lastLandmarksRef e'))
      with (fingerPositions (Some [handWithTip (1 - sw_x st) y])) in Hl.
    change (prevFingerX e) with [@None Q; None] in Hl.
    change (prevFingerVisible e) with [false; false] in Hl.
    change (now f) with (sw_now st) in Hl.
    rewrite Hnone in Hl. rewrite Hl. apply lookup_empty.
Qed.

End SweepRun.

Lemma generateStringConfigs_distinct (count : nat) (range : PitchRange) :
  NoDup (map str_id (generateStringConfigs count range)).
Proof. rewrite generateStringConfigs_ids. apply NoDup_seq. Qed.

Lemma generateStringConfigs_sorted (count : nat) (range : PitchRange) :
  StronglySorted (fun s1 s2 => xPos s1 < xPos s2) (generateStringConfigs count range).
Proof.
  unfold generateStringConfigs. generalize 0%nat as a. generalize count at 2 as n.
  induction n as [|n IH]; intros a; cbn [seq map]; constructor.
  - apply IH.
  - apply List.Forall_forall. intros c Hc. apply in_map_iff in Hc as (j & <- & Hj).
    apply in_seq in Hj. apply xPos_increasing. lia.
Qed.

(** C2, as stated, fails. With 12 strings and the mid pitch range, a
    finger at y = 0.3 that goes from x = 0.05 to x = 0.95 in two frames
    crosses every string once and fires the 12 events in ascending id
    order, but all at the same instant, not 120 ms apart. And when the
    frame times do not exceed 120 ms the same sweep fires nothing. *)
Lemma sweep_spacing_counterexample :
  let e := startedEngine (generateStringConfigs 12 MID) in
  let fast := [fingerFrame 1000 0 1000 (5 # 100) (3 # 10);
               fingerFrame 1000 (1 # 30) 1016 (95 # 100) (3 # 10)] in
  let early := [fingerFrame 1000 0 100 (5 # 100) (3 # 10);
                fingerFrame 1000 (1 # 30) 116 (95 # 100) (3 # 10)] in
  map stringId (eventsOfRun fast e) = seq 0 12
  /\ map triggerTimeMs (eventsOfRun fast e) = replicate 12 1016
  /\ eventsOfRun early e = [].
Proof. vm_compute. repeat split; reflexivity. Qed.

(** C2, amended. With 12 strings and the mid pitch range, a finger that
    stays visible at y = 0.3 and goes from x = 0.05 to x = 0.95 without
    ever moving left, seen on a new video frame at every animation frame
    and with every frame time above [DEBOUNCE_MS], fires exactly 12
    events, one per string id in ascending order. *)
Theorem sweep_plucks_each_string (w : Q) (first : SweepStep) (steps : list SweepStep) :
  sw_x first == 5 # 100 ->
  ~ sw_videoTime first == -1 ->
  steadySweep (sw_x first) (sw_videoTime first) steps ->
  sweepEnd (sw_x first) steps == 95 # 100 ->
  let frames := map (sweepFrame w (3 # 10)) (first :: steps) in
  let e := startedEngine (generateStringConfigs 12 MID) in
  map stringId (eventsOfRun frames e) = seq 0 12
  /\ snd (runFrames frames e) = true.
Proof.
  intros Hstart Hvt Hsteady Hend frames e.
  assert (Hy : 3 # 10 <= 67 # 100) by lra.
  destruct (sweep_first (generateStringConfigs 12 MID)
              (generateStringConfigs_distinct 12 MID) w (3 # 10) first Hvt)
    as (e1 & Htick & Hsweep).
  destruct (sweep_run (generateStringConfigs 12 MID)
              (generateStringConfigs_distinct 12 MID)
              (generateStringConfigs_sorted 12 MID) w (3 # 10) Hy steps
              _ _ e1 Hsweep Hsteady) as (e2 & evs & Hrun & Hids).
  unfold eventsOfRun. subst frames e. cbn [map runFrames].
  rewrite Htick, Hrun. cbn [fst snd app]. split; [|reflexivity].
  rewrite Hids.
  rewrite (filter_ext (inInterval (sw_x first) (sweepEnd (sw_x first) steps))
                      (inInterval (5 # 100) (95 # 100)))
    by (intros str; apply inInterval_wd; [exact Hstart|exact Hend|reflexivity]).
  vm_compute. reflexivity.
Qed.

Lemma sweep_plucks_each_string_witness :
  let first := mkSweepStep (5 # 100) 0 1000 in
  let steps := [mkSweepStep (1 # 2) (1 # 30) 1016;
                mkSweepStep (95 # 100) (2 # 30) 1032] in
  let frames := map (sweepFrame 1000 (3 # 10)) (first :: steps) in
  let e := startedEngine (generateStringConfigs 12 MID) in
  map stringId (eventsOfRun frames e) = seq 0 12
  /\ snd (runFrames frames e) = true.
Proof.
  intros first steps.
  apply (sweep_plucks_each_string 1000 first steps).
  - reflexivity.
  - intros H. discriminate H.
  - cbn [steadySweep steps sw_x sw_videoTime sw_now first].
    unfold CONFIG.DEBOUNCE_MS.
    repeat split; try lra; intros H; discriminate H.
  - reflexivity.
Defined.

(** * Further properties of the code *)

(** ** The layout: pitches *)

Lemma scale_letter (a : nat) :
  (a < 7)%nat ->
  nth a C_MAJOR_SCALE ""%string
  = String (nth a ["C"; "D"; "E"; "F"; "G"; "A"; "B"]%char "C"%char) EmptyString.
Proof.
  intros Ha. do 7 (destruct a as [|a]; [reflexivity|]). lia.
Qed.

Lemma scale_letter_inj (a b : nat) :
  (a < 7)%nat -> (b < 7)%nat ->
  nth a ["C"; "D"; "E"; "F"; "G"; "A"; "B"]%char "C"%char
  = nth b ["C"; "D"; "E"; "F"; "G"; "A"; "B"]%char "C"%char ->
  a = b.
Proof.
  intros Ha Hb.
  do 7 (destruct a as [|a];
        [do 7 (destruct b as [|b]; [cbn; first [reflexivity|discriminate]|]); lia|]).
  lia.
Qed.

Lemma to_uint_nonnil (n : nat) : Nat.to_uint n <> Decimal.Nil.
Proof.
  intros H. pose proof (DecimalNat.Unsigned.of_to n) as E.
  rewrite H in E. cbn in E. subst n. discriminate H.
Qed.

Lemma numberToString_inj (n m : nat) :
  numberToString n = numberToString m -> n = m.
Proof.
  unfold numberToString. intros H.
  apply DecimalNat.Unsigned.to_uint_inj.
  assert (Hn : NilZero.uint_of_string (NilZero.string_of_uint (Nat.to_uint n))
               = Some (Nat.to_uint n))
    by (apply NilZero.usu, to_uint_nonnil).
  assert (Hm : NilZero.uint_of_string (NilZero.string_of_uint (Nat.to_uint m))
               = Some (Nat.to_uint m))
    by (apply NilZero.usu, to_uint_nonnil).
  rewrite H in Hn. congruence.
Qed.

(** X1. No two strings of a layout are assigned the same note. *)
Theorem generateStringConfigs_notes_distinct (count : nat) (range : PitchRange)
    (i j : nat) (ci cj : StringConfig) :
  generateStringConfigs count range !! i = Some ci ->
  generateStringConfigs count range !! j = Some cj ->
  note ci = note cj -> i = j.
Proof.
  intros Hi Hj Hnote.
  apply generateStringConfigs_lookup_inv in Hi as [_ ->].
  apply generateStringConfigs_lookup_inv in Hj as [_ ->].
  unfold stringConfigAt in Hnote. cbn [note] in Hnote.
  change (length C_MAJOR_SCALE) with 7%nat in Hnote.
  assert (Hi7 : (i mod 7 < 7)%nat) by (apply Nat.mod_upper_bound; lia).
  assert (Hj7 : (j mod 7 < 7)%nat) by (apply Nat.mod_upper_bound; lia).
  rewrite (scale_letter _ Hi7), (scale_letter _ Hj7) in Hnote.
  cbn [append] in Hnote. injection Hnote as Hletter Hoctave.
  apply numberToString_inj in Hoctave.
  pose proof (scale_letter_inj _ _ Hi7 Hj7 Hletter) as Hmod.
  pose proof (Nat.div_mod_eq i 7) as Ei. pose proof (Nat.div_mod_eq j 7) as Ej.
  change (fst (Nat.divmod i 6 0 6)) with (i / 7)%nat in Hoctave.
  change (fst (Nat.divmod j 6 0 6)) with (j / 7)%nat in Hoctave.
  assert (Hdiv : (i / 7 = j / 7)%nat) by lia.
  rewrite Ei, Ej, Hdiv, Hmod. reflexivity.
Qed.

Lemma generateStringConfigs_notes_distinct_witness :
  3%nat = 3%nat.
Proof.
  apply (generateStringConfigs_notes_distinct 12 MID 3 3
           (stringConfigAt 12 4 3) (stringConfigAt 12 4 3)); reflexivity.
Defined.

(** ** The frequency of a note *)

Lemma indexOf_lookup (x : string) (l : list string) (k : nat) :
  indexOf x l = Some k -> l !! k = Some x.
Proof.
  revert k. induction l as [|y l IH]; intros k H; [discriminate H|].
  cbn [indexOf] in H. destruct (String.eqb x y) eqn:E.
  - injection H as <-. apply String.eqb_eq in E. subst y. reflexivity.
  - destruct (indexOf x l) as [k'|]; [|discriminate H].
    injection H as <-. apply (IH k' eq_refl).
Qed.

(** X3. For each of the twelve note names followed by one character, the
    MIDI number is 12 * (octave + 1) + semitone, where the semitone is the
    position of the name in the table and the octave is the digit when the
    character is a digit from 1 to 9, and 4 when it is 0 or not a digit. *)
Theorem getFrequencyFromNote_midi (semitone : nat) (name : string) (c : ascii) :
  NOTE_NAMES !! semitone = Some name ->
  getFrequencyFromNote (name ++ String c EmptyString)
  = FromMidi ((match digitOf c with
               | Some (S d) => S d
               | _ => 4%nat
               end + 1) * 12 + semitone).
Proof.
  intros Hname.
  do 12 (destruct semitone as [|semitone];
         [injection Hname as <-; reflexivity|]).
  discriminate Hname.
Qed.

(** "A4" is MIDI note 69, the reference pitch of 440 Hz. *)
Lemma getFrequencyFromNote_midi_witness :
  getFrequencyFromNote "A4" = FromMidi 69.
Proof.
  apply (getFrequencyFromNote_midi 9 "A" "4"). reflexivity.
Defined.

Lemma scale_note_midi (a n : nat) :
  (a < 7)%nat -> (1 <= n <= 9)%nat ->
  getFrequencyFromNote (nth a C_MAJOR_SCALE ""%string ++ numberToString n)
  = FromMidi ((n + 1) * 12 + nth a [0; 2; 4; 5; 7; 9; 11]%nat 0%nat).
Proof.
  intros Ha Hn.
  do 7 (destruct a as [|a];
        [do 10 (destruct n as [|n]; [first [lia|reflexivity]|]); lia|]).
  lia.
Qed.

Lemma semitones_ascend (i j : nat) :
  (i < j)%nat ->
  (12 * (i / 7) + nth (i mod 7) [0; 2; 4; 5; 7; 9; 11] 0
   < 12 * (j / 7) + nth (j mod 7) [0; 2; 4; 5; 7; 9; 11] 0)%nat.
Proof.
  intros Hij.
  pose proof (Nat.div_mod_eq i 7) as Ei. pose proof (Nat.div_mod_eq j 7) as Ej.
  pose proof (Nat.mod_upper_bound i 7 ltac:(lia)) as Hi.
  pose proof (Nat.mod_upper_bound j 7 ltac:(lia)) as Hj.
  set (a := (i mod 7)%nat) in *. set (b := (j mod 7)%nat) in *.
  set (p := (i / 7)%nat) in *. set (q := (j / 7)%nat) in *.
  clearbody a b p q.
  do 7 (destruct a as [|a];
        [do 7 (destruct b as [|b]; [cbn [nth]; lia|]); lia|]).
  lia.
Qed.

(** X4. As long as the octave of a string is at most 9 (which covers every
    string count and pitch range the control panel offers),
    [getFrequencyFromNote] recognises the note of every string, and the
    MIDI numbers increase strictly from left to right. *)
Theorem generated_notes_ascend (count : nat) (range : PitchRange)
    (i j : nat) (ci cj : StringConfig) :
  generateStringConfigs count range !! i = Some ci ->
  generateStringConfigs count range !! j = Some cj ->
  (i < j)%nat ->
  (octaveStartOf range + j / 7 <= 9)%nat ->
  exists mi mj,
    getFrequencyFromNote (note ci) = FromMidi mi
    /\ getFrequencyFromNote (note cj) = FromMidi mj
    /\ (mi < mj)%nat.
Proof.
  intros Hi Hj Hij Hoct.
  apply generateStringConfigs_lookup_inv in Hi as [_ ->].
  apply generateStringConfigs_lookup_inv in Hj as [_ ->].
  assert (Hnote : forall k,
            note (stringConfigAt count (octaveStartOf range) k)
            = (nth (k mod 7) C_MAJOR_SCALE "" ++ numberToString (octaveStartOf range + k / 7))%string)
    by reflexivity.
  assert (Hdiv : (i / 7 <= j / 7)%nat) by (apply Nat.Div0.div_le_mono; lia).
  assert (Ho : (3 <= octaveStartOf range)%nat) by (destruct range; cbn; lia).
  rewrite !Hnote.
  rewrite (scale_note_midi (i mod 7) (octaveStartOf range + i / 7))
    by (try apply Nat.mod_upper_bound; lia).
  rewrite (scale_note_midi (j mod 7) (octaveStartOf range + j / 7))
    by (try apply Nat.mod_upper_bound; lia).
  eexists. eexists. split; [reflexivity|]. split; [reflexivity|].
  pose proof (semitones_ascend i j Hij). lia.
Qed.

Lemma generated_notes_ascend_witness :
  exists mi mj,
    getFrequencyFromNote (note (stringConfigAt 32 5 30)) = FromMidi mi
    /\ getFrequencyFromNote (note (stringConfigAt 32 5 31)) = FromMidi mj
    /\ (mi < mj)%nat.
Proof.
  apply (generated_notes_ascend 32 HIGH 30 31).
  - reflexivity.
  - reflexivity.
  - lia.
  - cbn. lia.
Defined.

(** ** The audio service: what is heard *)

Lemma audioStep_ctx (sys : AudioSystem) (ev : AudioEvent) :
  ctx (service (audioStep sys ev)) = ctx (service sys).
Proof.
  destruct ev as [name | k loaded]; cbn [audioStep].
  - cbn [service]. unfold loadInstrument_call.
    destruct (negb (ctx (service sys))); [reflexivity|].
    destruct (_ && _); reflexivity.
  - destruct (inFlight sys !! k) as [[n loadingName]|]; [|reflexivity].
    cbn [service]. apply loadInstrument_resume_keeps.
Qed.

Lemma audioRun_ctx (evs : list AudioEvent) (sys : AudioSystem) :
  ctx (service (audioRun evs sys)) = ctx (service sys).
Proof.
  revert sys. induction evs as [|ev evs IH]; intros sys; [reflexivity|].
  cbn [audioRun fold_left]. fold (audioRun evs (audioStep sys ev)).
  rewrite IH. apply audioStep_ctx.
Qed.

Lemma audioStep_instrument (sys : AudioSystem) (ev : AudioEvent) :
  instrument (service (audioStep sys ev)) = instrument (service sys)
  \/ exists k n loadingName,
       ev = Settle k true
       /\ inFlight sys !! k = Some (n, loadingName)
       /\ instrument (service (audioStep sys ev))
          = Some {| playerFont := loadingName; playerLoad := n |}.
Proof.
  destruct ev as [name | k loaded]; cbn [audioStep].
  - left. cbn [service]. unfold loadInstrument_call.
    destruct (negb (ctx (service sys))); [reflexivity|].
    destruct (_ && _); reflexivity.
  - destruct (inFlight sys !! k) as [[n loadingName]|] eqn:Hk; [|left; reflexivity].
    cbn [service]. unfold loadInstrument_resume.
    destruct loaded; [|left; reflexivity].
    destruct (decide _); [|left; reflexivity].
    right. exists k, n, loadingName. cbn. auto.
Qed.

(** X5. The active instrument player changes only when a suspended load
    settles successfully: a call of [loadInstrument] keeps the player that
    is playing, and a failed load leaves it as it was. *)
Theorem instrument_changes_only_on_load (sys : AudioSystem) (ev : AudioEvent) :
  instrument (service (audioStep sys ev)) <> instrument (service sys) ->
  exists k n loadingName,
    ev = Settle k true
    /\ inFlight sys !! k = Some (n, loadingName)
    /\ instrument (service (audioStep sys ev))
       = Some {| playerFont := loadingName; playerLoad := n |}.
Proof.
  intros Hchanged. destruct (audioStep_instrument sys ev) as [Hsame | Hload].
  - contradiction.
  - exact Hload.
Qed.

Lemma instrument_changes_only_on_load_witness :
  let sys := audioRun [CallLoad marimba] (newAudioSystem true) in
  exists k n loadingName,
    Settle 0 true = Settle k true
    /\ inFlight sys !! k = Some (n, loadingName)
    /\ instrument (service (audioStep sys (Settle 0 true)))
       = Some {| playerFont := loadingName; playerLoad := n |}.
Proof.
  intros sys.
  apply (instrument_changes_only_on_load sys (Settle 0 true)).
  discriminate.
Defined.

(** X6. When the load that settles successfully is for the most recently
    requested instrument, its player becomes the active one. *)
Theorem requested_load_accepted (hasContext : bool) (evs : list AudioEvent)
    (k n : nat) (loadingName : InstrumentName) :
  let sys := audioRun evs (newAudioSystem hasContext) in
  inFlight sys !! k = Some (n, loadingName) ->
  lastRequested sys = Some loadingName ->
  instrument (service (audioStep sys (Settle k true)))
  = Some {| playerFont := loadingName; playerLoad := n |}.
Proof.
  intros sys Hk Hlast.
  assert (Hinv : audioInvariant sys) by apply audioInvariant_run, audioInvariant_init.
  cbn [audioStep]. rewrite Hk. cbn [service].
  destruct Hinv as [Hnil | [_ Hcur]].
  - rewrite Hnil in Hk. discriminate Hk.
  - unfold loadInstrument_resume.
    rewrite Hlast in Hcur. injection Hcur as Hcur.
    rewrite decide_True by congruence. reflexivity.
Qed.

Lemma requested_load_accepted_witness :
  let sys := audioRun [CallLoad marimba; CallLoad violin] (newAudioSystem true) in
  instrument (service (audioStep sys (Settle 1 true)))
  = Some {| playerFont := violin; playerLoad := 1 |}.
Proof.
  intros sys.
  apply (requested_load_accepted true [CallLoad marimba; CallLoad violin] 1 1 violin);
    reflexivity.
Defined.

(** X7. Without an audio context nothing is ever loaded or heard: no
    load is started, no player is set, and [playNote] is silent. *)
Theorem audio_without_context (evs : list AudioEvent) (note : string)
    (playThrows : bool) :
  let sys := audioRun evs (newAudioSystem false) in
  inFlight sys = []
  /\ instrument (service sys) = None
  /\ playNote (service sys) note playThrows = Silent.
Proof.
  intros sys. subst sys.
  assert (Hinv : forall s,
            ctx (service s) = false -> inFlight s = [] -> instrument (service s) = None ->
            inFlight (audioRun evs s) = [] /\ instrument (service (audioRun evs s)) = None).
  { induction evs as [|ev evs IH]; intros s Hc Hf Hi; [auto|].
    cbn [audioRun fold_left]. fold (audioRun evs (audioStep s ev)).
    apply IH.
    - rewrite audioStep_ctx. exact Hc.
    - destruct ev as [name | k loaded]; cbn [audioStep].
      + cbn [inFlight]. rewrite loadInstrument_call_no_context by exact Hc. exact Hf.
      + rewrite Hf, lookup_nil. exact Hf.
    - destruct ev as [name | k loaded]; cbn [audioStep].
      + cbn [service]. rewrite loadInstrument_call_no_context by exact Hc. exact Hi.
      + rewrite Hf, lookup_nil. exact Hi. }
  destruct (Hinv (newAudioSystem false) eq_refl eq_refl eq_refl) as [H1 H2].
  split; [exact H1|]. split; [exact H2|].
  unfold playNote. rewrite audioRun_ctx. reflexivity.
Qed.

(** X8. With an audio context every note is heard: by the loaded player,
    or by the fallback tone when no player is loaded or the player throws.
    As long as no load has settled successfully, it is the fallback tone. *)
Theorem playNote_always_sounds (evs : list AudioEvent) (note : string)
    (playThrows : bool) :
  let sys := audioRun evs (newAudioSystem true) in
  playNote (service sys) note playThrows <> Silent
  /\ (playThrows = true ->
      playNote (service sys) note playThrows
      = FallbackTone (getFrequencyFromNote note))
  /\ ((forall k, ~ In (Settle k true) evs) ->
      playNote (service sys) note playThrows
      = FallbackTone (getFrequencyFromNote note)).
Proof.
  intros sys.
  assert (Hctx : ctx (service sys) = true) by apply audioRun_ctx.
  unfold playNote. rewrite Hctx. cbn [negb]. split; [|split].
  - destruct (instrument (service sys)); [destruct playThrows|]; discriminate.
  - intros ->. destruct (instrument (service sys)); reflexivity.
  - intros Hnone.
    assert (Hinst : instrument (service sys) = None).
    { subst sys. clear Hctx.
      assert (Hgen : forall s, instrument (service s) = None ->
                instrument (service (audioRun evs s)) = None).
      { induction evs as [|ev evs IH]; intros s Hs; [exact Hs|].
        cbn [audioRun fold_left]. fold (audioRun evs (audioStep s ev)).
        apply IH.
        - intros k Hk. apply (Hnone k). right. exact Hk.
        - destruct (audioStep_instrument s ev) as [E | (k & _ & _ & -> & _)].
          + congruence.
          + exfalso. apply (Hnone k). left. reflexivity. }
      apply Hgen. reflexivity. }
    rewrite Hinst. reflexivity.
Qed.

(** ** The hand-tracking adapter: the first frame *)

(** X9. On a freshly initialized adapter, the first call with a video
    time that is not negative always runs the detector: the initial
    sentinel -1 never hides a frame. *)
Theorem detect_first_frame (vs : VisionService) (v : Video)
    (o : Completion HandLandmarkerResult) :
  initialize true newVisionService = Normal vs ->
  0 <= currentTime v ->
  detectorInvoked (detect vs v o) = true
  /\ detectReturn (detect vs v o)
     = match o with
       | Normal r => Normal (Some r)
       | Throw => Throw
       end
  /\ lastVideoTime (vs_after (detect vs v o)) = currentTime v.
Proof.
  intros Hinit Htime. cbn in Hinit. injection Hinit as <-.
  unfold detect. cbn [handLandmarker lastVideoTime negb].
  assert (E : Qneb (currentTime v) (-1) = true).
  { apply Qneb_neq. intros H. rewrite H in Htime. lra. }
  rewrite E. cbn. auto.
Qed.

Lemma detect_first_frame_witness :
  let vs := {| handLandmarker := true; lastVideoTime := -1 |} in
  detectorInvoked (detect vs (mkVideo 0 4) Throw) = true
  /\ detectReturn (detect vs (mkVideo 0 4) Throw) = Throw
  /\ lastVideoTime (vs_after (detect vs (mkVideo 0 4) Throw)) = 0.
Proof.
  intros vs.
  apply (detect_first_frame vs (mkVideo 0 4) Throw).
  - reflexivity.
  - cbn. lra.
Defined.

(** ** Crossings and events *)

Lemma crossed_spec (px p x : Q) :
  crossed px p x = true <-> (px < p /\ p <= x) \/ (p < px /\ x <= p).
Proof.
  unfold crossed. rewrite orb_true_iff, !andb_true_iff.
  rewrite Qltb_lt, Qgeb_ge, Qgtb_gt, Qle_bool_iff. reflexivity.
Qed.

Lemma crossing_spec (e : Engine) (str : StringConfig) (idx : nat) (fg : FingerPosition) :
  crossing (prevFingerX e) (prevFingerVisible e) str (idx, fg) = true
  <-> fingerCrosses e str idx fg.
Proof.
  unfold crossing, fingerCrosses. cbn [fst snd]. split.
  - intros H. apply andb_prop in H as [Hvis H].
    destruct (prevFingerX e !! idx) as [[px|]|]; try discriminate H.
    apply andb_prop in H as [H Hcross]. apply andb_prop in H as [Hwas Hy].
    split; [exact Hvis|]. split.
    + destruct (prevFingerVisible e !! idx) as [[|]|]; cbn in Hwas;
        first [reflexivity|discriminate Hwas].
    + split; [apply Qle_bool_iff, Hy|].
      exists px. split; [reflexivity|]. apply crossed_spec, Hcross.
  - intros (Hvis & Hwas & Hy & px & Hpx & Hcross).
    rewrite Hvis, Hpx, Hwas. cbn [default andb].
    apply Qle_bool_iff in Hy. rewrite Hy. cbn [andb].
    apply crossed_spec, Hcross.
Qed.

(** Every event of the string loop comes from a finger that crosses. *)
Lemma stringLoop_events_crossing (f : Frame) (e : Engine) (ev : PluckEvent) :
  ev ∈ ls_events (stringLoop f e) ->
  exists str idx fg,
    str ∈ stringsRef e
    /\ ev = mkPluck (str_id str) (now f) (finger_y fg)
    /\ (idx, fg) ∈ indexed (fingerPositions (lastLandmarksRef e))
    /\ fingerCrosses e str idx fg.
Proof.
  unfold stringLoop.
  set (s0 := {| ls_physics := stringPhysics e; ls_triggers := lastTriggerTimes e;
                ls_events := [] |}).
  assert (Hgen : forall strs s,
            (forall str, str ∈ strs -> str ∈ stringsRef e) ->
            ev ∈ ls_events (fold_left
                    (processString (width f) (now f) (fingerPositions (lastLandmarksRef e))
                                   (prevFingerX e) (prevFingerVisible e)) strs s) ->
            ev ∈ ls_events s
            \/ exists str idx fg,
                 str ∈ stringsRef e
                 /\ ev = mkPluck (str_id str) (now f) (finger_y fg)
                 /\ (idx, fg) ∈ indexed (fingerPositions (lastLandmarksRef e))
                 /\ fingerCrosses e str idx fg).
  { induction strs as [|str strs IH]; intros s Hsub Hev; [left; exact Hev|].
    cbn [fold_left] in Hev.
    destruct (IH _ (fun x Hx => Hsub x (list_elem_of_further _ _ _ Hx)) Hev)
      as [Hin | Hex]; [|right; exact Hex].
    rewrite processString_eq in Hin. unfold plucker in Hin.
    destruct (Qgtb _ _); [|left; exact Hin].
    destruct (find _ _) as [[idx fg]|] eqn:Hfind; [|left; exact Hin].
    cbn [option_map ls_events snd] in Hin.
    apply elem_of_app in Hin as [Hin | Hin]; [left; exact Hin|].
    apply list_elem_of_singleton in Hin. right.
    apply find_some in Hfind as [Hmem Hcross].
    exists str, idx, fg. split; [apply Hsub, list_elem_of_here|].
    split; [exact Hin|]. split; [apply list_elem_of_In, Hmem|].
    apply crossing_spec, Hcross. }
  intros Hev. destruct (Hgen (stringsRef e) s0 (fun _ H => H) Hev) as [Hnil | Hex].
  - apply elem_of_nil in Hnil. contradiction.
  - exact Hex.
Qed.

Lemma fingerCrosses_detected (f : Frame) (e : Engine) (str : StringConfig)
    (idx : nat) (fg : FingerPosition) :
  fingerCrosses (detected f e) str idx fg <-> fingerCrosses e str idx fg.
Proof.
  destruct (detected_fields f e) as (_ & Hpx & Hpv & _).
  unfold fingerCrosses. rewrite Hpx, Hpv. reflexivity.
Qed.

Lemma tick_events_crossing (f : Frame) (e e' : Engine) (evs : list PluckEvent)
    (ev : PluckEvent) :
  tick f e = Completed e' evs ->
  ev ∈ evs ->
  exists str idx fg,
    str ∈ stringsRef e
    /\ ev = mkPluck (str_id str) (now f) (finger_y fg)
    /\ (idx, fg) ∈ indexed (fingerPositions (lastLandmarksRef e'))
    /\ fingerCrosses e str idx fg.
Proof.
  intros Htick Hev. rewrite (tick_events _ _ _ _ Htick) in Hev.
  destruct (tick_state _ _ _ _ Htick) as (_ & Hcache & _).
  destruct (detected_fields f e) as (Hs & _).
  destruct (stringLoop_events_crossing f (detected f e) ev Hev)
    as (str & idx & fg & Hstr & Hmk & Hin & Hcross).
  exists str, idx, fg. rewrite Hs in Hstr. rewrite <- Hcache in Hin.
  split; [exact Hstr|]. split; [exact Hmk|]. split; [exact Hin|].
  apply (fingerCrosses_detected f e), Hcross.
Qed.

(** X10. Every Pluck Event of a tick is for one of the current strings, is
    stamped with the frame time, and carries the height of a finger of
    this frame that is visible, was visible in the previous frame, is in
    the upper 67 percent of the frame, and went from one side of the
    string to the other (or onto it). *)
Theorem events_need_crossing (f : Frame) (e e' : Engine) (evs : list PluckEvent)
    (ev : PluckEvent) :
  tick f e = Completed e' evs ->
  ev ∈ evs ->
  exists str idx fg,
    str ∈ stringsRef e
    /\ ev = mkPluck (str_id str) (now f) (finger_y fg)
    /\ (idx, fg) ∈ indexed (fingerPositions (lastLandmarksRef e'))
    /\ fingerCrosses e str idx fg.
Proof. apply tick_events_crossing. Qed.

Lemma events_need_crossing_witness :
  let e := engineOf (tick (twoFingerFrame 1000 0 1000 (4 # 10) (6 # 10) (3 # 10))
                          (startedEngine (generateStringConfigs 1 MID))) in
  let f := twoFingerFrame 1000 (1 # 30) 1016 (6 # 10) (4 # 10) (3 # 10) in
  exists str idx fg,
    str ∈ stringsRef e
    /\ mkPluck 0 1016 (3 # 10) = mkPluck (str_id str) (now f) (finger_y fg)
    /\ (idx, fg) ∈ indexed (fingerPositions (lastLandmarksRef (engineOf (tick f e))))
    /\ fingerCrosses e str idx fg.
Proof.
  intros e f.
  apply (events_need_crossing f e (engineOf (tick f e)) (eventsOfTick (tick f e))).
  - vm_compute. reflexivity.
  - vm_compute. apply list_elem_of_here.
Defined.

(** X11. A finger that crosses a string between two consecutive frames,
    in the playable zone, while the string is outside its debounce
    window, fires exactly one Pluck Event for that string (ids being
    distinct); the ledger entry of the string becomes the frame time, its
    bend is reset to 0, and its vibration, set to 1 and decayed once by
    the render of the same frame, is 0.92. *)
Theorem crossing_fires_once (f : Frame) (e e' : Engine) (evs : list PluckEvent)
    (str : StringConfig) (idx : nat) (fg : FingerPosition) :
  tick f e = Completed e' evs ->
  NoDup (map str_id (stringsRef e)) ->
  str ∈ stringsRef e ->
  (idx, fg) ∈ indexed (fingerPositions (lastLandmarksRef e')) ->
  fingerCrosses e str idx fg ->
  CONFIG.DEBOUNCE_MS < now f - default 0 (lastTriggerTimes e !! str_id str) ->
  (exists y, eventsOf (str_id str) evs = [mkPluck (str_id str) (now f) y]
             /\ y <= 67 # 100)
  /\ lastTriggerTimes e' !! str_id str = Some (now f)
  /\ stringPhysics e' !! str_id str = Some {| vibration := 1 * (92 # 100); bend := 0 |}.
Proof.
  intros Htick Hnd Hstr Hin Hcross Hopen.
  destruct (tick_string f e e' evs str Htick Hnd Hstr) as (Hev & Hphys & Hled).
  apply crossing_spec in Hcross.
  unfold plucker in Hev, Hphys, Hled.
  apply Qgtb_gt in Hopen. rewrite Hopen in Hev, Hphys, Hled.
  destruct (find _ _) as [[idx' fg']|] eqn:Hfind.
  - cbn [option_map snd] in Hev, Hphys, Hled.
    split; [|split; [exact Hled|exact Hphys]].
    exists (finger_y fg'). split; [exact Hev|].
    apply find_some in Hfind as [_ Hc].
    apply crossing_spec in Hc. destruct Hc as (_ & _ & Hy & _). exact Hy.
  - exfalso. apply list_elem_of_In in Hin.
    pose proof (find_none _ _ Hfind _ Hin) as Hc. congruence.
Qed.

Lemma crossing_fires_once_witness :
  let e := engineOf (tick (fingerFrame 1000 0 1000 (4 # 10) (3 # 10))
                          (startedEngine (generateStringConfigs 1 MID))) in
  let f := fingerFrame 1000 (1 # 30) 1016 (6 # 10) (3 # 10) in
  let e' := engineOf (tick f e) in
  (exists y, eventsOf 0 (eventsOfTick (tick f e)) = [mkPluck 0 1016 y]
             /\ y <= 67 # 100)
  /\ lastTriggerTimes e' !! 0%nat = Some 1016
  /\ stringPhysics e' !! 0%nat = Some {| vibration := 1 * (92 # 100); bend := 0 |}.
Proof.
  intros e f e'.
  apply (crossing_fires_once f e e' (eventsOfTick (tick f e)) (stringConfigAt 1 4 0)
           0 {| finger_x := 1 - (1 - (6 # 10)); finger_y := 3 # 10; visible := true |}).
  - vm_compute. reflexivity.
  - vm_compute. apply NoDup_singleton.
  - vm_compute. apply list_elem_of_here.
  - vm_compute. apply list_elem_of_here.
  - split; [reflexivity|]. split; [vm_compute; reflexivity|].
    split; [cbn; lra|]. exists (1 - (1 - (4 # 10))).
    split; [vm_compute; reflexivity|]. left.
    split; [vm_compute; reflexivity|vm_compute; discriminate].
  - vm_compute. reflexivity.
Defined.

(** X12. After the camera has been turned off and on again, the first
    tick fires no event, wherever the fingers are and wherever they were
    before: the memory of the previous positions was cleared. *)
Theorem restart_is_clean (f : Frame) (e e' : Engine) (evs : list PluckEvent) :
  tick f (setCameraActive true (setCameraActive false e)) = Completed e' evs ->
  evs = [].
Proof.
  intros Htick. destruct evs as [|ev evs]; [reflexivity|]. exfalso.
  destruct (tick_events_crossing f _ e' (ev :: evs) ev Htick (list_elem_of_here _ _))
    as (str & idx & fg & _ & _ & _ & Hcross).
  destruct Hcross as (_ & Hwas & _).
  cbn in Hwas. destruct idx as [|[|idx]]; discriminate Hwas.
Qed.

Lemma restart_is_clean_witness :
  let e := engineOf (tick (fingerFrame 1000 0 1000 (4 # 10) (3 # 10))
                          (startedEngine (generateStringConfigs 1 MID))) in
  let f := fingerFrame 1000 (1 # 30) 1016 (6 # 10) (3 # 10) in
  eventsOfTick (tick f (setCameraActive true (setCameraActive false e))) = [].
Proof.
  intros e f.
  apply (restart_is_clean f e
           (engineOf (tick f (setCameraActive true (setCameraActive false e))))).
  vm_compute. reflexivity.
Defined.

(** ** The physics state and the ledger across a tick *)

Lemma processString_is_Some (w now : Q) (fingers : list FingerPosition)
    (prevX : list (option Q)) (prevVisible : list bool)
    (s : LoopState) (str : StringConfig) (i : nat) :
  i = str_id str \/ is_Some (ls_physics s !! i) ->
  is_Some (ls_physics (processString w now fingers prevX prevVisible s str) !! i).
Proof.
  intros H. rewrite processString_eq.
  destruct (plucker _ _ _ _ _ _); cbn [ls_physics];
    rewrite lookup_insert; destruct (decide (str_id str = i)) as [E|E];
    try (eexists; reflexivity);
    (destruct H as [H|H]; [congruence|exact H]).
Qed.

Lemma stringLoop_is_Some (w now : Q) (fingers : list FingerPosition)
    (prevX : list (option Q)) (prevVisible : list bool)
    (strs : list StringConfig) (s : LoopState) (i : nat) :
  i ∈ map str_id strs \/ is_Some (ls_physics s !! i) ->
  is_Some (ls_physics (fold_left (processString w now fingers prevX prevVisible) strs s) !! i).
Proof.
  revert s. induction strs as [|str strs IH]; intros s H.
  - destruct H as [H|H]; [apply elem_of_nil in H; contradiction|exact H].
  - cbn [fold_left]. apply IH. cbn [map] in H.
    destruct H as [H|H].
    + apply elem_of_cons in H as [H|H]; [|left; exact H].
      right. apply processString_is_Some. left. exact H.
    + right. apply processString_is_Some. right. exact H.
Qed.

Lemma renderStringsAndEffects_is_Some (strs : list StringConfig)
    (m : gmap nat Physics) (i : nat) :
  is_Some (renderStringsAndEffects strs m !! i) <-> is_Some (m !! i).
Proof.
  unfold renderStringsAndEffects. revert m.
  induction strs as [|str strs IH]; intros m; [reflexivity|].
  cbn [fold_left]. rewrite IH. apply lookup_alter_is_Some.
Qed.

Lemma renderStringsAndEffects_outside (strs : list StringConfig)
    (m : gmap nat Physics) (i : nat) :
  i ∉ map str_id strs -> renderStringsAndEffects strs m !! i = m !! i.
Proof.
  unfold renderStringsAndEffects. revert m.
  induction strs as [|str strs IH]; intros m Hi; [reflexivity|].
  cbn [fold_left map] in *. apply not_elem_of_cons in Hi as [Hne Hi].
  rewrite IH by exact Hi. apply lookup_alter_ne. congruence.
Qed.

(** X13. After a completed tick every current string has a physics entry
    (created on the first frame it is seen), and the physics and ledger
    entries of ids that are not current strings are left exactly as they
    were. *)
Theorem physics_entries (f : Frame) (e e' : Engine) (evs : list PluckEvent) :
  tick f e = Completed e' evs ->
  (forall str, str ∈ stringsRef e -> is_Some (stringPhysics e' !! str_id str))
  /\ (forall i, i ∉ map str_id (stringsRef e) ->
        stringPhysics e' !! i = stringPhysics e !! i
        /\ lastTriggerTimes e' !! i = lastTriggerTimes e !! i).
Proof.
  intros Htick.
  destruct (tick_state _ _ _ _ Htick) as (_ & _ & Htrig & Hphys & _).
  destruct (detected_fields f e) as (Hs & _ & _ & Ht & Hp & _).
  unfold stringLoop in Htrig, Hphys. rewrite Hs in Htrig, Hphys.
  split.
  - intros str Hstr. rewrite Hphys. apply renderStringsAndEffects_is_Some.
    apply stringLoop_is_Some. left. apply list_elem_of_fmap. exists str. auto.
  - intros i Hi. rewrite Hphys, Htrig.
    rewrite renderStringsAndEffects_outside by exact Hi.
    destruct (stringLoop_outside (width f) (now f)
                (fingerPositions (lastLandmarksRef (detected f e)))
                (prevFingerX (detected f e)) (prevFingerVisible (detected f e))
                (stringsRef e)
                {| ls_physics := stringPhysics (detected f e);
                   ls_triggers := lastTriggerTimes (detected f e);
                   ls_events := [] |} i Hi) as [H1 H2].
    cbn [ls_physics ls_triggers] in H1, H2. rewrite H1, H2, Hp, Ht. auto.
Qed.

Lemma physics_entries_witness :
  let e := startedEngine (generateStringConfigs 12 MID) in
  let f := fingerFrame 1000 0 1000 (4 # 10) (3 # 10) in
  (forall str, str ∈ stringsRef e ->
     is_Some (stringPhysics (engineOf (tick f e)) !! str_id str))
  /\ (forall i, i ∉ map str_id (stringsRef e) ->
        stringPhysics (engineOf (tick f e)) !! i = stringPhysics e !! i
        /\ lastTriggerTimes (engineOf (tick f e)) !! i = lastTriggerTimes e !! i).
Proof.
  intros e f.
  apply (physics_entries f e (engineOf (tick f e)) (eventsOfTick (tick f e))).
  vm_compute. reflexivity.
Defined.

Lemma stringLoop_ledger (w now : Q) (fingers : list FingerPosition)
    (prevX : list (option Q)) (prevVisible : list bool)
    (strs : list StringConfig) (s : LoopState) (i : nat) :
  let s' := fold_left (processString w now fingers prevX prevVisible) strs s in
  (eventsOf i (ls_events s) <> [] -> eventsOf i (ls_events s') <> [])
  /\ (ls_triggers s' !! i = ls_triggers s !! i
      \/ (ls_triggers s' !! i = Some now /\ eventsOf i (ls_events s') <> [])).
Proof.
  revert s. induction strs as [|str strs IH]; intros s; cbn [fold_left].
  - split; auto.
  - rewrite processString_eq.
    destruct (plucker now fingers prevX prevVisible (ls_triggers s !! str_id str) str)
      as [y|];
      match goal with
      | |- context [fold_left _ strs ?s1] => destruct (IH s1) as [IHmono IHled]
      end;
      cbn [ls_events ls_triggers] in IHmono, IHled.
    + rewrite eventsOf_app in IHmono. split.
      * intros Hne. apply IHmono. intros Hnil.
        apply app_eq_nil in Hnil as [Hnil _]. contradiction.
      * destruct IHled as [Hsame | Hfired]; [|right; exact Hfired].
        rewrite lookup_insert in Hsame.
        destruct (decide (str_id str = i)) as [E|E]; [|left; exact Hsame].
        right. split; [exact Hsame|]. apply IHmono.
        unfold eventsOf at 2. rewrite filter_cons_True by exact E.
        intros Hnil. apply app_eq_nil in Hnil as [_ Hnil]. discriminate Hnil.
    + split; [exact IHmono|exact IHled].
Qed.

(** X14. The ledger entry of a string id changes in a tick only when that
    string fires in the tick, and then it becomes the frame time; entries
    are never removed. *)
Theorem ledger_changes_only_on_fire (f : Frame) (e e' : Engine)
    (evs : list PluckEvent) (i : nat) :
  tick f e = Completed e' evs ->
  lastTriggerTimes e' !! i = lastTriggerTimes e !! i
  \/ (lastTriggerTimes e' !! i = Some (now f) /\ eventsOf i evs <> []).
Proof.
  intros Htick.
  destruct (tick_state _ _ _ _ Htick) as (_ & _ & Htrig & _).
  pose proof (tick_events _ _ _ _ Htick) as Hevs.
  destruct (detected_fields f e) as (_ & _ & _ & Ht & _).
  unfold stringLoop in Htrig, Hevs.
  destruct (stringLoop_ledger (width f) (now f)
              (fingerPositions (lastLandmarksRef (detected f e)))
              (prevFingerX (detected f e)) (prevFingerVisible (detected f e))
              (stringsRef (detected f e))
              {| ls_physics := stringPhysics (detected f e);
                 ls_triggers := lastTriggerTimes (detected f e);
                 ls_events := [] |} i) as [_ Hled].
  cbn [ls_triggers] in Hled. rewrite <- Htrig, <- Hevs, Ht in Hled. exact Hled.
Qed.

Lemma ledger_changes_only_on_fire_witness :
  let e := engineOf (tick (fingerFrame 1000 0 1000 (4 # 10) (3 # 10))
                          (startedEngine (generateStringConfigs 1 MID))) in
  let f := fingerFrame 1000 (1 # 30) 1016 (6 # 10) (3 # 10) in
  lastTriggerTimes (engineOf (tick f e)) !! 0%nat = lastTriggerTimes e !! 0%nat
  \/ (lastTriggerTimes (engineOf (tick f e)) !! 0%nat = Some (now f)
      /\ eventsOf 0 (eventsOfTick (tick f e)) <> []).
Proof.
  intros e f.
  apply (ledger_changes_only_on_fire f e (engineOf (tick f e))).
  vm_compute. reflexivity.
Defined.

(** ** The memory arrays *)

Lemma arraySet_length {A : Type} (hole : A) (i : nat) (v : A) (l : list A) :
  (i < length l)%nat -> length (arraySet hole i v l) = length l.
Proof.
  intros Hi. unfold arraySet. apply Nat.ltb_lt in Hi. rewrite Hi.
  apply length_insert.
Qed.

Lemma prevLoop_length (e : Engine) :
  length (prevFingerX e) = 2%nat -> length (prevFingerVisible e) = 2%nat ->
  length (fst (prevLoop e)) = 2%nat /\ length (snd (prevLoop e)) = 2%nat.
Proof.
  intros Hx Hv. unfold prevLoop.
  destruct (fingerPositions_shape (lastLandmarksRef e)) as [-> | (a & b & ->)].
  - cbn. auto.
  - unfold indexed. cbn [length seq combine fold_left].
    unfold updatePrev. cbn [fst snd].
    destruct (visible a), (visible b); cbn [fst snd];
      rewrite ?arraySet_length; rewrite ?arraySet_length; auto; lia.
Qed.

Lemma tick_memory_length (f : Frame) (e : Engine) :
  length (prevFingerX e) = 2%nat -> length (prevFingerVisible e) = 2%nat ->
  length (prevFingerX (engineOf (tick f e))) = 2%nat
  /\ length (prevFingerVisible (engineOf (tick f e))) = 2%nat.
Proof.
  intros Hx Hv.
  assert (Hint : forall e1, prevFingerX e1 = prevFingerX e ->
            prevFingerVisible e1 = prevFingerVisible e ->
            length (prevFingerX (engineOf (interact f e1))) = 2%nat
            /\ length (prevFingerVisible (engineOf (interact f e1))) = 2%nat).
  { intros e1 E1 E2. unfold interact. cbn [engineOf prevFingerX prevFingerVisible].
    apply prevLoop_length; congruence. }
  unfold tick. destruct (negb (canvasReady f)); [auto|].
  destruct (cameraActiveRef e && (2 <=? readyState (video f))%nat);
    [|apply Hint; reflexivity].
  destruct (detectReturn _) as [results|]; [|auto].
  destruct (cursorReadable _); [apply Hint; reflexivity|auto].
Qed.

(** X15. The two memory arrays of the previous finger positions keep
    their two slots through every sequence of engine operations: the
    writes of [tick] are always in range, so the arrays never grow. *)
Theorem memory_keeps_two_slots (strings : list StringConfig) (ops : list EngineOp) :
  length (prevFingerX (runOps ops (newEngine strings))) = 2%nat
  /\ length (prevFingerVisible (runOps ops (newEngine strings))) = 2%nat.
Proof.
  assert (Hgen : forall e,
            length (prevFingerX e) = 2%nat /\ length (prevFingerVisible e) = 2%nat ->
            length (prevFingerX (runOps ops e)) = 2%nat
            /\ length (prevFingerVisible (runOps ops e)) = 2%nat).
  { induction ops as [|op ops IH]; intros e He; [exact He|].
    cbn [runOps fold_left]. fold (runOps ops (applyOp e op)). apply IH.
    destruct He as [Hx Hv]. destruct op as [f | b | n r | ]; cbn [applyOp].
    - apply tick_memory_length; assumption.
    - destruct b; cbn; auto.
    - cbn. auto.
    - cbn. auto. }
  apply Hgen. cbn. auto.
Qed.

(** ** The closest pull *)

Lemma closestBend_fold (w : Q) (str : StringConfig) (physics : Physics)
    (fingers : list FingerPosition) (acc : Q) :
  let c := fold_left (bendStep w str physics) fingers acc in
  Qabs acc <= Qabs c
  /\ (forall fg, fg ∈ fingers ->
        visible fg = true ->
        Qabs (finger_x fg - xPos str) < reachThreshold ->
        bendEligible physics = true ->
        Qabs (bendOf w (finger_x fg - xPos str)) <= Qabs c)
  /\ (c = acc
      \/ exists fg, fg ∈ fingers
                    /\ visible fg = true
                    /\ Qabs (finger_x fg - xPos str) < reachThreshold
                    /\ bendEligible physics = true
                    /\ c = bendOf w (finger_x fg - xPos str)).
Proof.
  revert acc. induction fingers as [|fg fingers IH]; intros acc; cbn [fold_left].
  - split; [apply Qle_refl|]. split; [|left; reflexivity].
    intros fg Hin. apply elem_of_nil in Hin. contradiction.
  - destruct (IH (bendStep w str physics acc fg)) as (Hacc & Hall & Hone).
    assert (Hstep : Qabs acc <= Qabs (bendStep w str physics acc fg)
              /\ (visible fg = true ->
                  Qabs (finger_x fg - xPos str) < reachThreshold ->
                  bendEligible physics = true ->
                  Qabs (bendOf w (finger_x fg - xPos str))
                  <= Qabs (bendStep w str physics acc fg))
              /\ (bendStep w str physics acc fg = acc
                  \/ (visible fg = true
                      /\ Qabs (finger_x fg - xPos str) < reachThreshold
                      /\ bendEligible physics = true
                      /\ bendStep w str physics acc fg
                         = bendOf w (finger_x fg - xPos str)))).
    { unfold bendStep. destruct (visible fg) eqn:Hvis; cbn [negb].
      - destruct (Qltb (Qabs (finger_x fg - xPos str)) reachThreshold) eqn:Hreach;
          cbn [andb].
        + destruct (bendEligible physics) eqn:Hel.
          * destruct (Qgtb (Qabs (bendOf w (finger_x fg - xPos str))) (Qabs acc)) eqn:Hgt.
            -- apply Qgtb_gt in Hgt. apply Qltb_lt in Hreach.
               split; [apply Qlt_le_weak, Hgt|]. split; [intros; apply Qle_refl|].
               right. auto.
            -- apply Qgtb_le in Hgt. split; [apply Qle_refl|].
               split; [intros; exact Hgt|]. left. reflexivity.
          * split; [apply Qle_refl|]. split; [discriminate|]. left. reflexivity.
        + split; [apply Qle_refl|]. split; [|left; reflexivity].
          intros _ Hlt. apply Qltb_lt in Hlt. congruence.
      - split; [apply Qle_refl|]. split; [discriminate|]. left. reflexivity. }
    destruct Hstep as (Hs1 & Hs2 & Hs3).
    split; [eapply Qle_trans; eassumption|]. split.
    + intros fg' Hin Hvis Hreach Hel.
      apply elem_of_cons in Hin as [-> | Hin].
      * eapply Qle_trans; [apply Hs2; assumption|exact Hacc].
      * apply Hall; assumption.
    + destruct Hone as [Hsame | (fg' & Hin & Hrest)].
      * rewrite Hsame. destruct Hs3 as [Hs3 | (H1 & H2 & H3 & H4)]; [left; exact Hs3|].
        right. exists fg. split; [apply list_elem_of_here|]. auto.
      * right. exists fg'. split; [apply list_elem_of_further, Hin|exact Hrest].
Qed.

(** X16. The closest pull wins: the closest bend of a string has at least
    the magnitude of the candidate bend of every visible finger within
    reach (when the string is bend-eligible), and it is either 0 or the
    candidate bend of one such finger. *)
Theorem closest_pull_wins (w : Q) (str : StringConfig) (physics : Physics)
    (fingers : list FingerPosition) :
  let c := closestBendOf w str physics fingers in
  (forall fg, fg ∈ fingers ->
     visible fg = true ->
     Qabs (finger_x fg - xPos str) < reachThreshold ->
     bendEligible physics = true ->
     Qabs (bendOf w (finger_x fg - xPos str)) <= Qabs c)
  /\ (c = 0
      \/ exists fg, fg ∈ fingers
                    /\ visible fg = true
                    /\ Qabs (finger_x fg - xPos str) < reachThreshold
                    /\ bendEligible physics = true
                    /\ c = bendOf w (finger_x fg - xPos str)).
Proof.
  intros c. destruct (closestBend_fold w str physics fingers 0) as (_ & Hall & Hone).
  split; [exact Hall|exact Hone].
Qed.

Lemma closestBendOf_not_eligible (w : Q) (str : StringConfig) (physics : Physics)
    (fingers : list FingerPosition) :
  bendEligible physics = false -> closestBendOf w str physics fingers = 0.
Proof.
  intros Hel. destruct (closestBend_fold w str physics fingers 0)
    as (_ & _ & [H | (fg & _ & _ & _ & H & _)]); [exact H|congruence].
Qed.

(** X17. A string that is still vibrating with amplitude at least 0.1 is
    not bent by any finger: in a tick that does not pluck it, its bend is
    multiplied by 0.8 and its vibration by 0.92 (ids being distinct). *)
Theorem vibrating_string_relaxes (f : Frame) (e e' : Engine) (evs : list PluckEvent)
    (str : StringConfig) (p0 : Physics) :
  tick f e = Completed e' evs ->
  NoDup (map str_id (stringsRef e)) ->
  str ∈ stringsRef e ->
  stringPhysics e !! str_id str = Some p0 ->
  1 # 10 <= vibration p0 ->
  eventsOf (str_id str) evs = [] ->
  stringPhysics e' !! str_id str
  = Some {| vibration := vibration p0 * (92 # 100); bend := bend p0 * (8 # 10) |}.
Proof.
  intros Htick Hnd Hstr Hp0 Hvib Hquiet.
  destruct (tick_string f e e' evs str Htick Hnd Hstr) as (Hev & Hphys & _).
  destruct (plucker _ _ _ _ _ _) as [y|]; [rewrite Hquiet in Hev; discriminate|].
  rewrite Hphys. f_equal. unfold bentPhysics. rewrite Hp0. cbn [default].
  rewrite closestBendOf_not_eligible by (apply Qltb_ge; exact Hvib).
  unfold applyBend. change (Qneb 0 0) with false. cbv iota.
  unfold decayVibration. cbn [vibration bend].
  assert (E : Qgtb (vibration p0) (1 # 100) = true) by (apply Qgtb_gt; lra).
  change (id p0) with p0. rewrite E. reflexivity.
Qed.

Lemma vibrating_string_relaxes_witness :
  let e := engineOf (tick (fingerFrame 1000 (1 # 30) 1016 (55 # 100) (3 # 10))
             (engineOf (tick (fingerFrame 1000 0 1000 (4 # 10) (3 # 10))
                             (startedEngine (generateStringConfigs 1 MID))))) in
  let f := fingerFrame 1000 (2 # 30) 1032 (55 # 100) (3 # 10) in
  stringPhysics (engineOf (tick f e)) !! 0%nat
  = Some {| vibration := (1 * (92 # 100)) * (92 # 100); bend := 0 * (8 # 10) |}.
Proof.
  intros e f.
  apply (vibrating_string_relaxes f e (engineOf (tick f e)) (eventsOfTick (tick f e))
           (stringConfigAt 1 4 0) {| vibration := 1 * (92 # 100); bend := 0 |}).
  - vm_compute. reflexivity.
  - vm_compute. apply NoDup_singleton.
  - vm_compute. apply list_elem_of_here.
  - vm_compute. reflexivity.
  - cbn. lra.
  - vm_compute. reflexivity.
Defined.

(** ** The feedback of plucks *)

Lemma mathMin_bounds (x g : Q) :
  0 <= x -> 0 <= g -> 0 <= mathMin 1 (x + g) /\ mathMin 1 (x + g) <= 1.
Proof.
  intros Hx Hg. unfold mathMin. destruct (Qle_bool 1 (x + g)) eqn:E.
  - split; lra.
  - assert (x + g < 1).
    { apply Qnot_le_lt. intros H. apply Qle_bool_iff in H. congruence. }
    split; lra.
Qed.

Lemma mathMax_bounds (x : Q) :
  x <= 1 -> 0 <= mathMax 0 (x - (5 # 100)) /\ mathMax 0 (x - (5 # 100)) <= 1.
Proof.
  intros Hx. unfold mathMax. destruct (Qle_bool 0 (x - (5 # 100))) eqn:E.
  - apply Qle_bool_iff in E. split; lra.
  - split; lra.
Qed.

Lemma feedbackStep_excitement (fb : Feedback) (op : FeedbackOp) :
  0 <= mascotExcitement fb /\ mascotExcitement fb <= 1 ->
  0 <= mascotExcitement (feedbackStep fb op)
  /\ mascotExcitement (feedbackStep fb op) <= 1.
Proof.
  intros [H0 H1]. destruct op as [strNote time|]; cbn [feedbackStep].
  - unfold triggerFeedback. cbn [mascotExcitement].
    apply mathMin_bounds; [exact H0|]. destruct (Qltb _ _); lra.
  - unfold decayFeedback. cbn [mascotExcitement]. apply mathMax_bounds, H1.
Qed.

(** X18. Whatever the sequence of plucks and 500 ms intervals, the mascot
    excitement stays between 0 and 1. *)
Theorem excitement_in_unit_interval (ops : list FeedbackOp) :
  0 <= mascotExcitement (feedbackRun ops newFeedback)
  /\ mascotExcitement (feedbackRun ops newFeedback) <= 1.
Proof.
  assert (Hgen : forall fb,
            0 <= mascotExcitement fb /\ mascotExcitement fb <= 1 ->
            0 <= mascotExcitement (feedbackRun ops fb)
            /\ mascotExcitement (feedbackRun ops fb) <= 1).
  { induction ops as [|op ops IH]; intros fb Hfb; [exact Hfb|].
    cbn [feedbackRun fold_left]. fold (feedbackRun ops (feedbackStep fb op)).
    apply IH, feedbackStep_excitement, Hfb. }
  apply Hgen. cbn. split; lra.
Qed.

Lemma confetti_count_step (n : nat) :
  (S n / 20 = if (S n mod 20 =? 0) then S (n / 20) else n / 20)%nat.
Proof.
  pose proof (Nat.div_mod_eq n 20) as E1. pose proof (Nat.div_mod_eq (S n) 20) as E2.
  pose proof (Nat.mod_upper_bound n 20 ltac:(lia)) as B1.
  pose proof (Nat.mod_upper_bound (S n) 20 ltac:(lia)) as B2.
  destruct (S n mod 20 =? 0)%nat eqn:E.
  - apply Nat.eqb_eq in E. lia.
  - apply Nat.eqb_neq in E. lia.
Qed.

Lemma plucksIn_pluck (strNote : string) (time : Q) (ops : list FeedbackOp) :
  plucksIn (FbPluck strNote time :: ops) = S (plucksIn ops).
Proof. reflexivity. Qed.

Lemma plucksIn_interval (ops : list FeedbackOp) :
  plucksIn (FbInterval :: ops) = plucksIn ops.
Proof. reflexivity. Qed.

(** X19. The note counter counts the plucks, a confetti burst is released
    at every 20th pluck (so after n plucks there were n div 20 bursts),
    and the count of recently played notes never exceeds the plucks. *)
Theorem confetti_every_twentieth (ops : list FeedbackOp) :
  let fb := feedbackRun ops newFeedback in
  noteCountRef fb = plucksIn ops
  /\ confettiBursts fb = (plucksIn ops / 20)%nat
  /\ (notesPlayedRecently fb <= plucksIn ops)%nat.
Proof.
  assert (Hgen : forall fb,
            confettiBursts fb = (noteCountRef fb / 20)%nat ->
            noteCountRef (feedbackRun ops fb) = (noteCountRef fb + plucksIn ops)%nat
            /\ confettiBursts (feedbackRun ops fb)
               = (noteCountRef (feedbackRun ops fb) / 20)%nat
            /\ (notesPlayedRecently (feedbackRun ops fb)
                <= notesPlayedRecently fb + plucksIn ops)%nat).
  { induction ops as [|op ops IH]; intros fb Hfb.
    - cbn. split; [lia|]. split; [exact Hfb|lia].
    - cbn [feedbackRun fold_left]. fold (feedbackRun ops (feedbackStep fb op)).
      destruct op as [strNote time|].
      + destruct (IH (feedbackStep fb (FbPluck strNote time))) as (H1 & H2 & H3).
        * cbn [feedbackStep triggerFeedback confettiBursts noteCountRef].
          rewrite andb_true_r, confetti_count_step, Hfb. reflexivity.
        * cbn [feedbackStep triggerFeedback noteCountRef notesPlayedRecently] in H1, H3.
          rewrite plucksIn_pluck.
          change (feedbackStep fb (FbPluck strNote time))
            with (triggerFeedback strNote time true fb) in *.
          split; [lia|]. split; [exact H2|lia].
      + destruct (IH (feedbackStep fb FbInterval)) as (H1 & H2 & H3).
        * cbn. exact Hfb.
        * cbn [feedbackStep decayFeedback noteCountRef notesPlayedRecently] in H1, H3.
          rewrite plucksIn_interval.
          change (feedbackStep fb FbInterval) with (decayFeedback fb) in *.
          split; [lia|]. split; [exact H2|lia]. }
  intros fb. destruct (Hgen newFeedback eq_refl) as (H1 & H2 & H3).
  subst fb. cbn [newFeedback noteCountRef notesPlayedRecently] in H1, H3.
  rewrite H2, H1. cbn [Nat.add]. split; [reflexivity|]. split; [reflexivity|exact H3].
Qed.

(** ** Particles *)

Lemma updateParticles_elem (ps : list Particle) (p' : Particle) :
  p' ∈ updateParticles ps
  <-> exists p, p ∈ ps /\ p' = moveParticle p /\ 0 < p_life p'.
Proof.
  induction ps as [|q ps IH]; cbn [updateParticles fold_right].
  - split; [intros H; apply elem_of_nil in H; contradiction|].
    intros (p & Hp & _). apply elem_of_nil in Hp. contradiction.
  - fold (updateParticles ps).
    destruct (Qle_bool (p_life (moveParticle q)) 0) eqn:E.
    + rewrite IH. split.
      * intros (p & Hp & Hrest). exists p. split; [apply list_elem_of_further, Hp|exact Hrest].
      * intros (p & Hp & -> & Hlife). apply elem_of_cons in Hp as [-> | Hp].
        -- apply Qle_bool_iff in E. exfalso. lra.
        -- exists p. auto.
    + assert (Halive : 0 < p_life (moveParticle q)).
      { apply Qnot_le_lt. intros H. apply Qle_bool_iff in H. congruence. }
      rewrite elem_of_cons, IH. split.
      * intros [-> | (p & Hp & Hrest)].
        -- exists q. split; [apply list_elem_of_here|auto].
        -- exists p. split; [apply list_elem_of_further, Hp|exact Hrest].
      * intros (p & Hp & -> & Hlife). apply elem_of_cons in Hp as [-> | Hp].
        -- left. reflexivity.
        -- right. exists p. auto.
Qed.

Lemma updateParticles_length (ps : list Particle) :
  (length (updateParticles ps) <= length ps)%nat.
Proof.
  induction ps as [|q ps IH]; cbn [updateParticles fold_right length]; [lia|].
  fold (updateParticles ps).
  destruct (Qle_bool _ _); cbn [length]; lia.
Qed.

(** X20. A frame of the particle loop moves every particle once, keeps
    exactly those whose life is still positive after the move, and adds
    none. *)
Theorem updateParticles_keeps_the_living (ps : list Particle) :
  (forall p', p' ∈ updateParticles ps
              <-> exists p, p ∈ ps /\ p' = moveParticle p /\ 0 < p_life p')
  /\ (length (updateParticles ps) <= length ps)%nat.
Proof.
  split; [apply updateParticles_elem|apply updateParticles_length].
Qed.

Lemma updateParticles_all_dead (ps : list Particle) :
  (forall p, p ∈ ps -> p_life p <= 25 # 1000) -> updateParticles ps = [].
Proof.
  intros Hall. destruct (updateParticles ps) as [|p' rest] eqn:E; [reflexivity|].
  assert (Hin : p' ∈ updateParticles ps) by (rewrite E; apply list_elem_of_here).
  apply updateParticles_elem in Hin as (p & Hp & -> & Hlife).
  specialize (Hall p Hp). cbn [moveParticle p_life] in Hlife. exfalso. lra.
Qed.

Lemma inject_nat_succ (n : nat) :
  inject_Z (Z.of_nat (S n)) == inject_Z (Z.of_nat n) + 1.
Proof. rewrite Nat2Z.inj_succ, <- Z.add_1_r, inject_Z_plus. reflexivity. Qed.

(** Particles whose life is used up within [n] frames are all gone
    after [n] frames. *)
Lemma updateParticles_exhausted (n : nat) (ps : list Particle) :
  (1 <= n)%nat ->
  (forall p, p ∈ ps -> p_life p <= (25 # 1000) * inject_Z (Z.of_nat n)) ->
  iterate n updateParticles ps = [].
Proof.
  intros Hn. destruct n as [|n]; [lia|]. clear Hn. revert ps.
  induction n as [|n IH]; intros ps Hall.
  - cbn [iterate]. apply updateParticles_all_dead.
    intros p Hp. specialize (Hall p Hp).
    change (inject_Z (Z.of_nat 1)) with 1 in Hall. lra.
  - cbn [iterate]. apply IH. intros p' Hp'.
    apply updateParticles_elem in Hp' as (p & Hp & -> & _).
    specialize (Hall p Hp). rewrite inject_nat_succ in Hall.
    cbn [moveParticle p_life]. lra.
Qed.

Lemma updateParticles_all_alive (ps : list Particle) :
  (forall p, p ∈ ps -> 25 # 1000 < p_life p) ->
  updateParticles ps = map moveParticle ps.
Proof.
  induction ps as [|q ps IH]; intros Hall; [reflexivity|].
  cbn [updateParticles fold_right map]. fold (updateParticles ps).
  rewrite IH by (intros p Hp; apply Hall, list_elem_of_further, Hp).
  destruct (Qle_bool (p_life (moveParticle q)) 0) eqn:E; [|reflexivity].
  apply Qle_bool_iff in E. cbn [moveParticle p_life] in E.
  specialize (Hall q (list_elem_of_here _ _)). exfalso. lra.
Qed.

(** Particles with more than [n] frames of life left are all kept for
    [n] frames. *)
Lemma updateParticles_lasting (n : nat) (ps : list Particle) :
  (forall p, p ∈ ps -> (25 # 1000) * inject_Z (Z.of_nat n) < p_life p) ->
  iterate n updateParticles ps = map (iterate n moveParticle) ps.
Proof.
  revert ps. induction n as [|n IH]; intros ps Hall.
  - cbn [iterate]. symmetry. apply map_id.
  - cbn [iterate].
    assert (Hmore : forall p, p ∈ ps ->
              (25 # 1000) * inject_Z (Z.of_nat n) + (25 # 1000) < p_life p).
    { intros p Hp. specialize (Hall p Hp). rewrite inject_nat_succ in Hall. lra. }
    rewrite updateParticles_all_alive.
    + rewrite IH.
      * rewrite map_map. reflexivity.
      * intros p' Hp'. apply list_elem_of_fmap in Hp' as (p & -> & Hp).
        specialize (Hmore p Hp). cbn [moveParticle p_life]. lra.
    + intros p Hp. specialize (Hmore p Hp).
      assert (0 <= inject_Z (Z.of_nat n)).
      { change 0 with (inject_Z 0). rewrite <- Zle_Qle. lia. }
      nra.
Qed.

(** X21. The particles of a burst are born with life 1: without other
    changes to the list they are all still flying after 39 frames of the
    particle loop, each moved 39 times, and the 40th frame removes them
    all. *)
Theorem burst_particles_live_forty_frames (ps : list Particle) :
  (forall p, p ∈ ps -> p_life p == 1) ->
  iterate 39 updateParticles ps = map (iterate 39 moveParticle) ps
  /\ iterate 40 updateParticles ps = [].
Proof.
  intros Hborn. split.
  - apply updateParticles_lasting. intros p Hp.
    rewrite (Hborn p Hp). vm_compute. reflexivity.
  - apply updateParticles_exhausted; [lia|]. intros p Hp.
    rewrite (Hborn p Hp). vm_compute. discriminate.
Qed.

Lemma burst_particles_live_forty_frames_witness :
  let p := mkParticle 500 300 3 (-4) 1 "#FF595E" 6 star 0 (1 # 10) in
  let q := mkParticle 480 310 (-2) (-5) 1 "#FFCA3A" 5 heart 1 (-1 # 10) in
  iterate 39 updateParticles [p; q] = map (iterate 39 moveParticle) [p; q]
  /\ iterate 40 updateParticles [p; q] = [].
Proof.
  intros p q.
  apply (burst_particles_live_forty_frames [p; q]).
  intros r Hr. apply elem_of_cons in Hr as [-> | Hr].
  - reflexivity.
  - apply list_elem_of_singleton in Hr. subst r. reflexivity.
Defined.

(** X22. The flight of a particle: after n frames its life has dropped by
    n times 0.025, its horizontal position has advanced by n times its
    velocity, its downward velocity has grown by n times 0.15, and its
    vertical position is y + n vy + 0.15 n (n - 1) / 2. *)
Theorem particle_flight (n : nat) (p : Particle) :
  let k := inject_Z (Z.of_nat n) in
  let q := iterate n moveParticle p in
  p_life q == p_life p - (25 # 1000) * k
  /\ p_x q == p_x p + k * p_vx p
  /\ p_vx q = p_vx p
  /\ p_vy q == p_vy p + (15 # 100) * k
  /\ p_y q == p_y p + k * p_vy p + (15 # 100) * (k * (k - 1) / 2)
  /\ p_rotation q == p_rotation p + k * p_rotationSpeed p.
Proof.
  revert p. induction n as [|n IH]; intros p k q.
  - subst k q. cbn [iterate]. change (inject_Z (Z.of_nat 0)) with 0.
    repeat split; try reflexivity; field.
  - subst q. cbn [iterate].
    destruct (IH (moveParticle p)) as (H1 & H2 & H3 & H4 & H5 & H6).
    cbn [moveParticle p_life p_x p_vx p_vy p_y p_rotation p_rotationSpeed]
      in H1, H2, H3, H4, H5, H6.
    assert (Ek : k == inject_Z (Z.of_nat n) + 1) by apply inject_nat_succ.
    set (m := inject_Z (Z.of_nat n)) in *. clearbody m.
    split; [rewrite H1, Ek; ring|]. split; [rewrite H2, Ek; ring|].
    split; [exact H3|]. split; [rewrite H4, Ek; ring|].
    split; [rewrite H5, Ek; field|]. rewrite H6, Ek. ring.
Qed.

Lemma updateConfetti_elem (height : Q) (cs : list ConfettiParticle)
    (c' : ConfettiParticle) :
  c' ∈ updateConfetti height cs
  <-> exists c, c ∈ cs /\ c' = moveConfetti c /\ 0 < c_life c' /\ c_y c' <= height.
Proof.
  induction cs as [|d cs IH]; cbn [updateConfetti fold_right].
  - split; [intros H; apply elem_of_nil in H; contradiction|].
    intros (c & Hc & _). apply elem_of_nil in Hc. contradiction.
  - fold (updateConfetti height cs).
    destruct (Qle_bool (c_life (moveConfetti d)) 0
              || Qgtb (c_y (moveConfetti d)) height) eqn:E.
    + rewrite IH. split.
      * intros (c & Hc & Hrest). exists c.
        split; [apply list_elem_of_further, Hc|exact Hrest].
      * intros (c & Hc & -> & Hlife & Hy). apply elem_of_cons in Hc as [-> | Hc].
        -- apply orb_true_iff in E as [E|E].
           ++ apply Qle_bool_iff in E. exfalso. lra.
           ++ apply Qgtb_gt in E. exfalso. lra.
        -- exists c. auto.
    + apply orb_false_iff in E as [E1 E2].
      assert (Halive : 0 < c_life (moveConfetti d)).
      { apply Qnot_le_lt. intros H. apply Qle_bool_iff in H. congruence. }
      apply Qgtb_le in E2.
      rewrite elem_of_cons, IH. split.
      * intros [-> | (c & Hc & Hrest)].
        -- exists d. split; [apply list_elem_of_here|auto].
        -- exists c. split; [apply list_elem_of_further, Hc|exact Hrest].
      * intros (c & Hc & -> & Hlife & Hy). apply elem_of_cons in Hc as [-> | Hc].
        -- left. reflexivity.
        -- right. exists c. auto.
Qed.

(** X23. A frame of the confetti loop moves every piece once and keeps
    exactly those that still have positive life and have not fallen below
    the canvas. *)
Theorem updateConfetti_keeps_the_flying (height : Q) (cs : list ConfettiParticle)
    (c' : ConfettiParticle) :
  c' ∈ updateConfetti height cs
  <-> exists c, c ∈ cs /\ c' = moveConfetti c /\ 0 < c_life c' /\ c_y c' <= height.
Proof. apply updateConfetti_elem. Qed.

(** Confetti whose life is used up within [n] frames is all gone after
    [n] frames, whatever the height of the canvas. *)
Lemma updateConfetti_exhausted (height : Q) (n : nat) (cs : list ConfettiParticle) :
  (1 <= n)%nat ->
  (forall c, c ∈ cs -> c_life c <= (1 # 100) * inject_Z (Z.of_nat n)) ->
  iterate n (updateConfetti height) cs = [].
Proof.
  intros Hn Hall.
  destruct n as [|n]; [lia|]. clear Hn. revert cs Hall.
  induction n as [|n IH]; intros cs Hall.
  - cbn [iterate].
    destruct (updateConfetti height cs) as [|c' rest] eqn:E; [reflexivity|].
    assert (Hin : c' ∈ updateConfetti height cs) by (rewrite E; apply list_elem_of_here).
    apply updateConfetti_elem in Hin as (c & Hc & -> & Hlife & _).
    specialize (Hall c Hc). change (inject_Z (Z.of_nat 1)) with 1 in Hall.
    cbn [moveConfetti c_life] in Hlife. exfalso. lra.
  - cbn [iterate]. apply IH. intros c' Hc'.
    apply updateConfetti_elem in Hc' as (c & Hc & -> & _).
    specialize (Hall c Hc). rewrite inject_nat_succ in Hall.
    cbn [moveConfetti c_life]. lra.
Qed.

(** X24. The pieces of a confetti burst are born with life 1: whatever
    the height of the canvas and however they fly, none of them is left
    after 100 frames of the confetti loop. *)
Theorem confetti_gone_after_hundred_frames (height : Q) (cs : list ConfettiParticle) :
  (forall c, c ∈ cs -> c_life c == 1) ->
  iterate 100 (updateConfetti height) cs = [].
Proof.
  intros Hborn.
  apply updateConfetti_exhausted; [lia|]. intros c Hc.
  rewrite (Hborn c Hc). vm_compute. discriminate.
Qed.

Lemma confetti_gone_after_hundred_frames_witness :
  let c := mkConfetti 500 260 4 (-12) 1 "#FF595E" 8 0 (1 # 10) in
  let d := mkConfetti 300 240 (-6) (-15) 1 "#1982C4" 10 2 (-2 # 10) in
  iterate 100 (updateConfetti 800) [c; d] = [].
Proof.
  intros c d.
  apply (confetti_gone_after_hundred_frames 800 [c; d]).
  intros c' Hc. apply elem_of_cons in Hc as [-> | Hc].
  - reflexivity.
  - apply list_elem_of_singleton in Hc. subst c'. reflexivity.
Defined.
